(** * fitter: connectors, the array node of the output tree, references

    A shallow embedding of the Go sources
      - pkg/builder (the array node: [arrayField]),
      - pkg/connectors (the HTTP connector [apiConnector.get] and the
        browser connector [getFromPlaywright]),
    together with the properties the specification states about them.

    Conventions.  A Go interface value is a record of the results of its
    methods, and a nil interface is [None].  A Go function with effects is
    a function from the outcomes of the external calls it makes (an oracle
    record) to its result and the list of the effects it performed.
    Logger calls have no bearing on any result and are left out. *)

From Stdlib Require Import Ascii String.
From stdpp Require Import base numbers list strings pretty gmap.

Set Warnings "-register-all".

Local Open Scope string_scope.
Local Open Scope Z_scope.
Local Open Scope list_scope.

(** ** Go values and panics *)

(** The dynamic values that [Raw()] returns and that decoding a JSON text
    into an [interface{}] produces.  A number is kept as the integer it
    denotes. *)
Inductive GoValue : Type :=
| VNil
| VBool (b : bool)
| VNumber (n : Z)
| VString (s : string)
| VSlice (l : list GoValue)
| VMap (m : list (string * GoValue)).

(** Result of a call that may end in a run-time panic. *)
Inductive result (A : Type) : Type :=
| Ok (a : A)
| Panic.
Arguments Ok {A} a.
Arguments Panic {A}.

Module Builder.

(** The [Jsonable] interface: a value of it is the record of what its three
    methods return.  [IsEmpty] can panic (see [arrayField_IsEmpty]). *)
Record Jsonable : Type := mkJsonable {
  IsEmpty : result bool;
  ToJson : string;
  Raw : GoValue
}.

(** [type arrayField struct { values []Jsonable }]; an element may be the
    nil interface. *)
Record arrayField : Type := mkArrayField {
  values : list (option Jsonable)
}.

Definition Array (items : list (option Jsonable)) : arrayField :=
  {| values := items |}.

(** [func (s *arrayField) IsEmpty() bool].  The method call [v.IsEmpty()]
    on a nil interface value panics. *)
Fixpoint IsEmpty_loop (vs : list (option Jsonable)) : result bool :=
  match vs with
  | [] => Ok true
  | None :: _ => Panic
  | Some v :: rest =>
      match IsEmpty v with
      | Panic => Panic
      | Ok false => Ok false
      | Ok true => IsEmpty_loop rest
      end
  end.

Definition arrayField_IsEmpty (s : arrayField) : result bool :=
  if Nat.eqb (length (values s)) 0 then Ok true else IsEmpty_loop (values s).

Section WithNull.

(** [Null()], the constructor of the Null node; its source is not part of
    the files at hand, so the array methods take it as a parameter. *)
Variable Null : Jsonable.

(** The text appended for one element: [Null().ToJson()] for nil. *)
Definition item_json (item : option Jsonable) : string :=
  match item with
  | None => ToJson Null
  | Some j => ToJson j
  end.

Definition item_raw (item : option Jsonable) : GoValue :=
  match item with
  | None => Raw Null
  | Some j => Raw j
  end.

(** The loop of [ToJson]: [i] is the index of the head of [items], [len]
    is [len(s.values)], [str] the accumulator. *)
Fixpoint ToJson_loop (len : Z) (i : Z) (items : list (option Jsonable))
    (str : string) : string :=
  match items with
  | [] => str
  | item :: rest =>
      let str := str +:+ item_json item in
      let str := if bool_decide (i ≠ len - 1) then str +:+ "," else str in
      ToJson_loop len (i + 1) rest str
  end.

Definition arrayField_ToJson (s : arrayField) : string :=
  ToJson_loop (Z.of_nat (length (values s))) 0 (values s) "[" +:+ "]".

(** [Raw]: [res[i]] is written for every index, in order. *)
Definition arrayField_Raw (s : arrayField) : GoValue :=
  VSlice (map item_raw (values s)).

(** [var _ Jsonable = &arrayField{}]: an array is itself a [Jsonable]. *)
Definition arrayField_Jsonable (s : arrayField) : Jsonable :=
  {| IsEmpty := arrayField_IsEmpty s;
     ToJson := arrayField_ToJson s;
     Raw := arrayField_Raw s |}.

End WithNull.

(** Modelled from the spec: the Null node of the output tree, which is
    always empty; its JSON text is the literal null and its raw value the
    nil interface.  The source of [Null()] is not among the files. *)
Definition NullNode : Jsonable :=
  {| IsEmpty := Ok true; ToJson := "null"; Raw := VNil |}.

End Builder.

(** ** JSON texts

    A decoder for JSON texts into [GoValue]s, used to state that a text
    re-parses: literals, integers, strings without escapes, arrays and
    objects, with insignificant white space. *)
Module Json.

Definition dquote : ascii := ascii_of_nat 34.

Definition is_ws (c : ascii) : bool :=
  Ascii.eqb c " " || Ascii.eqb c (ascii_of_nat 9)
  || Ascii.eqb c (ascii_of_nat 10) || Ascii.eqb c (ascii_of_nat 13).

Definition is_digit (c : ascii) : bool :=
  Nat.leb 48 (nat_of_ascii c) && Nat.leb (nat_of_ascii c) 57.

Definition digit_val (c : ascii) : Z := Z.of_nat (nat_of_ascii c) - 48.

Fixpoint skip_ws (s : string) : string :=
  match s with
  | String c s' => if is_ws c then skip_ws s' else s
  | EmptyString => s
  end.

Fixpoint strip_prefix (p s : string) : option string :=
  match p with
  | EmptyString => Some s
  | String a p' =>
      match s with
      | String b s' => if Ascii.eqb a b then strip_prefix p' s' else None
      | EmptyString => None
      end
  end.

(** The characters of a string up to its closing quote. *)
Fixpoint scan_string (s : string) : option (string * string) :=
  match s with
  | EmptyString => None
  | String c s' =>
      if Ascii.eqb c dquote then Some (EmptyString, s')
      else if Ascii.eqb c "\" || Nat.ltb (nat_of_ascii c) 32 then None
      else match scan_string s' with
           | Some (body, rest) => Some (String c body, rest)
           | None => None
           end
  end.

Fixpoint scan_digits (s : string) (acc : Z) : Z * string :=
  match s with
  | String c s' =>
      if is_digit c then scan_digits s' (10 * acc + digit_val c) else (acc, s)
  | EmptyString => (acc, s)
  end.

(** An integer without sign: a single zero, or a digit string that does
    not start with zero. *)
Definition scan_int (s : string) : option (Z * string) :=
  match s with
  | String c s' =>
      if Ascii.eqb c "0" then Some (0, s')
      else if is_digit c then Some (scan_digits s' (digit_val c))
      else None
  | EmptyString => None
  end.

Fixpoint parse_value (fuel : nat) (s : string) : option (GoValue * string) :=
  match fuel with
  | O => None
  | S f =>
      match skip_ws s with
      | EmptyString => None
      | String c s1 =>
          if Ascii.eqb c "n" then
            match strip_prefix "ull" s1 with
            | Some r => Some (VNil, r) | None => None end
          else if Ascii.eqb c "t" then
            match strip_prefix "rue" s1 with
            | Some r => Some (VBool true, r) | None => None end
          else if Ascii.eqb c "f" then
            match strip_prefix "alse" s1 with
            | Some r => Some (VBool false, r) | None => None end
          else if Ascii.eqb c dquote then
            match scan_string s1 with
            | Some (b, r) => Some (VString b, r) | None => None end
          else if Ascii.eqb c "[" then
            match skip_ws s1 with
            | EmptyString => None
            | String c2 s2 =>
                if Ascii.eqb c2 "]" then Some (VSlice [], s2)
                else match parse_elems f s1 with
                     | Some (vs, r) => Some (VSlice vs, r) | None => None end
            end
          else if Ascii.eqb c "{" then
            match skip_ws s1 with
            | EmptyString => None
            | String c2 s2 =>
                if Ascii.eqb c2 "}" then Some (VMap [], s2)
                else match parse_members f s1 with
                     | Some (ms, r) => Some (VMap ms, r) | None => None end
            end
          else if Ascii.eqb c "-" then
            match scan_int s1 with
            | Some (n, r) => Some (VNumber (- n), r) | None => None end
          else
            match scan_int (String c s1) with
            | Some (n, r) => Some (VNumber n, r) | None => None end
      end
  end
with parse_elems (fuel : nat) (s : string) : option (list GoValue * string) :=
  match fuel with
  | O => None
  | S f =>
      match parse_value f s with
      | None => None
      | Some (v, t) =>
          match skip_ws t with
          | EmptyString => None
          | String c t' =>
              if Ascii.eqb c "," then
                match parse_elems f t' with
                | Some (vs, r) => Some (v :: vs, r) | None => None end
              else if Ascii.eqb c "]" then Some ([v], t')
              else None
          end
      end
  end
with parse_members (fuel : nat) (s : string)
    : option (list (string * GoValue) * string) :=
  match fuel with
  | O => None
  | S f =>
      match skip_ws s with
      | EmptyString => None
      | String c s1 =>
          if Ascii.eqb c dquote then
            match scan_string s1 with
            | None => None
            | Some (k, s2) =>
                match skip_ws s2 with
                | EmptyString => None
                | String c2 s3 =>
                    if Ascii.eqb c2 ":" then
                      match parse_value f s3 with
                      | None => None
                      | Some (v, t) =>
                          match skip_ws t with
                          | EmptyString => None
                          | String c3 t' =>
                              if Ascii.eqb c3 "," then
                                match parse_members f t' with
                                | Some (ms, r) => Some ((k, v) :: ms, r)
                                | None => None end
                              else if Ascii.eqb c3 "}" then Some ([(k, v)], t')
                              else None
                          end
                      end
                    else None
                end
            end
          else None
      end
  end.

(** Fuel that suffices for a text: every call consumes a character. *)
Definition fuel_for (s : string) : nat := 2 * String.length s + 2.

(** Decoding a whole text: one value, then only white space. *)
Definition parse (s : string) : option GoValue :=
  match parse_value (fuel_for s) s with
  | Some (v, t) =>
      match skip_ws t with
      | EmptyString => Some v
      | String _ _ => None
      end
  | None => None
  end.

(** Whether a text can follow a number without being taken for its
    digits. *)
Definition nondigit_head (r : string) : bool :=
  match r with
  | String c _ => negb (is_digit c)
  | EmptyString => true
  end.

(** The texts of the elements of an array, separated by commas. *)
Fixpoint join (ss : list string) : string :=
  match ss with
  | [] => EmptyString
  | s :: rest =>
      match rest with
      | [] => s
      | _ :: _ => s +:+ "," +:+ join rest
      end
  end.

(** The array production of the JSON grammar, as a property of a decoder:
    texts that decode to [vs], separated by commas and enclosed in square
    brackets, decode to the array of [vs]. *)
Definition array_production (decode : string -> option GoValue) : Prop :=
  forall ss vs,
    Forall2 (fun s v => decode s = Some v) ss vs ->
    decode ("[" +:+ join ss +:+ "]") = Some (VSlice vs).

End Json.

(** A node re-parses when decoding its [ToJson()] gives its [Raw()]. *)
Definition reparses (decode : string -> option GoValue)
    (j : Builder.Jsonable) : Prop :=
  decode (Builder.ToJson j) = Some (Builder.Raw j).


(** ** What the connectors share: errors, contexts, semaphores, effects *)
Module Connectors.

Inductive error : Type :=
| errEmpty                       (* package variable: empty resolved URL *)
| errNoDriver                    (* "empty playwright driver" *)
| DeadlineExceeded               (* context.DeadlineExceeded *)
| Failure (what : string).       (* an error reported by an external call *)

(** Instants and durations, in seconds. *)
Definition Time : Type := Z.

(** A [context.Context]: the background context is never done; a context
    made by [context.WithTimeout] is done from its deadline on. *)
Inductive Context : Type :=
| Background
| WithDeadline (d : Time).

(** [context.WithTimeout(parent, tt)] called at instant [now]. *)
Definition WithTimeout (parent : Context) (now : Time) (tt : Time) : Context :=
  match parent with
  | Background => WithDeadline (now + tt)
  | WithDeadline d => WithDeadline (Z.min d (now + tt))
  end.

Inductive Pool : Type :=
| GlobalPool                     (* [sem], the pool of all requests *)
| HostPool (host : string)       (* the limiter of one host *)
| InstancePool                   (* the limiter of browser instances *)
| InstallLock.                   (* [installPlaywrightSem] *)

(** A [semaphore.Weighted] as its caller meets it: the pool it guards and
    the instant from which a slot is free for this caller ([None]: no slot
    is ever freed). *)
Record Semaphore : Type := mkSemaphore {
  sem_pool : Pool;
  sem_free : option Time
}.

Inductive acquired : Type :=
| Acquired (t : Time)                 (* nil error, at instant [t] *)
| AcquireErr (e : error) (t : Time)   (* [ctx.Err()], at instant [t] *)
| AcquireBlocks.                      (* the call never returns *)

(** [s.Acquire(ctx, 1)] called at [now]: it returns nil once a slot is
    free, and [ctx.Err()] if the context is done before. *)
Definition Acquire (s : Semaphore) (c : Context) (now : Time) : acquired :=
  match sem_free s, c with
  | Some t, Background => Acquired (Z.max now t)
  | Some t, WithDeadline d =>
      if (t <=? now)%Z then Acquired now
      else if (t <=? d)%Z then Acquired t
      else AcquireErr DeadlineExceeded (Z.max now d)
  | None, WithDeadline d => AcquireErr DeadlineExceeded (Z.max now d)
  | None, Background => AcquireBlocks
  end.

(** Pointers to [http.Client] values: the client that
    [http_client.GetDefaultClient()] returns, and clients given to a
    connector. *)
Inductive ClientRef : Type :=
| DefaultClient
| OwnClient (id : nat).

#[global] Instance ClientRef_eq_dec : EqDecision ClientRef.
Proof. solve_decision. Defined.

Record Userinfo : Type := mkUserinfo {
  user_name : string;
  user_password : option string
}.

(** A [*url.URL], as far as the connector touches it. *)
Record URL : Type := mkURL {
  url_text : string;
  url_User : option Userinfo
}.

(** The [Transport] field of a client: the zero value, or
    [&http.Transport{Proxy: http.ProxyURL(u)}]. *)
Inductive Transport : Type :=
| NoTransport
| ProxyTransport (u : URL).

(** The heap of clients: the [Transport] field of each. *)
Definition Store : Type := ClientRef -> Transport.

Definition set_Transport (c : ClientRef) (t : Transport) (st : Store) : Store :=
  fun c' => if decide (c' = c) then t else st c'.

(** [http.Header]: the values added under each header name. *)
Abbreviation Header := (gmap string (list string)).

Record Request : Type := mkRequest {
  req_Method : string;
  req_URL : string;
  req_Body : string;
  req_Host : string;
  req_Header : Header
}.

(** The bytes of a header name, [validHeaderFieldByte] of net/textproto:
    the token characters of RFC 7230. *)
Definition validHeaderFieldByte (c : ascii) : bool :=
  let n := nat_of_ascii c in
  (Nat.leb 48 n && Nat.leb n 57) || (Nat.leb 65 n && Nat.leb n 90)
  || (Nat.leb 97 n && Nat.leb n 122)
  || existsb (Ascii.eqb c)
       (list_ascii_of_string "!#$%&'*+-.^_`|~").

Definition to_upper (c : ascii) : ascii :=
  let n := nat_of_ascii c in
  if Nat.leb 97 n && Nat.leb n 122 then ascii_of_nat (n - 32)%nat else c.

Definition to_lower (c : ascii) : ascii :=
  let n := nat_of_ascii c in
  if Nat.leb 65 n && Nat.leb n 90 then ascii_of_nat (n + 32)%nat else c.

(** The first letter in upper case, upper case after each dash, lower
    case elsewhere. *)
Fixpoint canonical_case (upper : bool) (s : string) : string :=
  match s with
  | EmptyString => EmptyString
  | String c s' =>
      let c := if upper then to_upper c else to_lower c in
      String c (canonical_case (Ascii.eqb c "-") s')
  end.

(** [textproto.CanonicalMIMEHeaderKey], of the Go library, by which
    [Header.Add] names the entry: Host, User-Agent, If-Modified-Since; a
    name with a byte that is no token character is left as it is. *)
Definition CanonicalMIMEHeaderKey (s : string) : string :=
  if forallb validHeaderFieldByte (list_ascii_of_string s)
  then canonical_case true s
  else s.

(** [h.Add(k, v)]: the value is appended to the values of the canonical
    name. *)
Definition Header_add (h : Header) (k v : string) : Header :=
  let key := CanonicalMIMEHeaderKey k in
  <[key := default [] (h !! key) ++ [v]]> h.

(** [req.Header.Add(k, v)] *)
Definition Header_Add (req : Request) (kv : string * string) : Request :=
  {| req_Method := req_Method req; req_URL := req_URL req;
     req_Body := req_Body req; req_Host := req_Host req;
     req_Header := Header_add (req_Header req) kv.1 kv.2 |}.

(** A response; [resp_Body] is what [io.ReadAll(resp.Body)] returns. *)
Record Response : Type := mkResponse {
  resp_Header : Header;
  resp_Status : string;
  resp_Body : error + string
}.

(** What a connector does to the world around it, in order. *)
Inductive Event : Type :=
| EAcquire (p : Pool) (c : Context) (t : Time)
| EAcquireErr (p : Pool) (c : Context)
| EWait (p : Pool) (c : Context)            (* blocked in [Acquire] for ever *)
| ERelease (p : Pool)
| ENewRequest (method url body : string)
| EHeaderAdd (k v : string)
| EProxyParse (server : string)
| EUserPassword (username password : string)
| EUser (username : string)
| ESetTransport (c : ClientRef) (t : Transport)
| EDo (c : ClientRef) (t : Transport) (req : Request) (rc : Context)
| ECancel
| ECloseBody
| EInstall (ok : bool)                      (* [playwright.Install] *)
| EStoreInstalled.                          (* [installedPlaywright.Store(true)] *)

(** [config.ProxyConfig] *)
Record ProxyConfig : Type := mkProxyConfig {
  Server : string;
  Username : string;
  Password : string
}.

(** The scope of a template: current node, iteration index, root input. *)
Record Scope : Type := mkScope {
  parsedValue : option Builder.Jsonable;
  index : option N;
  input : option Builder.Jsonable
}.

(** [timeout = 60 * time.Second]; [ctx = context.Background()].  The
    capacity that [init] gives to [sem] ([defaultConcurrentWorker], or the
    environment's) shows in a run only through the instant at which a slot
    is free. *)
Definition timeout : Time := 60.
Definition defaultConcurrentWorker : Z := 1000.
Definition ctx : Context := Background.

(** Modelled from the spec: the iteration-index placeholder of
    [utils.Format], whose source is not among the files; its test expands
    the token [{INDEX}] to the decimal index, the spec has
    [Format("user-{{{ID}}}-{INDEX}", ..., index=3)] end in [-3], and a
    placeholder that cannot be resolved gives the empty string.  [skip]
    counts the characters of a token still to drop. *)
Fixpoint expand_index (idx : string) (skip : nat) (s : string) : string :=
  match s with
  | EmptyString => EmptyString
  | String c s' =>
      match skip with
      | S k => expand_index idx k s'
      | O =>
          match Json.strip_prefix "{INDEX}" s with
          | Some _ => idx +:+ expand_index idx 6 s'
          | None => String c (expand_index idx 0 s')
          end
      end
  end.

Definition FormatIndex (s : string) (sc : Scope) : string :=
  match index sc with
  | Some i => expand_index (pretty i) 0 s
  | None => expand_index EmptyString 0 s
  end.

End Connectors.

(** ** The HTTP connector *)
Module Api.
Import Connectors.

(** [config.ServerConnectorConfig], as far as [get] reads it.  [Headers]
    is a map; the list is the order in which the [range] visits it. *)
Record ServerConnectorConfig : Type := mkServerConnectorConfig {
  Method : string;
  Headers : list (string * string);
  Timeout : Z;
  Body : string;
  JsonRawBody : option string;
  Proxy : option ProxyConfig
}.

Record apiConnector : Type := mkApiConnector {
  api_url : string;
  api_client : option ClientRef;
  api_cfg : ServerConnectorConfig
}.

Definition NewAPI (url : string) (cfg : ServerConnectorConfig)
    (client : option ClientRef) : apiConnector :=
  {| api_url := url; api_client := client; api_cfg := cfg |}.

(** The outcomes of the calls that leave the package. *)
Record World : Type := mkWorld {
  (** [utils.Format] *)
  Format : string -> Scope -> string;
  (** the package variable [sem] *)
  sem : Semaphore;
  (** [limitter.HostLimiter]: nil, or the limiter of the host *)
  HostLimiter : string -> option Semaphore;
  (** the check of [http.NewRequest(method, url, body)]: an error, or the
      host of the request *)
  request_host : string -> string -> error + string;
  (** [url.Parse] *)
  url_Parse : string -> error + URL;
  (** [client.Do(req.WithContext(reqCtx))] at an instant, for a client
      with the given transport *)
  client_Do : ClientRef -> Transport -> Request -> Context -> Time
              -> error + Response
}.

(** Modelled from the spec: [http_client.GetDefaultClient()], whose source
    is not among the files, hands out the one default client of the
    process, shared by every connector that was given no client. *)
Definition GetDefaultClient : ClientRef := DefaultClient.

(** [http.NewRequest(method, url, body)]: the request has no header yet,
    and an empty method means GET. *)
Definition NewRequest (w : World) (method url body : string)
    : error + Request :=
  match request_host w method url with
  | inl e => inl e
  | inr host =>
      inr {| req_Method := if String.eqb method EmptyString then "GET"
                           else method;
             req_URL := url; req_Body := body;
             req_Host := host; req_Header := ∅ |}
  end.

(** What a call of [get] comes to. *)
Inductive Outcome : Type :=
| Returned (header : option Header) (body : option string)
           (err : option error)
| Blocks.

Record Run : Type := mkRun {
  outcome : Outcome;
  effects : list Event;
  final : Store
}.

(** A [return]: the deferred calls run, last deferred first. *)
Definition leave (st : Store) (tr defers : list Event)
    (header : option Header) (body : option string) (err : option error)
    : Run :=
  {| outcome := Returned header body err;
     effects := tr ++ defers;
     final := st |}.

Definition stuck (st : Store) (tr : list Event) : Run :=
  {| outcome := Blocks; effects := tr; final := st |}.

(** Lines 104-120: the proxy of the client. *)
Inductive ProxySetup : Type :=
| ProxyFailed (tr : list Event)
| ProxyDone (st : Store) (tr : list Event).

Definition proxy_setup (w : World) (cfg : ServerConnectorConfig) (sc : Scope)
    (client : ClientRef) (st : Store) : ProxySetup :=
  match Proxy cfg with
  | None => ProxyDone st []
  | Some p =>
      let server := Format w (Server p) sc in
      match url_Parse w server with
      | inl errProxy => ProxyFailed [EProxyParse server]
      | inr proxyUrl =>
          let '(proxyUrl, tr) :=
            if negb (String.eqb (Username p) EmptyString) then
              if negb (String.eqb (Password p) EmptyString) then
                let u := Format w (Username p) sc in
                let pw := Format w (Password p) sc in
                ({| url_text := url_text proxyUrl;
                    url_User := Some (mkUserinfo u (Some pw)) |},
                 [EUserPassword u pw])
              else
                let u := Format w (Username p) sc in
                ({| url_text := url_text proxyUrl;
                    url_User := Some (mkUserinfo u None) |},
                 [EUser u])
            else (proxyUrl, []) in
          let t := ProxyTransport proxyUrl in
          ProxyDone (set_Transport client t st)
                    (EProxyParse server :: tr ++ [ESetTransport client t])
      end
  end.

(** Lines 131-156: the request is sent and the response read. *)
Definition send (w : World) (cfg : ServerConnectorConfig)
    (client : ClientRef) (st : Store) (req : Request) (now : Time)
    (tr defers : list Event) : Run :=
  let tt := if (0 <? Timeout cfg)%Z then Timeout cfg else timeout in
  let reqCtx := WithTimeout ctx now tt in
  let defers := ECancel :: defers in
  let tr := tr ++ [EDo client (st client) req reqCtx] in
  match client_Do w client (st client) req reqCtx now with
  | inl err => leave st tr defers None None (Some err)
  | inr resp =>
      let defers := ECloseBody :: defers in
      match resp_Body resp with
      | inl err => leave st tr defers None None (Some err)
      | inr bytes => leave st tr defers (Some (resp_Header resp)) (Some bytes) None
      end
  end.

(** Lines 69-72: the body of the request. *)
Definition formattedBody (w : World) (cfg : ServerConnectorConfig)
    (sc : Scope) : string :=
  let formattedBody := Format w (Body cfg) sc in
  match JsonRawBody cfg with
  | Some raw =>
      if Nat.ltb 0 (String.length raw) then Format w raw sc
      else formattedBody
  | None => formattedBody
  end.

(** The headers that [get] adds to the request. *)
Definition formattedHeaders (w : World) (cfg : ServerConnectorConfig)
    (sc : Scope) : list (string * string) :=
  map (fun kv => (Format w kv.1 sc, Format w kv.2 sc)) (Headers cfg).

(** Lines 95-156 of [get]: the request [req] is built and the global slot
    held since [t1]; [tr] are the effects so far and [d1] the deferred
    release of the global slot.  From here on [err], the error of
    [http.NewRequest], is nil. *)
Definition get_from_headers (w : World) (api : apiConnector) (sc : Scope)
    (st : Store) (t1 : Time) (req : Request) (tr d1 : list Event) : Run :=
  let cfg := api_cfg api in
  let err : option error := None in
  let hs := formattedHeaders w cfg sc in
  let req := fold_left Header_Add hs req in
  let tr := tr ++ map (fun kv => EHeaderAdd kv.1 kv.2) hs in
  let client := match api_client api with
                | Some c => c
                | None => GetDefaultClient
                end in
  match proxy_setup w cfg sc client st with
  | ProxyFailed tr' => leave st (tr ++ tr') d1 None None err
  | ProxyDone st tr' =>
      let tr := tr ++ tr' in
      match HostLimiter w (req_Host req) with
      | None => send w cfg client st req t1 tr d1
      | Some hostLimit =>
          let hp := HostPool (req_Host req) in
          match Acquire hostLimit ctx t1 with
          | AcquireBlocks => stuck st (tr ++ [EWait hp ctx])
          | AcquireErr errHostLimit _ =>
              leave st (tr ++ [EAcquireErr hp ctx]) d1
                    None None (Some errHostLimit)
          | Acquired t2 =>
              send w cfg client st req t2
                   (tr ++ [EAcquire hp ctx t2])
                   (ERelease hp :: d1)
          end
      end
  end.

(** [func (api *apiConnector) get(parsedValue, index, input)], called at
    instant [now] on the heap [st]. *)
Definition get (w : World) (api : apiConnector) (sc : Scope) (now : Time)
    (st : Store) : Run :=
  let cfg := api_cfg api in
  let formattedBody := formattedBody w cfg sc in
  let formattedURL := Format w (api_url api) sc in
  if String.eqb formattedURL EmptyString then
    leave st [] [] None None (Some errEmpty)
  else
    match Acquire (sem w) ctx now with
    | AcquireBlocks => stuck st [EWait GlobalPool ctx]
    | AcquireErr err _ =>
        leave st [EAcquireErr GlobalPool ctx] [] None None (Some err)
    | Acquired t1 =>
        let d1 := [ERelease GlobalPool] in
        let tr := [EAcquire GlobalPool ctx t1;
                   ENewRequest (Method cfg) formattedURL formattedBody] in
        match NewRequest w (Method cfg) formattedURL formattedBody with
        | inl err => leave st tr d1 None None (Some err)
        | inr req => get_from_headers w api sc st t1 req tr d1
        end
    end.

(** [GetWithHeaders] is [get]. *)
Definition GetWithHeaders := get.

(** The text that [get] gives to [http.NewRequest] as the body, against
    the descriptor: the expansion of [JsonRawBody] when that is set and
    not empty, and of [Body] otherwise. *)
Definition expanded_body (w : World) (cfg : ServerConnectorConfig)
    (sc : Scope) (b : string) : Prop :=
  match JsonRawBody cfg with
  | Some raw =>
      if decide (raw = EmptyString) then b = Format w (Body cfg) sc
      else b = Format w raw sc
  | None => b = Format w (Body cfg) sc
  end.

(** The values that a request holds under a header name, against the
    descriptor: the expansions of the values of the configured headers
    whose expanded name has this canonical form. *)
Definition expanded_values (w : World) (cfg : ServerConnectorConfig)
    (sc : Scope) (name : string) : list string :=
  map (fun kv => Format w kv.2 sc)
      (List.filter
         (fun kv => String.eqb (CanonicalMIMEHeaderKey (Format w kv.1 sc))
                               name)
         (Headers cfg)).

(** What an effect of a fetch passes on, against the descriptor: every
    field but the method is the expansion of the configured one; the
    method goes to [http.NewRequest] as it is configured, and the request
    is sent with it, or with GET when it is empty. *)
Definition passes_expanded (w : World) (api : apiConnector) (sc : Scope)
    (e : Event) : Prop :=
  let cfg := api_cfg api in
  match e with
  | ENewRequest m u b =>
      m = Method cfg /\ u = Format w (api_url api) sc
      /\ expanded_body w cfg sc b
  | EHeaderAdd k v =>
      exists k0 v0, In (k0, v0) (Headers cfg)
                    /\ k = Format w k0 sc /\ v = Format w v0 sc
  | EProxyParse s =>
      exists p, Proxy cfg = Some p /\ s = Format w (Server p) sc
  | EUserPassword u pw =>
      exists p, Proxy cfg = Some p /\ u = Format w (Username p) sc
                /\ pw = Format w (Password p) sc
  | EUser u => exists p, Proxy cfg = Some p /\ u = Format w (Username p) sc
  | EDo _ _ req _ =>
      req_Method req = (if decide (Method cfg = EmptyString) then "GET"
                        else Method cfg)
      /\ req_URL req = Format w (api_url api) sc
      /\ expanded_body w cfg sc (req_Body req)
      /\ (forall name, default [] (req_Header req !! name)
                       = expanded_values w cfg sc name)
  | _ => True
  end.

(** An acquisition made with the background context that did not fail. *)
Definition acquires_in_background (e : Event) : Prop :=
  match e with
  | EAcquire _ c _ | EWait _ c => c = Background
  | EAcquireErr _ _ => False
  | _ => True
  end.

(** The deadline of a request sent at or after [now] with time limit
    [tt]. *)
Definition deadline_from (now tt : Time) (e : Event) : Prop :=
  match e with
  | EDo _ _ _ rc => exists t0, now <= t0 /\ rc = WithDeadline (t0 + tt)
  | _ => True
  end.

(** The semaphore behind a pool of the HTTP connector. *)
Definition pool_semaphore (w : World) (p : Pool) : option Semaphore :=
  match p with
  | GlobalPool => Some (sem w)
  | HostPool h => HostLimiter w h
  | _ => None
  end.

(** Every acquisition of a run is made with the background context and
    returns at the instant its pool frees a slot, or at once when the slot
    is free already; [asked] is the instant at which the next acquisition
    is asked for: the start of the call, then the instant of the
    acquisition before. *)
Fixpoint acquired_when_free (w : World) (asked : Time) (tr : list Event)
    : Prop :=
  match tr with
  | [] => True
  | EAcquire p c t :: rest =>
      c = Background
      /\ (exists s free, pool_semaphore w p = Some s
                         /\ sem_free s = Some free
                         /\ t = Z.max asked free)
      /\ acquired_when_free w t rest
  | _ :: rest => acquired_when_free w asked rest
  end.

(** The deadline of every request of a run is the instant of the latest
    acquisition before it ([held]), plus the time limit: the time limit
    starts to count when the slots are held. *)
Fixpoint deadline_after_slots (held : option Time) (tt : Time)
    (tr : list Event) : Prop :=
  match tr with
  | [] => True
  | EAcquire _ _ t :: rest => deadline_after_slots (Some t) tt rest
  | EDo _ _ _ rc :: rest =>
      (exists t, held = Some t /\ rc = WithDeadline (t + tt))
      /\ deadline_after_slots held tt rest
  | _ :: rest => deadline_after_slots held tt rest
  end.

(** An effect that is neither an acquisition nor a request. *)
Definition silent (e : Event) : bool :=
  match e with
  | EAcquire _ _ _ | EDo _ _ _ _ => false
  | _ => true
  end.

(** The pool and request events of a run. *)
Inductive Sync : Type :=
| SAcquire (p : Pool)
| SRelease (p : Pool)
| SDo (host : string).

Definition sync_view (e : Event) : option Sync :=
  match e with
  | EAcquire p _ _ => Some (SAcquire p)
  | ERelease p => Some (SRelease p)
  | EDo _ _ req _ => Some (SDo (req_Host req))
  | _ => None
  end.

Definition sync_trace (tr : list Event) : list Sync := omap sync_view tr.

Definition is_Do (e : Event) : bool :=
  match e with EDo _ _ _ _ => true | _ => false end.

(** A request sent through client [c] with transport [t]. *)
Definition uses_transport (c : ClientRef) (t : Transport) (e : Event) : Prop :=
  match e with
  | EDo c' t' _ _ => c' = c /\ t' = t
  | _ => True
  end.

(** The time limit of the request: lines 131-134. *)
Definition time_limit (cfg : ServerConnectorConfig) : Time :=
  if (0 <? Timeout cfg)%Z then Timeout cfg else timeout.

End Api.

(** ** The browser connector *)
Module Playwright.
Import Connectors.

Inductive BrowserKind : Type :=
| Chromium
| FireFox
| WebKit
| OtherBrowser (name : string).

#[global] Instance BrowserKind_eq_dec : EqDecision BrowserKind.
Proof. solve_decision. Defined.

(** [config.PlaywrightConfig], as far as [getFromPlaywright] reads it. *)
Record PlaywrightConfig : Type := mkPlaywrightConfig {
  Install : bool;
  Timeout : Z;
  Wait : Z;
  Browser : BrowserKind;
  Proxy : option ProxyConfig;
  Stealth : bool;
  PreRunScript : string
}.

(** [playwright.Proxy], as far as the connector fills it: [Username] and
    [Password] are pointers. *)
Record LaunchProxy : Type := mkLaunchProxy {
  proxy_Server : string;
  proxy_Username : option string;
  proxy_Password : option string
}.

(** [playwright.BrowserTypeLaunchOptions], as far as the connector fills
    it. *)
Record BrowserTypeLaunchOptions : Type := mkLaunchOptions {
  opt_Proxy : option LaunchProxy
}.

(** The outcomes of the calls into the browser runtime ([None]: a nil
    error), of the limiter, and of the final [select]. *)
Record World : Type := mkWorld {
  Format : string -> Scope -> string;
  (** [limitter.PlaywrightLimiter()]: nil, or the limiter *)
  PlaywrightLimiter : option Semaphore;
  (** the package variable [installPlaywrightSem] *)
  installPlaywrightSem : Semaphore;
  playwright_Install : option error;
  playwright_Run : option error;
  (** [pw.Chromium.Launch(opts...)], [pw.Firefox.Launch(opts...)],
      [pw.WebKit.Launch(opts...)]: the browser type with the options; a
      launch without error gives a browser *)
  Launch : BrowserKind * list BrowserTypeLaunchOptions -> option error;
  NewPage : option error;
  stealth_Inject : option error;
  AddInitScript : option error;
  Goto : string -> option error;
  Evaluate : string -> option error;
  (** [page.Content()]: both results *)
  Content : string * option error;
  (** whether [ctxT.Done()] is the case of the [select] that fires: the
      deadline passes before the goroutine closes [res] *)
  deadline_first : bool
}.

(** The variables the goroutine leaves behind: [content] and [err] of the
    enclosing function, the [err] that [pw, err := playwright.Run(...)]
    declares in the block of the function literal (every later [err] of
    the literal is this one), and the flag [installedPlaywright]. *)
Record Goroutine : Type := mkGoroutine {
  g_content : string;
  g_err : option error;
  g_err_inner : option error;
  g_installed : bool;
  g_effects : list Event
}.

(** Lines 50-75.  [stop] tells that the goroutine returns. *)
Record Installed : Type := mkInstalled {
  i_err : option error;
  i_stop : bool;
  i_installed : bool;
  i_effects : list Event
}.

Definition install_section (w : World) (ctxT : Context) (now : Time)
    (installed : bool) : Installed :=
  match Acquire (installPlaywrightSem w) ctxT now with
  | AcquireErr e _ =>
      mkInstalled (Some e) true installed [EAcquireErr InstallLock ctxT]
  | AcquireBlocks =>
      mkInstalled None true installed [EWait InstallLock ctxT]
  | Acquired t =>
      let acq := EAcquire InstallLock ctxT t in
      if installed then
        mkInstalled None false installed [acq; ERelease InstallLock]
      else
        match playwright_Install w with
        | Some e =>
            mkInstalled (Some e) false installed
                        [acq; EInstall false; ERelease InstallLock]
        | None =>
            mkInstalled None false true
                        [acq; EInstall true; EStoreInstalled;
                         ERelease InstallLock]
        end
  end.

(** Lines 91-108: the options of the launch.  A field of the proxy is
    set, to the expansion of the configured text, when that text is not
    empty. *)
Definition launch_options (w : World) (cfg : PlaywrightConfig) (sc : Scope)
    : list BrowserTypeLaunchOptions :=
  match Proxy cfg with
  | None => []
  | Some p =>
      let proxy :=
        {| proxy_Server :=
             if negb (String.eqb (Server p) EmptyString)
             then Format w (Server p) sc else EmptyString;
           proxy_Username :=
             if negb (String.eqb (Username p) EmptyString)
             then Some (Format w (Username p) sc) else None;
           proxy_Password :=
             if negb (String.eqb (Password p) EmptyString)
             then Some (Format w (Password p) sc) else None |} in
      [mkLaunchOptions (Some proxy)]
  end.

(** Lines 77-202: from [playwright.Run] to [page.Content()].  The result
    is the pair of [content] and of the inner [err].  The wait of lines
    175-184 is an argument of the navigation, whose outcome is given; the
    deferred [Stop] and [Close] calls only log. *)
Definition browser_sequence (w : World) (url : string)
    (cfg : PlaywrightConfig) (sc : Scope) : string * option error :=
  match playwright_Run w with
  | Some e => (EmptyString, Some e)
  | None =>
      let opts := launch_options w cfg sc in
      let launched :=
        match Browser cfg with
        | OtherBrowser _ => Some errNoDriver
        | b => Launch w (b, opts)
        end in
      match launched with
      | Some e => (EmptyString, Some e)
      | None =>
          match NewPage w with
          | Some e => (EmptyString, Some e)
          | None =>
              let stealth :=
                if Stealth cfg then
                  match stealth_Inject w with
                  | Some e => Some e
                  | None => AddInitScript w
                  end
                else None in
              match stealth with
              | Some e => (EmptyString, Some e)
              | None =>
                  match Goto w url with
                  | Some e => (EmptyString, Some e)
                  | None =>
                      let script :=
                        if negb (String.eqb (PreRunScript cfg) EmptyString)
                        then Evaluate w (Format w (PreRunScript cfg) sc)
                        else None in
                      match script with
                      | Some e => (EmptyString, Some e)
                      | None => Content w
                      end
                  end
              end
          end
      end
  end.

(** The function literal started by [go]. *)
Definition goroutine (w : World) (url : string) (cfg : PlaywrightConfig)
    (sc : Scope) (ctxT : Context) (now : Time) (installed : bool)
    : Goroutine :=
  let i :=
    if Install cfg then install_section w ctxT now installed
    else mkInstalled None false installed [] in
  if i_stop i then
    mkGoroutine EmptyString (i_err i) None (i_installed i) (i_effects i)
  else
    let '(content, err_inner) := browser_sequence w url cfg sc in
    mkGoroutine content (i_err i) err_inner (i_installed i) (i_effects i).

(** What [getFromPlaywright] returns: the bytes and the error. *)
Record Result : Type := mkResult {
  r_bytes : option string;
  r_err : option error;
  r_installed : bool;
  r_effects : list Event
}.

(** Lines 26-33: the slot of the instance pool; on success the instant,
    the effect and the deferred release. *)
Inductive InstanceSlot : Type :=
| SlotErr (errInstance : error)
| SlotBlocks
| SlotOk (t : Time) (tr defers : list Event).

Definition instance_acquire (w : World) (now : Time) : InstanceSlot :=
  match PlaywrightLimiter w with
  | None => SlotOk now [] []
  | Some instanceLimit =>
      match Acquire instanceLimit ctx now with
      | AcquireErr errInstance _ => SlotErr errInstance
      | AcquireBlocks => SlotBlocks
      | Acquired t =>
          SlotOk t [EAcquire InstancePool ctx t] [ERelease InstancePool]
      end
  end.

(** [getFromPlaywright] of the connector with templates (211 lines): the
    [select] returns [[]byte(content), err] with the [err] of the
    enclosing function.  [None] stands for a call that never returns. *)
Definition getFromPlaywright (w : World) (url : string)
    (cfg : PlaywrightConfig) (sc : Scope) (now : Time) (installed : bool)
    : option Result :=
  match instance_acquire w now with
  | SlotErr errInstance =>
      Some (mkResult None (Some errInstance) installed
                     [EAcquireErr InstancePool ctx])
  | SlotBlocks => None
  | SlotOk t0 tr defers =>
      let t := if (0 <? Timeout cfg)%Z then Timeout cfg else timeout in
      let ctxT := WithTimeout Background t0 t in
      let g := goroutine w url cfg sc ctxT t0 installed in
      let tr := tr ++ g_effects g ++ ECancel :: defers in
      if deadline_first w then
        Some (mkResult None (Some DeadlineExceeded) (g_installed g) tr)
      else
        Some (mkResult (Some (g_content g)) (g_err g) (g_installed g) tr)
  end.

(** [getFromPlaywright] of pkg/connectors/playwright.go (138 lines): no
    install lock, no launch options, no stealth, no script, and the
    [select] returns [[]byte(content), nil]. *)
Definition browser_sequence_old (w : World) (url : string)
    (cfg : PlaywrightConfig) : string * option error :=
  match playwright_Run w with
  | Some e => (EmptyString, Some e)
  | None =>
      let launched :=
        match Browser cfg with
        | OtherBrowser _ => Some errNoDriver
        | b => Launch w (b, [])
        end in
      match launched with
      | Some e => (EmptyString, Some e)
      | None =>
          match NewPage w with
          | Some e => (EmptyString, Some e)
          | None =>
              match Goto w url with
              | Some e => (EmptyString, Some e)
              | None => Content w
              end
          end
      end
  end.

Definition getFromPlaywright_old (w : World) (url : string)
    (cfg : PlaywrightConfig) (now : Time) : option Result :=
  match instance_acquire w now with
  | SlotErr errInstance =>
      Some (mkResult None (Some errInstance) false
                     [EAcquireErr InstancePool ctx])
  | SlotBlocks => None
  | SlotOk t0 tr defers =>
      let install :=
        if Install cfg then
          match playwright_Install w with
          | Some e => (Some e, [EInstall false])
          | None => (None, [EInstall true])
          end
        else (None, []) in
      let content :=
        match install.1 with
        | Some _ => EmptyString
        | None => (browser_sequence_old w url cfg).1
        end in
      let tr := tr ++ install.2 ++ ECancel :: defers in
      if deadline_first w then
        Some (mkResult None (Some DeadlineExceeded) false tr)
      else
        Some (mkResult (Some content) None false tr)
  end.

End Playwright.

(** The sum of a measure over a list, and the number of elements with a
    property. *)
Definition total {A : Type} (f : A -> nat) (l : list A) : nat :=
  foldr (fun a k => (f a + k)%nat) 0%nat l.

Definition count {A : Type} (P : A -> bool) (l : list A) : nat :=
  total (fun a => if P a then 1%nat else 0%nat) l.

(** ** The install section under concurrency

    The callers of [getFromPlaywright] with [Install] set run lines 50-75
    concurrently.  Each call of the section is a thread that moves through
    the program points below; a step is one of its atomic actions on the
    lock [installPlaywrightSem] and the flag [installedPlaywright]. *)
Module InstallProtocol.

Inductive pc : Type :=
| AtAcquire      (* before [installPlaywrightSem.Acquire(ctxT, 1)] *)
| AtLoad         (* lock held, before [installedPlaywright.Load()] *)
| AtInstall      (* lock held, flag read as false, before [Install] *)
| AtStore        (* lock held, install done, before [Store(true)] *)
| AtRelease      (* lock held, before the deferred [Release(1)] *)
| Finished.

#[global] Instance pc_eq_dec : EqDecision pc.
Proof. solve_decision. Defined.

Inductive label : Type :=
| Acq (i : nat)
| AcqTimeout (i : nat)
| Load (i : nat) (installed : bool)
| InstallOk (i : nat)
| InstallFail (i : nat)
| Store (i : nat)
| Rel (i : nat).

Record State : Type := mkState {
  lock : bool;                 (* the slot of the capacity-1 semaphore is taken *)
  flag : bool;                 (* [installedPlaywright] *)
  threads : list pc
}.

Definition init (n : nat) : State :=
  {| lock := false; flag := false; threads := replicate n AtAcquire |}.

Definition move (i : nat) (p : pc) (s : State) : list pc :=
  <[i := p]> (threads s).

Inductive step : State -> label -> State -> Prop :=
| step_acquire s i :
    threads s !! i = Some AtAcquire -> lock s = false ->
    step s (Acq i) (mkState true (flag s) (move i AtLoad s))
| step_timeout s i :
    threads s !! i = Some AtAcquire ->
    step s (AcqTimeout i) (mkState (lock s) (flag s) (move i Finished s))
| step_load_installed s i :
    threads s !! i = Some AtLoad -> flag s = true ->
    step s (Load i true) (mkState (lock s) (flag s) (move i AtRelease s))
| step_load_missing s i :
    threads s !! i = Some AtLoad -> flag s = false ->
    step s (Load i false) (mkState (lock s) (flag s) (move i AtInstall s))
| step_install_ok s i :
    threads s !! i = Some AtInstall ->
    step s (InstallOk i) (mkState (lock s) (flag s) (move i AtStore s))
| step_install_fail s i :
    threads s !! i = Some AtInstall ->
    step s (InstallFail i) (mkState (lock s) (flag s) (move i AtRelease s))
| step_store s i :
    threads s !! i = Some AtStore ->
    step s (Store i) (mkState (lock s) true (move i AtRelease s))
| step_release s i :
    threads s !! i = Some AtRelease ->
    step s (Rel i) (mkState false (flag s) (move i Finished s)).

(** The runs of [n] callers, with the actions so far, latest first. *)
Inductive reach (n : nat) : State -> list label -> Prop :=
| reach_init : reach n (init n) []
| reach_step s tr l s' :
    reach n s tr -> step s l s' -> reach n s' (l :: tr).

Definition holds_lock (p : pc) : bool :=
  match p with
  | AtLoad | AtInstall | AtStore | AtRelease => true
  | AtAcquire | Finished => false
  end.

Definition installing (p : pc) : bool :=
  match p with AtInstall => true | _ => false end.

Definition storing (p : pc) : bool :=
  match p with AtStore => true | _ => false end.

Definition is_install_ok (l : label) : bool :=
  match l with InstallOk _ => true | _ => false end.

Definition is_install (l : label) : bool :=
  match l with InstallOk _ | InstallFail _ => true | _ => false end.

Definition is_acq (l : label) : bool :=
  match l with Acq _ => true | _ => false end.

Definition is_store (l : label) : bool :=
  match l with Store _ => true | _ => false end.

Definition installs_ok (tr : list label) : nat := count is_install_ok tr.

(** The actions that follow the first [Store] of a run (given latest
    first): the part of the run after installation has completed. *)
Fixpoint after_store (tr : list label) : list label :=
  match tr with
  | [] => []
  | l :: older =>
      if existsb is_store older then l :: after_store older else []
  end.

(** The caller that takes an action, and the action without its
    caller. *)
Definition caller_of (l : label) : nat :=
  match l with
  | Acq i | AcqTimeout i | Load i _ | InstallOk i | InstallFail i
  | Store i | Rel i => i
  end.

Inductive action : Type :=
| DoAcq
| DoTimeout
| DoLoad (installed : bool)
| DoInstallOk
| DoInstallFail
| DoStore
| DoRel.

Definition action_of (l : label) : action :=
  match l with
  | Acq _ => DoAcq
  | AcqTimeout _ => DoTimeout
  | Load _ b => DoLoad b
  | InstallOk _ => DoInstallOk
  | InstallFail _ => DoInstallFail
  | Store _ => DoStore
  | Rel _ => DoRel
  end.

(** The actions of caller [i] in a run (given latest first), first action
    first. *)
Definition history (i : nat) (tr : list label) : list action :=
  rev (map action_of (List.filter (fun l => Nat.eqb (caller_of l) i) tr)).

(** The program point at which an action is taken. *)
Definition pc_before (a : action) : pc :=
  match a with
  | DoAcq | DoTimeout => AtAcquire
  | DoLoad _ => AtLoad
  | DoInstallOk | DoInstallFail => AtInstall
  | DoStore => AtStore
  | DoRel => AtRelease
  end.

(** The ways through lines 50-75 to a program point: what a caller at the
    point has done so far.  The lock is acquired first; the flag is read
    next; the installer runs after the flag was read unset; the flag is
    stored after the installer succeeded; the lock is released last, after
    the flag was read set, the installer failed, or the flag was stored;
    a caller that has finished gave up at its deadline without the lock,
    or released the lock. *)
Definition way_to (p : pc) (h : list action) : Prop :=
  match p with
  | AtAcquire => h = []
  | AtLoad => h = [DoAcq]
  | AtInstall => h = [DoAcq; DoLoad false]
  | AtStore => h = [DoAcq; DoLoad false; DoInstallOk]
  | AtRelease =>
      h = [DoAcq; DoLoad true]
      \/ h = [DoAcq; DoLoad false; DoInstallFail]
      \/ h = [DoAcq; DoLoad false; DoInstallOk; DoStore]
  | Finished =>
      h = [DoTimeout]
      \/ h = [DoAcq; DoLoad true; DoRel]
      \/ h = [DoAcq; DoLoad false; DoInstallFail; DoRel]
      \/ h = [DoAcq; DoLoad false; DoInstallOk; DoStore; DoRel]
  end.

(** What every reachable state satisfies. *)
Definition invariant (s : State) (tr : list label) : Prop :=
  count holds_lock (threads s) = (if lock s then 1%nat else 0%nat)
  /\ (flag s = true ->
      count installing (threads s) = 0%nat
      /\ count storing (threads s) = 0%nat)
  /\ installs_ok tr
     = (count storing (threads s) + (if flag s then 1 else 0))%nat
  /\ existsb is_store tr = flag s
  /\ Forall (fun l => is_install l = false) (after_store tr).

End InstallProtocol.

(** ** References

    Modelled from the spec: the reference registry (section 4.6), whose
    source is not among the files.  A name is Unresolved (absent from the
    table), Resolving, or Resolved with the outcome of the resolver; the
    first caller for a name moves it to Resolving and executes the
    resolver, whose outcome (a value or an error) is stored; callers that
    find the name Resolving wait; callers that find it Resolved take the
    stored outcome.  There is no invalidation. *)
Module References.

(** An outcome of the resolver: the JSON text of the value, or an error. *)
Definition Outcome : Type := (string + string)%type.

Inductive refstate : Type :=
| Resolving
| Resolved (r : Outcome).

Inductive caller : Type :=
| Calling (name : string)            (* in [resolve(name)], nothing done yet *)
| Running (name : string)            (* executing the resolver for [name] *)
| Got (name : string) (r : Outcome). (* [resolve(name)] returned [r] *)

Definition name_of (c : caller) : string :=
  match c with
  | Calling n | Running n | Got n _ => n
  end.

Inductive label : Type :=
| Start (i : nat) (name : string)
| Fetch (i : nat) (name : string) (r : Outcome)   (* one fetch+extract *)
| Read (i : nat) (name : string) (r : Outcome).

Record State : Type := mkState {
  table : gmap string refstate;
  callers : list caller
}.

Definition init (names : list string) : State :=
  {| table := ∅; callers := map Calling names |}.

Inductive step : State -> label -> State -> Prop :=
| step_start s i n :
    callers s !! i = Some (Calling n) -> table s !! n = None ->
    step s (Start i n)
         (mkState (<[n := Resolving]> (table s))
                  (<[i := Running n]> (callers s)))
| step_fetch s i n r :
    callers s !! i = Some (Running n) ->
    step s (Fetch i n r)
         (mkState (<[n := Resolved r]> (table s))
                  (<[i := Got n r]> (callers s)))
| step_read s i n r :
    callers s !! i = Some (Calling n) -> table s !! n = Some (Resolved r) ->
    step s (Read i n r)
         (mkState (table s) (<[i := Got n r]> (callers s))).

(** The runs of the callers [names], with the actions so far, latest
    first. *)
Inductive reach (names : list string) : State -> list label -> Prop :=
| reach_init : reach names (init names) []
| reach_step s tr l s' :
    reach names s tr -> step s l s' -> reach names s' (l :: tr).

Definition is_fetch (n : string) (l : label) : bool :=
  match l with
  | Fetch _ m _ => bool_decide (m = n)
  | _ => false
  end.

(** The number of fetch+extract executions for [n] in a run. *)
Definition fetches (n : string) (tr : list label) : nat :=
  count (is_fetch n) tr.

Definition is_running (n : string) (c : caller) : bool :=
  match c with
  | Running m => bool_decide (m = n)
  | _ => false
  end.

Definition returned (c : caller) : bool :=
  match c with Got _ _ => true | _ => false end.

(** The work left to the callers: every step makes it smaller. *)
Definition work (c : caller) : nat :=
  match c with
  | Calling _ => 2
  | Running _ => 1
  | Got _ _ => 0
  end.

Definition work_left (s : State) : nat := total work (callers s).

(** What every reachable state satisfies: a name is Resolving exactly
    while one caller runs its resolver; its resolver has been executed
    once when it is Resolved and not before; a caller that returned got
    the stored outcome. *)
Definition invariant (s : State) (tr : list label) : Prop :=
  (forall n, count (is_running n) (callers s)
             = match table s !! n with
               | Some Resolving => 1%nat
               | _ => 0%nat
               end)
  /\ (forall n, fetches n tr
                = match table s !! n with
                  | Some (Resolved _) => 1%nat
                  | _ => 0%nat
                  end)
  /\ (forall i n r, callers s !! i = Some (Got n r) ->
                    table s !! n = Some (Resolved r)).

End References.

(** ** Worlds and descriptors for the examples *)
Module Examples.
Import Connectors.

(** The characters of an HTTP method: [http.NewRequest] rejects a method
    with any other character. *)
Definition is_tchar (c : ascii) : bool :=
  let n := nat_of_ascii c in
  (Nat.leb 48 n && Nat.leb n 57) || (Nat.leb 65 n && Nat.leb n 90)
  || (Nat.leb 97 n && Nat.leb n 122)
  || existsb (Ascii.eqb c)
       (list_ascii_of_string "!#$%&'*+-.^_`|~").

Definition valid_method (m : string) : bool :=
  forallb is_tchar (list_ascii_of_string m).

Definition ok_response : Response :=
  {| resp_Header := {["Content-Type" := ["application/json"]]};
     resp_Status := "200 OK";
     resp_Body := inr "{}" |}.

(** A world with a free global pool after [wait] seconds, no host limiter,
    a server at example.com that answers every request, and a URL parser
    that wants a scheme. *)
Definition world (wait : Time) : Api.World :=
  {| Api.Format := FormatIndex;
     Api.sem := mkSemaphore GlobalPool (Some wait);
     Api.HostLimiter := fun _ => None;
     Api.request_host := fun m _ =>
       if valid_method m then inr "example.com"
       else inl (Failure "net/http: invalid method");
     Api.url_Parse := fun s =>
       match Json.strip_prefix "http://" s with
       | Some _ => inr (mkURL s None)
       | None => inl (Failure "missing protocol scheme")
       end;
     Api.client_Do := fun _ _ _ _ _ => inr ok_response |}.

(** The same world with a limiter for every host, free after [hwait]. *)
Definition world_limited (wait hwait : Time) : Api.World :=
  {| Api.Format := FormatIndex;
     Api.sem := mkSemaphore GlobalPool (Some wait);
     Api.HostLimiter := fun h => Some (mkSemaphore (HostPool h) (Some hwait));
     Api.request_host := Api.request_host (world wait);
     Api.url_Parse := Api.url_Parse (world wait);
     Api.client_Do := Api.client_Do (world wait) |}.

Definition scope3 : Scope :=
  {| parsedValue := None; index := Some 3%N; input := None |}.

Definition descriptor (method : string) (timeout : Z)
    (proxy : option ProxyConfig) : Api.ServerConnectorConfig :=
  {| Api.Method := method;
     Api.Headers := [("X-Item", "{INDEX}")];
     Api.Timeout := timeout;
     Api.Body := EmptyString;
     Api.JsonRawBody := None;
     Api.Proxy := proxy |}.

Definition items_url : string := "http://example.com/items/{INDEX}".

Definition store0 : Store := fun _ => NoTransport.

(** A browser runtime in which every step succeeds, but for the start of
    the runtime and the installer, which are as given; no instance
    limiter; the install lock is free; the goroutine finishes before the
    deadline. *)
Definition browser (run install : option error) : Playwright.World :=
  {| Playwright.Format := FormatIndex;
     Playwright.PlaywrightLimiter := None;
     Playwright.installPlaywrightSem := mkSemaphore InstallLock (Some 0);
     Playwright.playwright_Install := install;
     Playwright.playwright_Run := run;
     Playwright.Launch := fun _ => None;
     Playwright.NewPage := None;
     Playwright.stealth_Inject := None;
     Playwright.AddInitScript := None;
     Playwright.Goto := fun _ => None;
     Playwright.Evaluate := fun _ => None;
     Playwright.Content := ("<html></html>", None);
     Playwright.deadline_first := false |}.

Definition chromium (install : bool) : Playwright.PlaywrightConfig :=
  {| Playwright.Install := install;
     Playwright.Timeout := 0;
     Playwright.Wait := 0;
     Playwright.Browser := Playwright.Chromium;
     Playwright.Proxy := None;
     Playwright.Stealth := false;
     Playwright.PreRunScript := EmptyString |}.

End Examples.

(** ** The capacity of the global pool *)
Module ApiPool.
Import Connectors.

(** The value of a string of decimal digits, [None] when a character is
    not a digit. *)
Fixpoint digits_value (s : string) (acc : Z) : option Z :=
  match s with
  | EmptyString => Some acc
  | String c s' =>
      if Json.is_digit c then digits_value s' (10 * acc + Json.digit_val c)
      else None
  end.

(** [strconv.ParseInt(s, 10, 32)] of the standard library: an optional
    sign, then at least one decimal digit and nothing else; a value
    outside of the 32-bit integers is a range error. *)
Definition ParseInt (s : string) : error + Z :=
  match s with
  | EmptyString => inl (Failure "invalid syntax")
  | String c s' =>
      let neg := Ascii.eqb c "-" in
      let body := if Ascii.eqb c "+" || Ascii.eqb c "-" then s' else s in
      match body with
      | EmptyString => inl (Failure "invalid syntax")
      | String _ _ =>
          match digits_value body 0 with
          | None => inl (Failure "invalid syntax")
          | Some n =>
              let v := if neg then - n else n in
              if (- 2147483648 <=? v) && (v <=? 2147483647) then inr v
              else inl (Failure "value out of range")
          end
      end
  end.

(** [func init()]: the capacity given to [semaphore.NewWeighted], for the
    environment [LookupEnv]. *)
Definition init (LookupEnv : string -> option string) : Z :=
  let defaultConcurrentRequest := defaultConcurrentWorker in
  match LookupEnv "FITTER_HTTP_WORKER" with
  | Some value =>
      match ParseInt value with
      | inr intValue =>
          if 0 <? intValue then intValue else defaultConcurrentRequest
      | inl _ => defaultConcurrentRequest
      end
  | None => defaultConcurrentRequest
  end.

End ApiPool.

(** ** More of the HTTP connector *)
Module ApiMore.
Import Connectors Api.

(** The client of a connector: its own, or the default one (lines
    99-102). *)
Definition client_of (api : apiConnector) : ClientRef :=
  match api_client api with
  | Some c => c
  | None => GetDefaultClient
  end.

(** The user information that lines 111-117 leave in the proxy URL. *)
Definition proxy_user (w : World) (p : ProxyConfig) (sc : Scope)
    (parsed : option Userinfo) : option Userinfo :=
  if String.eqb (Username p) EmptyString then parsed
  else if String.eqb (Password p) EmptyString then
    Some (mkUserinfo (Format w (Username p) sc) None)
  else
    Some (mkUserinfo (Format w (Username p) sc)
                     (Some (Format w (Password p) sc))).

(** An effect on a client of the heap goes to client [c] and carries the
    transport that [st] holds for it. *)
Definition through_client (c : ClientRef) (st : Store) (e : Event) : Prop :=
  match e with
  | EDo c' t _ _ | ESetTransport c' t => c' = c /\ t = st c
  | _ => True
  end.

End ApiMore.

(** ** More of the browser connector *)
Module PlaywrightMore.
Import Connectors Playwright.

(** The steps of lines 77-196 in the order of the source, each with its
    outcome; a step that the descriptor switches off is left out. *)
Definition steps (w : World) (url : string) (cfg : PlaywrightConfig)
    (sc : Scope) : list (option error) :=
  [playwright_Run w;
   match Browser cfg with
   | OtherBrowser _ => Some errNoDriver
   | b => Launch w (b, launch_options w cfg sc)
   end;
   NewPage w]
  ++ (if Stealth cfg then [stealth_Inject w; AddInitScript w] else [])
  ++ [Goto w url]
  ++ (if String.eqb (PreRunScript cfg) EmptyString then []
      else [Evaluate w (Format w (PreRunScript cfg) sc)]).

(** The error of the first step that fails. *)
Fixpoint first_failure (l : list (option error)) : option error :=
  match l with
  | [] => None
  | Some e :: _ => Some e
  | None :: rest => first_failure rest
  end.

#[global] Instance Pool_eq_dec : EqDecision Pool.
Proof. solve_decision. Defined.

(** The events of a run on one pool. *)
Definition on_pool (p : Pool) (e : Event) : bool :=
  match e with
  | EAcquire q _ _ | ERelease q | EAcquireErr q _ | EWait q _ =>
      bool_decide (q = p)
  | _ => false
  end.

Definition is_installer (e : Event) : bool :=
  match e with EInstall _ => true | _ => false end.

End PlaywrightMore.

(** The work left to the callers of the install section: every step takes
    some away. *)
Module InstallProgress.
Import InstallProtocol.

Definition work (p : pc) : nat :=
  match p with
  | AtAcquire => 5
  | AtLoad => 4
  | AtInstall => 3
  | AtStore => 2
  | AtRelease => 1
  | Finished => 0
  end.

Definition work_left (s : State) : nat := total work (threads s).

Definition is_finished (p : pc) : bool :=
  match p with Finished => true | _ => false end.

Definition is_timeout (l : label) : bool :=
  match l with AcqTimeout _ => true | _ => false end.

End InstallProgress.

(** ** Expressions *)
Module Utils.
Import Connectors.

Definition fitterResultRef : string := "fRes".
Definition fitterIndexRef : string := "fIndex".

(** An environment of an expression: [map[string]interface{}]. *)
Abbreviation Env := (gmap string GoValue).

Definition defEnv : Env := ∅.

(** The type of a call that may panic, for functions with a parameter
    called [result]. *)
Abbreviation may_panic := result.

(** [func extendEnv(env, result, index)].  The loop copies [env] entry by
    entry into a new map; [result.Raw()] on the nil interface panics. *)
Definition extendEnv (env : Env) (result : option Builder.Jsonable)
    (index : option N) : may_panic Env :=
  let kv : Env := map_fold (fun k v (kv : Env) => <[k := v]> kv) ∅ env in
  match result with
  | None => Panic
  | Some r =>
      let kv := <[fitterResultRef := Builder.Raw r]> kv in
      let kv := match index with
                | Some i => <[fitterIndexRef := VNumber (Z.of_N i)]> kv
                | None => kv
                end in
      Ok kv
  end.

(** The expression library: [expr.Compile] and [expr.Run], and
    [Format]. *)
Record World : Type := mkWorld {
  Program : Type;
  Format : string -> Scope -> string;
  Compile : string -> Env -> error + Program;
  Run : Program -> Env -> error + GoValue
}.

(** [func ProcessExpression(expression, result, index)]: the value and
    the error. *)
Definition ProcessExpression (w : World) (expression : string)
    (result : option Builder.Jsonable) (index : option N)
    : may_panic (GoValue * option error) :=
  match extendEnv defEnv result index with
  | Panic => Panic
  | Ok env =>
      match Compile w (Format w expression (mkScope result index None)) env with
      | inl err => Ok (VBool false, Some err)
      | inr program =>
          match Run w program env with
          | inl err => Ok (VBool false, Some err)
          | inr out => Ok (out, None)
          end
      end
  end.

End Utils.

(** * Properties *)

(** ** Strings *)

Lemma append_String a (s r : string) : String a s +:+ r = String a (s +:+ r).
Proof. reflexivity. Qed.

Lemma append_Empty (r : string) : EmptyString +:+ r = r.
Proof. reflexivity. Qed.

Ltac str := rewrite ?append_String, ?append_Empty; simpl.

Lemma append_nil_r (s : string) : s +:+ EmptyString = s.
Proof. induction s; str; congruence. Qed.

Lemma append_assoc (a b c : string) : (a +:+ b) +:+ c = a +:+ (b +:+ c).
Proof. induction a; str; congruence. Qed.

Lemma length_append (a b : string) :
  String.length (a +:+ b) = (String.length a + String.length b)%nat.
Proof. induction a; str; congruence. Qed.

(** ** The decoder follows the array production of the JSON grammar *)

Module JsonFacts.
Import Json.

Lemma skip_ws_app s c s' r :
  skip_ws s = String c s' -> skip_ws (s +:+ r) = String c (s' +:+ r).
Proof.
  induction s as [|a s IH]; str; [discriminate|].
  destruct (is_ws a); [exact IH|].
  intros [= -> ->]. reflexivity.
Qed.

Lemma skip_ws_all s r :
  skip_ws s = EmptyString -> skip_ws (s +:+ r) = skip_ws r.
Proof.
  induction s as [|a s IH]; str; [reflexivity|].
  destruct (is_ws a); [exact IH|discriminate].
Qed.

Lemma skip_ws_nonempty t c t' : skip_ws t = String c t' -> t <> EmptyString.
Proof. intros H ->. discriminate. Qed.

Lemma strip_prefix_app p s t r :
  strip_prefix p s = Some t -> strip_prefix p (s +:+ r) = Some (t +:+ r).
Proof.
  revert s; induction p as [|a p IH]; simpl; intros s.
  - intros [= ->]. reflexivity.
  - destruct s as [|b s]; [discriminate|]. str.
    destruct (Ascii.eqb a b); [apply IH|discriminate].
Qed.

Lemma scan_string_app s b t r :
  scan_string s = Some (b, t) -> scan_string (s +:+ r) = Some (b, t +:+ r).
Proof.
  revert b; induction s as [|a s IH]; str; intros b; [discriminate|].
  destruct (Ascii.eqb a dquote).
  - intros [= <- <-]. reflexivity.
  - destruct (_ || _); [discriminate|].
    destruct (scan_string s) as [[b' t']|]; [|discriminate].
    intros [= <- <-]. rewrite (IH b' eq_refl). reflexivity.
Qed.

(** Only a number is sensitive to what follows it: a digit would be taken
    for a part of it. *)
Lemma scan_digits_app s acc n t r :
  scan_digits s acc = (n, t) ->
  t <> EmptyString \/ nondigit_head r = true ->
  scan_digits (s +:+ r) acc = (n, t +:+ r).
Proof.
  revert acc; induction s as [|a s IH]; str; intros acc.
  - intros [= <- <-] [H|H]; [congruence|].
    destruct r as [|c r]; simpl; [reflexivity|].
    simpl in H. destruct (is_digit c); [discriminate|reflexivity].
  - destruct (is_digit a); [apply IH|].
    intros [= <- <-] _. reflexivity.
Qed.

Lemma scan_int_app s n t r :
  scan_int s = Some (n, t) ->
  t <> EmptyString \/ nondigit_head r = true ->
  scan_int (s +:+ r) = Some (n, t +:+ r).
Proof.
  destruct s as [|a s]; str; [discriminate|].
  destruct (Ascii.eqb a "0").
  - intros [= <- <-] _. reflexivity.
  - destruct (is_digit a); [|discriminate].
    intros [= H] Hr. rewrite (scan_digits_app _ _ _ _ r H Hr). reflexivity.
Qed.

#[local] Arguments strip_prefix : simpl never.
#[local] Arguments scan_string : simpl never.
#[local] Arguments scan_int : simpl never.
#[local] Arguments skip_ws : simpl never.
#[local] Arguments Ascii.eqb : simpl never.

Section Extension.

(** A successful parse of a prefix is not disturbed by what is appended. *)
Lemma parse_ext f :
  (forall s v t r, parse_value f s = Some (v, t) ->
     t <> EmptyString \/ nondigit_head r = true ->
     parse_value f (s +:+ r) = Some (v, t +:+ r)) /\
  (forall s vs t r, parse_elems f s = Some (vs, t) ->
     parse_elems f (s +:+ r) = Some (vs, t +:+ r)) /\
  (forall s ms t r, parse_members f s = Some (ms, t) ->
     parse_members f (s +:+ r) = Some (ms, t +:+ r)).
Proof.
  induction f as [|f (IHv & IHe & IHm)].
  { repeat split; intros ? ? ? ? H; discriminate H. }
  repeat split.
  - intros s v t r H Hr. simpl in H |- *.
    destruct (skip_ws s) as [|c s1] eqn:E; [discriminate|].
    rewrite (skip_ws_app _ _ _ r E).
    destruct (Ascii.eqb c "n").
    { destruct (strip_prefix "ull" s1) eqn:E1; [|discriminate].
      rewrite (strip_prefix_app _ _ _ r E1). congruence. }
    destruct (Ascii.eqb c "t").
    { destruct (strip_prefix "rue" s1) eqn:E1; [|discriminate].
      rewrite (strip_prefix_app _ _ _ r E1). congruence. }
    destruct (Ascii.eqb c "f").
    { destruct (strip_prefix "alse" s1) eqn:E1; [|discriminate].
      rewrite (strip_prefix_app _ _ _ r E1). congruence. }
    destruct (Ascii.eqb c dquote).
    { destruct (scan_string s1) as [[b t1]|] eqn:E1; [|discriminate].
      rewrite (scan_string_app _ _ _ r E1). congruence. }
    destruct (Ascii.eqb c "[").
    { destruct (skip_ws s1) as [|c2 s2] eqn:E1; [discriminate|].
      rewrite (skip_ws_app _ _ _ r E1).
      destruct (Ascii.eqb c2 "]"); [congruence|].
      destruct (parse_elems f s1) as [[vs t1]|] eqn:E2; [|discriminate].
      rewrite (IHe _ _ _ r E2). congruence. }
    destruct (Ascii.eqb c "{").
    { destruct (skip_ws s1) as [|c2 s2] eqn:E1; [discriminate|].
      rewrite (skip_ws_app _ _ _ r E1).
      destruct (Ascii.eqb c2 "}"); [congruence|].
      destruct (parse_members f s1) as [[vs t1]|] eqn:E2; [|discriminate].
      rewrite (IHm _ _ _ r E2). congruence. }
    destruct (Ascii.eqb c "-").
    { destruct (scan_int s1) as [[n t1]|] eqn:E1; [|discriminate].
      injection H as <- <-.
      rewrite (scan_int_app _ _ _ r E1 Hr). reflexivity. }
    destruct (scan_int (String c s1)) as [[n t1]|] eqn:E1; [|discriminate].
    injection H as <- <-.
    change (String c (s1 +:+ r)) with (String c s1 +:+ r).
    rewrite (scan_int_app _ _ _ r E1 Hr). reflexivity.
  - intros s vs t r H. simpl in H |- *.
    destruct (parse_value f s) as [[v t1]|] eqn:E; [|discriminate].
    destruct (skip_ws t1) as [|c t2] eqn:E1; [discriminate|].
    rewrite (IHv _ _ _ r E (or_introl (skip_ws_nonempty _ _ _ E1))).
    rewrite (skip_ws_app _ _ _ r E1).
    destruct (Ascii.eqb c ",").
    { destruct (parse_elems f t2) as [[vs' t3]|] eqn:E2; [|discriminate].
      rewrite (IHe _ _ _ r E2). congruence. }
    destruct (Ascii.eqb c "]"); congruence.
  - intros s ms t r H. simpl in H |- *.
    destruct (skip_ws s) as [|c s1] eqn:E; [discriminate|].
    rewrite (skip_ws_app _ _ _ r E).
    destruct (Ascii.eqb c dquote); [|discriminate].
    destruct (scan_string s1) as [[k s2]|] eqn:E1; [|discriminate].
    rewrite (scan_string_app _ _ _ r E1).
    destruct (skip_ws s2) as [|c2 s3] eqn:E2; [discriminate|].
    rewrite (skip_ws_app _ _ _ r E2).
    destruct (Ascii.eqb c2 ":"); [|discriminate].
    destruct (parse_value f s3) as [[v t1]|] eqn:E3; [|discriminate].
    destruct (skip_ws t1) as [|c3 t2] eqn:E4; [discriminate|].
    rewrite (IHv _ _ _ r E3 (or_introl (skip_ws_nonempty _ _ _ E4))).
    rewrite (skip_ws_app _ _ _ r E4).
    destruct (Ascii.eqb c3 ",").
    { destruct (parse_members f t2) as [[ms' t3]|] eqn:E5; [|discriminate].
      rewrite (IHm _ _ _ r E5). congruence. }
    destruct (Ascii.eqb c3 "}"); congruence.
Qed.

(** More fuel never changes a result. *)
Lemma parse_mono f :
  (forall s x g, parse_value f s = Some x -> (f <= g)%nat ->
     parse_value g s = Some x) /\
  (forall s x g, parse_elems f s = Some x -> (f <= g)%nat ->
     parse_elems g s = Some x) /\
  (forall s x g, parse_members f s = Some x -> (f <= g)%nat ->
     parse_members g s = Some x).
Proof.
  induction f as [|f (IHv & IHe & IHm)].
  { repeat split; intros ? ? ? H; discriminate H. }
  repeat split.
  - intros s x [|g] H Hg; [lia|]. simpl in H |- *.
    destruct (skip_ws s) as [|c s1]; [discriminate|].
    repeat (match goal with
            | |- context [if ?b then _ else _] => destruct b
            end; try exact H).
    + destruct (skip_ws s1) as [|c2 s2]; [discriminate|].
      destruct (Ascii.eqb c2 "]"); [exact H|].
      destruct (parse_elems f s1) as [x'|] eqn:E2; [|discriminate].
      rewrite (IHe _ _ g E2); [exact H|lia].
    + destruct (skip_ws s1) as [|c2 s2]; [discriminate|].
      destruct (Ascii.eqb c2 "}"); [exact H|].
      destruct (parse_members f s1) as [x'|] eqn:E2; [|discriminate].
      rewrite (IHm _ _ g E2); [exact H|lia].
  - intros s x [|g] H Hg; [lia|]. simpl in H |- *.
    destruct (parse_value f s) as [[v t1]|] eqn:E; [|discriminate].
    rewrite (IHv _ _ g E); [|lia].
    destruct (skip_ws t1) as [|c t2]; [discriminate|].
    destruct (Ascii.eqb c ","); [|exact H].
    destruct (parse_elems f t2) as [x'|] eqn:E2; [|discriminate].
    rewrite (IHe _ _ g E2); [exact H|lia].
  - intros s x [|g] H Hg; [lia|]. simpl in H |- *.
    destruct (skip_ws s) as [|c s1]; [discriminate|].
    destruct (Ascii.eqb c dquote); [|discriminate].
    destruct (scan_string s1) as [[k s2]|]; [|discriminate].
    destruct (skip_ws s2) as [|c2 s3]; [discriminate|].
    destruct (Ascii.eqb c2 ":"); [|discriminate].
    destruct (parse_value f s3) as [[v t1]|] eqn:E3; [|discriminate].
    rewrite (IHv _ _ g E3); [|lia].
    destruct (skip_ws t1) as [|c3 t2]; [discriminate|].
    destruct (Ascii.eqb c3 ","); [|exact H].
    destruct (parse_members f t2) as [x'|] eqn:E5; [|discriminate].
    rewrite (IHm _ _ g E5); [exact H|lia].
Qed.

End Extension.

Lemma parse_value_ext f s v t r :
  parse_value f s = Some (v, t) -> nondigit_head r = true ->
  parse_value f (s +:+ r) = Some (v, t +:+ r).
Proof. intros H Hr. apply (proj1 (parse_ext f)); auto. Qed.

Lemma parse_value_mono f g s x :
  parse_value f s = Some x -> (f <= g)%nat -> parse_value g s = Some x.
Proof. apply (proj1 (parse_mono f)). Qed.

(** A value never starts with a closing bracket. *)
Lemma value_start f s x :
  parse_value f s = Some x ->
  exists c s1, skip_ws s = String c s1 /\ Ascii.eqb c "]" = false.
Proof.
  destruct f as [|f]; [discriminate|]. simpl.
  destruct (skip_ws s) as [|c s1]; [discriminate|].
  intros H. exists c, s1. split; [reflexivity|].
  destruct (Ascii.eqb c "]") eqn:E; [|reflexivity].
  apply Ascii.eqb_eq in E. subst c. discriminate H.
Qed.

Lemma length_join_cons s ss :
  (String.length s <= String.length (join (s :: ss)))%nat.
Proof.
  destruct ss; simpl; [lia|]. rewrite length_append. lia.
Qed.

(** The elements of an array, each a text that decodes with the fuel of
    its own length, decode in sequence up to the closing bracket. *)
Lemma parse_elems_join ss : forall vs f r,
  Forall2 (fun s v => exists t, parse_value (fuel_for s) s = Some (v, t)
                                /\ skip_ws t = EmptyString) ss vs ->
  ss <> [] ->
  (2 * String.length (join ss) + 3 <= f)%nat ->
  parse_elems f (join ss +:+ String "]" r) = Some (vs, r).
Proof.
  induction ss as [|s rest IH]; intros vs f r HF Hne Hf; [congruence|].
  inversion HF as [|? v ? vs' (t & Hv & Ht) HF']; subst.
  destruct f as [|f]; [lia|].
  assert (Hs : (fuel_for s <= f)%nat).
  { pose proof (length_join_cons s rest). unfold fuel_for. lia. }
  destruct rest as [|s2 rest].
  - inversion HF'; subst. simpl join. simpl parse_elems.
    rewrite (parse_value_ext f s v t (String "]" r)
               (parse_value_mono _ _ _ _ Hv Hs) eq_refl).
    rewrite (skip_ws_all _ _ Ht). reflexivity.
  - change (join (s :: s2 :: rest)) with (s +:+ "," +:+ join (s2 :: rest))
      in Hf |- *.
    specialize (IH vs' f r HF').
    remember (join (s2 :: rest)) as J eqn:HJ. clear HJ.
    rewrite !length_append in Hf. simpl String.length in Hf.
    rewrite !append_assoc. simpl parse_elems.
    rewrite (parse_value_ext f s v t ("," +:+ J +:+ String "]" r)
               (parse_value_mono _ _ _ _ Hv Hs) eq_refl).
    rewrite (skip_ws_all _ _ Ht). str.
    rewrite IH; [reflexivity|discriminate|lia].
Qed.

Lemma parse_value_array ss vs f :
  Forall2 (fun s v => exists t, parse_value (fuel_for s) s = Some (v, t)
                                /\ skip_ws t = EmptyString) ss vs ->
  (2 * String.length (join ss) + 4 <= f)%nat ->
  parse_value f (String "[" (join ss +:+ "]")) = Some (VSlice vs, EmptyString).
Proof.
  intros HF Hf. destruct f as [|f]; [lia|].
  destruct ss as [|s rest].
  - inversion HF; subst. reflexivity.
  - inversion HF as [|? v ? vs' (t & Hv & Ht) _]; subst.
    destruct (value_start _ _ _ Hv) as (c & s1 & Hc & Hnb).
    assert (Hsk : exists tl, skip_ws (join (s :: rest) +:+ "]") = String c tl).
    { destruct rest; simpl join.
      - eexists. apply skip_ws_app, Hc.
      - rewrite !append_assoc. eexists. apply skip_ws_app, Hc. }
    destruct Hsk as (tl & Hsk).
    pose proof (parse_elems_join (s :: rest) (v :: vs') f EmptyString HF) as He.
    remember (join (s :: rest)) as J eqn:HJ. clear HJ.
    simpl parse_value.
    change (skip_ws (String "[" (J +:+ "]"))) with (String "[" (J +:+ "]")).
    cbv iota beta.
    change (Ascii.eqb "[" "n") with false.
    change (Ascii.eqb "[" "t") with false.
    change (Ascii.eqb "[" "f") with false.
    change (Ascii.eqb "[" dquote) with false.
    change (Ascii.eqb "[" "[") with true.
    cbv iota beta.
    rewrite Hsk, Hnb, He; [reflexivity|discriminate|lia].
Qed.

(** The decoder satisfies the array production. *)
Lemma parse_array_production : array_production parse.
Proof.
  intros ss vs HF.
  assert (HF' : Forall2 (fun s v => exists t,
              parse_value (fuel_for s) s = Some (v, t)
              /\ skip_ws t = EmptyString) ss vs).
  { eapply Forall2_impl; [exact HF|]. intros s v. unfold parse.
    destruct (parse_value (fuel_for s) s) as [[v' t]|]; [|discriminate].
    destruct (skip_ws t) eqn:E; [|discriminate].
    intros [= ->]. eauto. }
  unfold parse.
  change ("[" +:+ join ss +:+ "]") with (String "[" (join ss +:+ "]")).
  rewrite (parse_value_array ss vs _ HF'); [reflexivity|].
  unfold fuel_for. simpl String.length. rewrite length_append.
  simpl String.length. lia.
Qed.

End JsonFacts.

(** ** The array node *)

Section ArrayFacts.
Import Builder.

Variable Null : Jsonable.

(** The loop of [ToJson] writes the element texts separated by commas:
    the comma is left out exactly after the last element. *)
Lemma ToJson_loop_join items : forall i str,
  0 <= i ->
  ToJson_loop Null (i + Z.of_nat (length items)) i items str
  = str +:+ Json.join (map (item_json Null) items).
Proof.
  induction items as [|item rest IH]; intros i str Hi.
  - simpl. symmetry. apply append_nil_r.
  - cbn [ToJson_loop length map].
    replace (i + Z.of_nat (S (length rest)))
      with ((i + 1) + Z.of_nat (length rest)) by lia.
    rewrite IH by lia.
    destruct rest as [|item2 rest].
    + rewrite bool_decide_eq_false_2 by (simpl; lia).
      simpl. rewrite append_nil_r. reflexivity.
    + rewrite bool_decide_eq_true_2 by (simpl length; lia).
      change (Json.join (map (item_json Null) (item :: item2 :: rest)))
        with (item_json Null item +:+ "," +:+
              Json.join (map (item_json Null) (item2 :: rest))).
      rewrite !append_assoc. reflexivity.
Qed.

Lemma arrayField_ToJson_join (s : arrayField) :
  arrayField_ToJson Null s
  = "[" +:+ Json.join (map (item_json Null) (values s)) +:+ "]".
Proof.
  unfold arrayField_ToJson.
  pose proof (ToJson_loop_join (values s) 0 "[" (Z.le_refl 0)) as H.
  rewrite Z.add_0_l in H. rewrite H.
  rewrite append_assoc. reflexivity.
Qed.

Lemma arrayField_reparses_gen decode (s : arrayField) :
  Json.array_production decode ->
  reparses decode Null ->
  Forall (fun item => forall j, item = Some j -> reparses decode j)
         (values s) ->
  decode (arrayField_ToJson Null s) = Some (arrayField_Raw Null s).
Proof.
  intros Hprod HNull Hitems.
  rewrite arrayField_ToJson_join. unfold arrayField_Raw.
  apply Hprod.
  induction Hitems as [|item rest Hitem _ IH]; simpl; constructor; [|exact IH].
  destruct item as [j|]; simpl; [apply (Hitem j eq_refl)|exact HNull].
Qed.

(** [IsEmpty] of an array whose elements are non-nil and do not panic:
    the conjunction of the [IsEmpty] of the elements. *)
Lemma IsEmpty_loop_all (vs : list (option Jsonable)) (bs : list bool) :
  Forall2 (fun item b => exists j, item = Some j /\ IsEmpty j = Ok b) vs bs ->
  IsEmpty_loop vs = Ok (forallb id bs).
Proof.
  induction 1 as [|item b vs bs (j & -> & Hb) _ IH]; simpl; [reflexivity|].
  rewrite Hb. destruct b; [exact IH|reflexivity].
Qed.

Lemma arrayField_IsEmpty_all (s : arrayField) (bs : list bool) :
  Forall2 (fun item b => exists j, item = Some j /\ IsEmpty j = Ok b)
          (values s) bs ->
  arrayField_IsEmpty s = Ok (forallb id bs).
Proof.
  intros HF. unfold arrayField_IsEmpty.
  destruct (Nat.eqb_spec (length (values s)) 0) as [Hlen|_].
  - apply length_zero_iff_nil in Hlen. rewrite Hlen in HF.
    inversion HF; subst. reflexivity.
  - apply IsEmpty_loop_all, HF.
Qed.

(** A nil element that the loop reaches makes [IsEmpty] panic. *)
Lemma IsEmpty_loop_nil (pre post : list (option Jsonable)) :
  Forall (fun item => exists j, item = Some j /\ IsEmpty j = Ok true) pre ->
  IsEmpty_loop (pre ++ None :: post) = Panic.
Proof.
  induction 1 as [|item pre (j & -> & Hj) _ IH]; simpl; [reflexivity|].
  rewrite Hj. exact IH.
Qed.

End ArrayFacts.

(** C7.  For every array node whose elements re-parse (a nil element
    counts as the Null node, which re-parses), decoding the text of
    [ToJson()] yields the value of [Raw()], for every decoder that follows
    the array production of the JSON grammar.  The conclusion is the
    property itself for the array as a node, so it holds for arrays of
    arrays. *)
Theorem arrayField_ToJson_reparses
    (decode : string -> option GoValue) (Null : Builder.Jsonable)
    (s : Builder.arrayField) :
  Json.array_production decode ->
  reparses decode Null ->
  Forall (fun item => forall j, item = Some j -> reparses decode j)
         (Builder.values s) ->
  decode (Builder.arrayField_ToJson Null s)
  = Some (Builder.arrayField_Raw Null s)
  /\ reparses decode (Builder.arrayField_Jsonable Null s)
  /\ Builder.arrayField_Raw Null s
     = VSlice (map (fun item => match item with
                                | Some j => Builder.Raw j
                                | None => Builder.Raw Null
                                end) (Builder.values s)).
Proof.
  intros Hprod HNull Hitems.
  pose proof (arrayField_reparses_gen Null decode s Hprod HNull Hitems) as H.
  split; [exact H|]. split; [exact H|reflexivity].
Qed.

(** C7, at [null, 7, ["a", null]] with the decoder of this file. *)
Lemma arrayField_ToJson_reparses_witness :
  let seven := Builder.mkJsonable (Ok false) "7" (VNumber 7) in
  let a := Builder.mkJsonable (Ok false) (String Json.dquote (String "a" (String Json.dquote EmptyString))) (VString "a") in
  let inner := Builder.Array [Some a; None] in
  let outer := Builder.Array
    [None; Some seven; Some (Builder.arrayField_Jsonable Builder.NullNode inner)] in
  Builder.arrayField_ToJson Builder.NullNode outer
  = "[null,7,[" +:+ Builder.ToJson a +:+ ",null]]"
  /\ Json.parse (Builder.arrayField_ToJson Builder.NullNode outer)
     = Some (VSlice [VNil; VNumber 7; VSlice [VString "a"; VNil]]).
Proof.
  intros seven a inner outer. split; [reflexivity|].
  destruct (arrayField_ToJson_reparses Json.parse Builder.NullNode outer)
    as (H & _ & _).
  - exact JsonFacts.parse_array_production.
  - reflexivity.
  - repeat constructor; intros j [= <-]; reflexivity.
  - exact H.
Defined.

(** C8.  [IsEmpty()] of the array made of one nil element panics on the
    method call on the nil interface, and so does an array whose nil
    element follows an empty one; [ToJson()] and [Raw()] of the same
    arrays treat the nil element as the Null node. *)
Theorem arrayField_IsEmpty_nil_element :
  Builder.arrayField_IsEmpty (Builder.Array [None]) = Panic
  /\ Builder.arrayField_IsEmpty
       (Builder.Array [Some Builder.NullNode; None]) = Panic
  /\ Builder.arrayField_ToJson Builder.NullNode (Builder.Array [None])
     = "[null]"
  /\ Builder.arrayField_Raw Builder.NullNode (Builder.Array [None])
     = VSlice [VNil].
Proof. repeat split. Qed.

(** ** The HTTP connector *)

Import Connectors.

Section ApiFacts.
Import Api.

(** With the background context an acquisition never fails. *)
Lemma Acquire_background (s : Semaphore) (now : Time) :
  Acquire s ctx now
  = match sem_free s with
    | Some t => Acquired (Z.max now t)
    | None => AcquireBlocks
    end.
Proof. unfold Acquire, ctx. destruct (sem_free s); reflexivity. Qed.

Lemma Acquire_background_no_error (s : Semaphore) (now : Time) e t :
  Acquire s ctx now <> AcquireErr e t.
Proof. rewrite Acquire_background. destruct (sem_free s); discriminate. Qed.

Lemma Acquire_background_later (s : Semaphore) (now t : Time) :
  Acquire s ctx now = Acquired t -> now <= t.
Proof.
  rewrite Acquire_background. destruct (sem_free s); [|discriminate].
  intros [= <-]. lia.
Qed.

Variable w : World.
Variable api : apiConnector.
Variable sc : Scope.

Let cfg := api_cfg api.

(** The request that [get] builds, when [http.NewRequest] accepts it. *)
Lemma NewRequest_fields method url body req :
  NewRequest w method url body = inr req ->
  req_Method req = (if String.eqb method EmptyString then "GET" else method)
  /\ req_URL req = url /\ req_Body req = body
  /\ req_Header req = ∅.
Proof.
  unfold NewRequest. destruct (request_host w method url); [discriminate|].
  intros [= <-]. auto.
Qed.

(** The values under a name after [Add]. *)
Lemma Header_add_lookup (h : Header) (k v name : string) :
  default [] (Header_add h k v !! name)
  = default [] (h !! name)
    ++ (if String.eqb (CanonicalMIMEHeaderKey k) name then [v] else []).
Proof.
  unfold Header_add.
  destruct (String.eqb_spec (CanonicalMIMEHeaderKey k) name) as [->|Hne].
  - rewrite lookup_insert_eq. reflexivity.
  - rewrite lookup_insert_ne by exact Hne. rewrite app_nil_r. reflexivity.
Qed.

Lemma fold_Header_Add hs : forall req,
  let req' := fold_left Header_Add hs req in
  req_Method req' = req_Method req /\ req_URL req' = req_URL req
  /\ req_Body req' = req_Body req /\ req_Host req' = req_Host req
  /\ (forall name,
        default [] (req_Header req' !! name)
        = default [] (req_Header req !! name)
          ++ map snd (List.filter
                        (fun kv => String.eqb (CanonicalMIMEHeaderKey kv.1)
                                              name) hs)).
Proof.
  induction hs as [|kv hs IH]; intros req; cbn [fold_left].
  - repeat (split; [reflexivity|]). intros name. simpl.
    rewrite app_nil_r. reflexivity.
  - destruct (IH (Header_Add req kv)) as (-> & -> & -> & -> & Hh).
    repeat (split; [reflexivity|]). intros name. rewrite Hh.
    cbn [Header_Add req_Header List.filter]. rewrite Header_add_lookup.
    rewrite <- app_assoc. f_equal.
    destruct (String.eqb (CanonicalMIMEHeaderKey kv.1) name); reflexivity.
Qed.

(** The three ways through lines 104-120. *)
Lemma proxy_setup_cases client st :
  (Proxy cfg = None /\ proxy_setup w cfg sc client st = ProxyDone st [])
  \/ (exists p e, Proxy cfg = Some p
        /\ url_Parse w (Format w (Server p) sc) = inl e
        /\ proxy_setup w cfg sc client st
           = ProxyFailed [EProxyParse (Format w (Server p) sc)])
  \/ (exists p u u' cred, Proxy cfg = Some p
        /\ url_Parse w (Format w (Server p) sc) = inr u
        /\ url_text u' = url_text u
        /\ (cred = []
            \/ cred = [EUserPassword (Format w (Username p) sc)
                                     (Format w (Password p) sc)]
            \/ cred = [EUser (Format w (Username p) sc)])
        /\ proxy_setup w cfg sc client st
           = ProxyDone (set_Transport client (ProxyTransport u') st)
               (EProxyParse (Format w (Server p) sc)
                  :: cred ++ [ESetTransport client (ProxyTransport u')])).
Proof.
  unfold proxy_setup. destruct (Proxy cfg) as [p|]; [|left; auto].
  right. destruct (url_Parse w (Format w (Server p) sc)) as [e|u] eqn:E.
  - left. eauto.
  - right. exists p, u.
    destruct (negb (String.eqb (Username p) EmptyString));
      [destruct (negb (String.eqb (Password p) EmptyString))|];
      eexists _, _; (split; [reflexivity|]); (split; [exact E|]);
      (split; [|split; [|reflexivity]]); simpl; auto.
Qed.

Lemma sync_trace_app (a b : list Event) :
  sync_trace (a ++ b) = sync_trace a ++ sync_trace b.
Proof. apply omap_app. Qed.

Lemma sync_trace_cons (e : Event) (tr : list Event) :
  sync_trace (e :: tr)
  = match sync_view e with
    | Some s => s :: sync_trace tr
    | None => sync_trace tr
    end.
Proof. reflexivity. Qed.

Lemma sync_trace_headers (hs : list (string * string)) :
  sync_trace (map (fun kv => EHeaderAdd kv.1 kv.2) hs) = [].
Proof. induction hs; simpl; auto. Qed.

Lemma sync_trace_proxy client st st' tr :
  proxy_setup w cfg sc client st = ProxyDone st' tr -> sync_trace tr = [].
Proof.
  destruct (proxy_setup_cases client st)
    as [(_ & ->)|[(p & e & _ & _ & ->)|(p & u & u' & cred & _ & _ & _ & Hc & ->)]];
    intros [= <- <-]; [reflexivity|].
  destruct Hc as [->|[->| ->]]; reflexivity.
Qed.

Lemma sync_trace_proxy_failed client st tr :
  proxy_setup w cfg sc client st = ProxyFailed tr -> sync_trace tr = [].
Proof.
  destruct (proxy_setup_cases client st)
    as [(_ & ->)|[(p & e & _ & _ & ->)|(p & u & u' & cred & _ & _ & _ & Hc & ->)]];
    intros [= <-]; reflexivity.
Qed.

End ApiFacts.

Ltac sync_trace Hp :=
  unfold Api.leave, Api.stuck; cbn [Api.effects];
  repeat (rewrite ?sync_trace_app, ?sync_trace_cons, ?sync_trace_headers;
          cbn [Api.sync_view]);
  rewrite ?Hp; try reflexivity.

(** C6, amended.  In every fetch the slot of the global pool is acquired
    first; the slot of the host pool is acquired after it, and only when a
    limiter exists for the host of the request; the request is issued after
    these acquisitions; and on every return each acquired slot is released
    exactly once, the host slot before the global one.  A fetch that never
    returns is blocked in an acquisition. *)
Theorem get_pools_bracket (w : Api.World) (api : Api.apiConnector)
    (sc : Scope) (now : Time) (st : Store) :
  let r := Api.get w api sc now st in
  let G := GlobalPool in
  let H := HostPool in
  match Api.outcome r with
  | Api.Returned _ _ _ =>
      Api.sync_trace (Api.effects r) = []
      \/ Api.sync_trace (Api.effects r) = [Api.SAcquire G; Api.SRelease G]
      \/ (exists host, Api.HostLimiter w host = None
           /\ Api.sync_trace (Api.effects r)
              = [Api.SAcquire G; Api.SDo host; Api.SRelease G])
      \/ (exists host hl, Api.HostLimiter w host = Some hl
           /\ Api.sync_trace (Api.effects r)
              = [Api.SAcquire G; Api.SAcquire (H host); Api.SDo host;
                 Api.SRelease (H host); Api.SRelease G])
  | Api.Blocks =>
      Api.sync_trace (Api.effects r) = []
      \/ Api.sync_trace (Api.effects r) = [Api.SAcquire G]
  end.
Proof.
  intros r G H. subst r. unfold Api.get, Api.get_from_headers.
  destruct (String.eqb _ _); [left; reflexivity|].
  destruct (Acquire (Api.sem w) ctx now) as [t1|e t1|];
    [|left; reflexivity|left; reflexivity].
  destruct (Api.NewRequest w _ _ _) as [e|req] eqn:Hreq;
    [right; left; reflexivity|].
  match goal with
  | |- context [Api.proxy_setup w ?c sc ?cl st] =>
      destruct (Api.proxy_setup w c sc cl st) as [ptr|st' ptr] eqn:Hp
  end.
  { apply sync_trace_proxy_failed in Hp. right; left.
    sync_trace Hp. }
  apply sync_trace_proxy in Hp.
  destruct (fold_Header_Add
              (map (fun kv => (Api.Format w kv.1 sc, Api.Format w kv.2 sc))
                   (Api.Headers (Api.api_cfg api))) req)
    as (_ & _ & _ & Hhost & _).
  destruct (Api.HostLimiter w _) as [hl|] eqn:Hhl.
  - destruct (Acquire hl ctx t1) as [t2|e t2|].
    + unfold Api.send.
      destruct (Api.client_Do w _ _ _ _ _) as [e|resp];
        [|destruct (resp_Body resp)];
        right; right; right; eexists _, hl; (split; [exact Hhl|]);
        sync_trace Hp; rewrite Hhost; reflexivity.
    + right; left. sync_trace Hp.
    + right. sync_trace Hp.
  - unfold Api.send.
    destruct (Api.client_Do w _ _ _ _ _) as [e|resp];
      [|destruct (resp_Body resp)];
      right; right; left; eexists; (split; [exact Hhl|]);
      sync_trace Hp; rewrite Hhost; reflexivity.
Qed.

(** The paths through [get]: empty URL; [http.NewRequest] fails; the proxy
    fails; with a host limiter: sent, (no failure), blocked; without:
    sent; blocked on the global pool. *)
Ltac get_split w api sc now st :=
  unfold Api.get, Api.get_from_headers;
  destruct (String.eqb (Api.Format w (Api.api_url api) sc) EmptyString)
    eqn:Hurl;
  [| destruct (Acquire (Api.sem w) ctx now) as [t1|e1 t1'|] eqn:Hacq;
     [ destruct (Api.NewRequest w (Api.Method (Api.api_cfg api))
                   (Api.Format w (Api.api_url api) sc)
                   (Api.formattedBody w (Api.api_cfg api) sc))
         as [e|req] eqn:Hreq;
       [| match goal with
          | |- context [Api.proxy_setup w ?c sc ?cl st] =>
              destruct (Api.proxy_setup w c sc cl st) as [ptr|st' ptr] eqn:Hp
          end;
          [| destruct (Api.HostLimiter w _) as [hl|] eqn:Hhl;
             [ destruct (Acquire hl ctx t1) as [t2|e2 t2'|] eqn:Hacq2;
               [| exfalso; exact (Acquire_background_no_error _ _ _ _ Hacq2) |]
             |] ] ]
     | exfalso; exact (Acquire_background_no_error _ _ _ _ Hacq)
     | ] ].

Ltac send_split w :=
  unfold Api.send;
  destruct (Api.client_Do w _ _ _ _ _) as [e|resp];
  [|destruct (resp_Body resp)].

Section ApiPaths.
Import Api.

Variable w : World.

Lemma send_final cfg client st req now tr defers :
  final (send w cfg client st req now tr defers) = st.
Proof. send_split w; reflexivity. Qed.

Lemma send_effects cfg client st req now tr defers :
  exists mid,
    effects (send w cfg client st req now tr defers)
    = tr ++ EDo client (st client) req (WithTimeout ctx now (time_limit cfg))
         :: mid ++ defers
    /\ (mid = [ECancel] \/ mid = [ECloseBody; ECancel]).
Proof.
  send_split w; unfold leave; cbn [effects]; rewrite <- app_assoc;
    [exists [ECancel]|exists [ECloseBody; ECancel]..]; auto.
Qed.

Lemma send_Forall (P : Event -> Prop) cfg client st req now tr defers :
  Forall P tr -> Forall P defers -> P ECancel -> P ECloseBody ->
  P (EDo client (st client) req (WithTimeout ctx now (time_limit cfg))) ->
  Forall P (effects (send w cfg client st req now tr defers)).
Proof.
  intros Htr Hd Hc Hb Hdo. send_split w; unfold leave; cbn [effects];
    rewrite !Forall_app; repeat split; auto; repeat constructor; auto.
Qed.

Lemma Forall_headers (P : Event -> Prop) (hs : list (string * string)) :
  (forall k v, P (EHeaderAdd k v)) ->
  Forall P (map (fun kv => EHeaderAdd kv.1 kv.2) hs).
Proof. intros HP. induction hs; simpl; constructor; auto. Qed.

(** The effects of the proxy lines are no acquisition and no request. *)
Lemma proxy_setup_Forall (P : Event -> Prop) cfg sc client st :
  (forall s, P (EProxyParse s)) ->
  (forall u pw, P (EUserPassword u pw)) ->
  (forall u, P (EUser u)) ->
  (forall c t, P (ESetTransport c t)) ->
  match proxy_setup w cfg sc client st with
  | ProxyFailed tr | ProxyDone _ tr => Forall P tr
  end.
Proof.
  intros H1 H2 H3 H4. unfold proxy_setup.
  destruct (Proxy cfg) as [p|]; [|constructor].
  destruct (url_Parse w _); [repeat constructor; auto|].
  destruct (negb _); [destruct (negb _)|]; repeat constructor; auto.
Qed.

End ApiPaths.

Ltac proxy_Forall P :=
  match goal with
  | Hp : Api.proxy_setup ?w ?cfg ?sc ?cl ?st = _ |- _ =>
      let Hpx := fresh "Hpx" in
      assert (Hpx := proxy_setup_Forall w P cfg sc cl st);
      rewrite Hp in Hpx; cbv beta iota in Hpx
  end.

Section ApiSent.
Import Api.

Variable w : World.
Variable api : apiConnector.
Variable sc : Scope.
Variable now : Time.
Variable st : Store.

Let cfg := api_cfg api.
Let client := match api_client api with
              | Some c => c
              | None => GetDefaultClient
              end.

(** The one way through [get] on which a request is sent: the URL is not
    empty, the global slot is acquired, the request is built, the proxy
    lines do not fail, and the host slot, if there is a limiter, is
    acquired. *)
Lemma get_sent c0 tp rq rc :
  In (EDo c0 tp rq rc) (effects (get w api sc now st)) ->
  exists t1 req0 st' ptr t2 hacq hrel mid,
    Format w (api_url api) sc <> EmptyString
    /\ Acquire (sem w) ctx now = Acquired t1
    /\ NewRequest w (Method cfg) (Format w (api_url api) sc)
         (formattedBody w cfg sc) = inr req0
    /\ proxy_setup w cfg sc client st = ProxyDone st' ptr
    /\ rq = fold_left Header_Add (formattedHeaders w cfg sc) req0
    /\ c0 = client /\ tp = st' client
    /\ rc = WithTimeout ctx t2 (time_limit cfg)
    /\ ((HostLimiter w (req_Host rq) = None /\ t2 = t1
         /\ hacq = [] /\ hrel = [])
        \/ (exists hl, HostLimiter w (req_Host rq) = Some hl
              /\ Acquire hl ctx t1 = Acquired t2
              /\ hacq = [EAcquire (HostPool (req_Host rq)) ctx t2]
              /\ hrel = [ERelease (HostPool (req_Host rq))]))
    /\ (mid = [ECancel] \/ mid = [ECloseBody; ECancel])
    /\ effects (get w api sc now st)
       = [EAcquire GlobalPool ctx t1;
          ENewRequest (Method cfg) (Format w (api_url api) sc)
            (formattedBody w cfg sc)]
         ++ map (fun kv => EHeaderAdd kv.1 kv.2) (formattedHeaders w cfg sc)
         ++ ptr ++ hacq ++ EDo c0 tp rq rc :: mid ++ hrel
         ++ [ERelease GlobalPool].
Proof.
  set (P := fun e : Event => is_Do e = false).
  assert (Hno : forall l, Forall P l -> In (EDo c0 tp rq rc) l -> False).
  { intros l Hl Hin. rewrite List.Forall_forall in Hl.
    specialize (Hl _ Hin). discriminate Hl. }
  assert (Hhd : forall hs : list (string * string),
            Forall P (map (fun kv => EHeaderAdd kv.1 kv.2) hs)).
  { intros hs. apply Forall_headers. reflexivity. }
  subst cfg client.
  get_split w api sc now st; try proxy_Forall P;
    try (specialize (Hpx (fun _ => eq_refl) (fun _ _ => eq_refl)
                         (fun _ => eq_refl) (fun _ _ => eq_refl))).
  - intros [].
  - intros Hin. exfalso. revert Hin. apply Hno.
    unfold leave; cbn [effects]. repeat constructor.
  - intros Hin. exfalso. revert Hin. apply Hno.
    unfold leave; cbn [effects]. rewrite !Forall_app.
    repeat split; auto; repeat constructor.
  - match goal with
    | |- context [send ?a ?b ?c ?d ?e ?f ?g ?h] =>
        destruct (send_effects a b c d e f g h) as (mid & Heff & Hmid);
        rewrite Heff
    end.
    intros Hin. apply List.in_app_iff in Hin. destruct Hin as [Hin|[Heq|Hin]].
    + exfalso. revert Hin. apply Hno. rewrite !Forall_app.
      repeat split; auto; repeat constructor.
    + injection Heq as <- <- <- <-.
      exists t1, req, st', ptr, t2,
        [EAcquire (HostPool (req_Host
           (fold_left Header_Add
              (formattedHeaders w (api_cfg api) sc) req))) ctx t2],
        [ERelease (HostPool (req_Host
           (fold_left Header_Add
              (formattedHeaders w (api_cfg api) sc) req)))], mid.
      apply String.eqb_neq in Hurl.
      do 8 (split; [first [exact Hurl | reflexivity]|]).
      split; [right; exists hl; auto|].
      split; [exact Hmid|].
      rewrite <- !app_assoc. reflexivity.
    + exfalso. destruct Hmid as [-> | ->]; simpl in Hin;
        intuition discriminate.
  - intros Hin. exfalso. revert Hin. apply Hno.
    unfold stuck; cbn [effects]. rewrite !Forall_app.
    repeat split; auto; repeat constructor.
  - match goal with
    | |- context [send ?a ?b ?c ?d ?e ?f ?g ?h] =>
        destruct (send_effects a b c d e f g h) as (mid & Heff & Hmid);
        rewrite Heff
    end.
    intros Hin. apply List.in_app_iff in Hin. destruct Hin as [Hin|[Heq|Hin]].
    + exfalso. revert Hin. apply Hno. rewrite !Forall_app.
      repeat split; auto; repeat constructor.
    + injection Heq as <- <- <- <-.
      exists t1, req, st', ptr, t1, [], [], mid.
      apply String.eqb_neq in Hurl.
      do 8 (split; [first [exact Hurl | reflexivity]|]).
      split; [left; auto|].
      split; [exact Hmid|].
      rewrite <- !app_assoc. reflexivity.
    + exfalso. destruct Hmid as [-> | ->]; simpl in Hin;
        intuition discriminate.
  - intros Hin. exfalso. revert Hin. apply Hno.
    unfold stuck; cbn [effects]. repeat constructor.
Qed.

(** The body of the request is the expansion of the configured body. *)
Lemma formattedBody_expanded :
  expanded_body w cfg sc (formattedBody w cfg sc).
Proof.
  unfold expanded_body, formattedBody.
  destruct (JsonRawBody cfg) as [raw|]; [|reflexivity].
  destruct (decide (raw = EmptyString)) as [->|Hne]; [reflexivity|].
  destruct raw; [congruence|reflexivity].
Qed.

(** The values that the added headers leave under a name. *)
Lemma formattedHeaders_values (name : string) :
  map snd (List.filter
             (fun kv => String.eqb (CanonicalMIMEHeaderKey kv.1) name)
             (formattedHeaders w cfg sc))
  = expanded_values w cfg sc name.
Proof.
  unfold expanded_values, formattedHeaders.
  induction (Headers cfg) as [|kv hs IH]; [reflexivity|].
  cbn [map List.filter fst snd].
  destruct (String.eqb _ name); cbn [map snd]; rewrite IH; reflexivity.
Qed.

Lemma formattedHeaders_In (k v : string) :
  In (k, v) (Headers cfg) ->
  In (EHeaderAdd (Format w k sc) (Format w v sc))
     (map (fun kv => EHeaderAdd kv.1 kv.2) (formattedHeaders w cfg sc)).
Proof.
  intros Hin. unfold formattedHeaders. rewrite map_map.
  apply List.in_map_iff. exists (k, v). auto.
Qed.

End ApiSent.

Section ApiFields.
Import Api.

Variable w : World.
Variable api : apiConnector.
Variable sc : Scope.

Lemma passes_expanded_headers :
  Forall (passes_expanded w api sc)
    (map (fun kv => EHeaderAdd kv.1 kv.2)
         (formattedHeaders w (api_cfg api) sc)).
Proof.
  apply List.Forall_forall. intros e He. apply List.in_map_iff in He.
  destruct He as ([k v] & <- & Hin). unfold formattedHeaders in Hin.
  apply List.in_map_iff in Hin. destruct Hin as ([k0 v0] & [= <- <-] & Hin).
  exists k0, v0. auto.
Qed.

Lemma passes_expanded_proxy client st :
  match proxy_setup w (api_cfg api) sc client st with
  | ProxyFailed tr | ProxyDone _ tr => Forall (passes_expanded w api sc) tr
  end.
Proof.
  destruct (proxy_setup_cases w api sc client st)
    as [(_ & ->)|[(p & e & Hp & _ & ->)
                 |(p & u & u' & cred & Hp & _ & _ & Hc & ->)]].
  - constructor.
  - repeat constructor. exists p. auto.
  - constructor; [exists p; auto|]. apply Forall_app. split.
    + destruct Hc as [->|[->| ->]]; repeat constructor; exists p; auto.
    + repeat constructor.
Qed.

Lemma passes_expanded_send cfg' client st req now tr defers :
  Forall (passes_expanded w api sc) tr ->
  Forall (passes_expanded w api sc) defers ->
  passes_expanded w api sc (EDo client (st client) req
     (WithTimeout ctx now (time_limit cfg'))) ->
  Forall (passes_expanded w api sc)
         (effects (send w cfg' client st req now tr defers)).
Proof.
  intros Htr Hd Hdo. send_split w; unfold leave; cbn [effects];
    rewrite !Forall_app; repeat split; auto; repeat constructor; auto.
Qed.

(** The request that is sent, against the descriptor. *)
Lemma passes_expanded_request req0 c t rc :
  NewRequest w (Method (api_cfg api)) (Format w (api_url api) sc)
    (formattedBody w (api_cfg api) sc) = inr req0 ->
  passes_expanded w api sc
    (EDo c t (fold_left Header_Add
                (formattedHeaders w (api_cfg api) sc) req0) rc).
Proof.
  intros Hreq. apply NewRequest_fields in Hreq.
  destruct Hreq as (Hm & Hu & Hb & Hhd).
  destruct (fold_Header_Add (formattedHeaders w (api_cfg api) sc) req0)
    as (Hm' & Hu' & Hb' & _ & Hhd').
  cbn [passes_expanded]. rewrite Hm', Hu', Hb', Hm, Hu, Hb.
  split; [|split; [reflexivity|split]].
  - destruct (decide (Method (api_cfg api) = EmptyString)) as [->|Hne];
      [reflexivity|].
    apply String.eqb_neq in Hne. rewrite Hne. reflexivity.
  - apply formattedBody_expanded.
  - intros name. rewrite Hhd', Hhd, lookup_empty. cbn [default app].
    apply formattedHeaders_values.
Qed.

End ApiFields.

(** C4, amended.  Every effect of a fetch passes on the expansion of the
    configured field, except for the method: [http.NewRequest] gets the
    method as it is configured and the expansions of the URL and of the
    body; [Header.Add] gets the expansions of the name and of the value of
    a configured header; [url.Parse], [url.UserPassword] and [url.User]
    get the expansions of the proxy server, user name and password; and
    the request that is sent has the configured method (GET when that is
    empty), the expanded URL and body, and under every canonical header
    name the expanded values of the configured headers whose expanded name
    has this canonical form.  Whenever a request is sent, all of this has
    happened before: the request was built, every configured header was
    added, and a configured proxy was parsed and given its credentials. *)
Theorem get_passes_expanded (w : Api.World) (api : Api.apiConnector)
    (sc : Scope) (now : Time) (st : Store) :
  let r := Api.get w api sc now st in
  let cfg := Api.api_cfg api in
  let expand (s : string) := Api.Format w s sc in
  Forall (Api.passes_expanded w api sc) (Api.effects r)
  /\ (forall c t req rc, In (EDo c t req rc) (Api.effects r) ->
        exists before after,
          Api.effects r = before ++ EDo c t req rc :: after
          /\ In (ENewRequest (Api.Method cfg) (expand (Api.api_url api))
                   (req_Body req)) before
          /\ (forall k v, In (k, v) (Api.Headers cfg) ->
                In (EHeaderAdd (expand k) (expand v)) before)
          /\ (forall p, Api.Proxy cfg = Some p ->
                In (EProxyParse (expand (Server p))) before
                /\ (Username p <> EmptyString ->
                    if decide (Password p = EmptyString)
                    then In (EUser (expand (Username p))) before
                    else In (EUserPassword (expand (Username p))
                               (expand (Password p))) before))).
Proof.
  intros r cfg expand. subst r cfg expand. split.
  - pose proof (passes_expanded_headers w api sc) as Hh.
    pose proof (formattedBody_expanded w api sc) as Hb.
    get_split w api sc now st;
      try (match type of Hp with
           | Api.proxy_setup _ _ _ ?cl _ = _ =>
               pose proof (passes_expanded_proxy w api sc cl st) as Hpx;
               rewrite Hp in Hpx
           end).
    + constructor.
    + repeat constructor. exact Hb.
    + unfold Api.leave; cbn [Api.effects]. rewrite !Forall_app.
      repeat split; auto; repeat constructor; auto.
    + apply passes_expanded_send;
        [| repeat constructor | apply (passes_expanded_request _ _ _ _ _ _ _ Hreq)].
      rewrite !Forall_app. repeat split; auto; repeat constructor; auto.
    + unfold Api.stuck; cbn [Api.effects]. rewrite !Forall_app.
      repeat split; auto; repeat constructor; auto.
    + apply passes_expanded_send;
        [| repeat constructor | apply (passes_expanded_request _ _ _ _ _ _ _ Hreq)].
      rewrite !Forall_app. repeat split; auto; repeat constructor; auto.
    + repeat constructor.
  - intros c t req rc Hin.
    destruct (get_sent w api sc now st c t req rc Hin)
      as (t1 & req0 & st' & ptr & t2 & hacq & hrel & mid & _ & _ & Hreq
          & Hps & Hrq & _ & _ & _ & _ & _ & Heff).
    exists ([EAcquire GlobalPool ctx t1;
             ENewRequest (Api.Method (Api.api_cfg api))
               (Api.Format w (Api.api_url api) sc)
               (Api.formattedBody w (Api.api_cfg api) sc)]
            ++ map (fun kv => EHeaderAdd kv.1 kv.2)
                 (Api.formattedHeaders w (Api.api_cfg api) sc)
            ++ ptr ++ hacq),
           (mid ++ hrel ++ [ERelease GlobalPool]).
    split; [rewrite Heff, <- !app_assoc; reflexivity|].
    assert (Hbody : req_Body req
                    = Api.formattedBody w (Api.api_cfg api) sc).
    { apply NewRequest_fields in Hreq. destruct Hreq as (_ & _ & Hb & _).
      destruct (fold_Header_Add
                  (Api.formattedHeaders w (Api.api_cfg api) sc) req0)
        as (_ & _ & Hb' & _).
      rewrite Hrq, Hb'. exact Hb. }
    rewrite Hbody. split; [|split].
    + right. left. reflexivity.
    + intros k v Hkv. rewrite !List.in_app_iff. right. left.
      apply formattedHeaders_In. exact Hkv.
    + intros p Hproxy.
      destruct (proxy_setup_cases w api sc
                  (match Api.api_client api with
                   | Some c' => c'
                   | None => Api.GetDefaultClient
                   end) st)
        as [(Hn & _)|[(p' & e & _ & _ & Hps')
                     |(p' & u & u' & cred & Hp' & _ & _ & _ & Hps')]];
        [congruence|congruence|].
      assert (p' = p) as -> by congruence.
      rewrite Hps' in Hps. injection Hps as _ <-.
      revert Hps'. unfold Api.proxy_setup. rewrite Hproxy.
      destruct (Api.url_Parse w _) as [e|u0]; [discriminate|].
      destruct (String.eqb_spec (Username p) EmptyString) as [Hu|Hu];
        cbn [negb].
      * intros [= _ <-]. split; [|intros Hne; destruct (Hne Hu)].
        rewrite !List.in_app_iff. right. right. left. left. reflexivity.
      * destruct (String.eqb_spec (Password p) EmptyString) as [Hpw|Hpw];
          cbn [negb]; intros [= _ <-];
          (split; [rewrite !List.in_app_iff; right; right; left; left;
                   reflexivity|]); intros _;
          destruct (decide (Password p = EmptyString)); try congruence;
          rewrite !List.in_app_iff; right; right; left; right; left;
          reflexivity.
Qed.

(** C4, as stated, fails for the method: with the method [{INDEX}] at
    index 3 the expansion is [3], and the request is built with the
    unexpanded [{INDEX}], which [http.NewRequest] rejects; the URL of the
    same request is expanded. *)
Lemma get_method_not_expanded :
  let w := Examples.world 0 in
  let api := Api.NewAPI Examples.items_url
               (Examples.descriptor "{INDEX}" 0 None) None in
  let r := Api.get w api Examples.scope3 0 Examples.store0 in
  Api.Format w "{INDEX}" Examples.scope3 = "3"
  /\ ~ In (ENewRequest (Api.Format w "{INDEX}" Examples.scope3)
                       "http://example.com/items/3" EmptyString)
          (Api.effects r)
  /\ Api.effects r
     = [EAcquire GlobalPool Background 0;
        ENewRequest "{INDEX}" "http://example.com/items/3" EmptyString;
        ERelease GlobalPool]
  /\ Api.outcome r
     = Api.Returned None None (Some (Failure "net/http: invalid method")).
Proof.
  vm_compute. repeat split.
  intros [H|[H|[H|[]]]]; discriminate H.
Qed.

(** C4, amended, at a request with an empty method and the header
    [x-item: {INDEX}] at index 3: the request is sent as a GET of the
    expanded URL, with the expanded value under the canonical name. *)
Lemma get_passes_expanded_witness :
  let w := Examples.world 0 in
  let cfg := {| Api.Method := EmptyString;
                Api.Headers := [("x-item", "{INDEX}")];
                Api.Timeout := 0;
                Api.Body := "item {INDEX}";
                Api.JsonRawBody := None;
                Api.Proxy := None |} in
  let api := Api.NewAPI Examples.items_url cfg None in
  let r := Api.get w api Examples.scope3 0 Examples.store0 in
  Forall (Api.passes_expanded w api Examples.scope3) (Api.effects r)
  /\ (exists c t req rc,
        In (EDo c t req rc) (Api.effects r)
        /\ req_Method req = "GET"
        /\ req_URL req = "http://example.com/items/3"
        /\ req_Body req = "item 3"
        /\ req_Header req !! "X-Item" = Some ["3"]
        /\ In (EHeaderAdd "x-item" "3") (Api.effects r)).
Proof.
  intros w cfg api r.
  destruct (get_passes_expanded w api Examples.scope3 0 Examples.store0)
    as (Hall & Hsent).
  split; [exact Hall|].
  eexists _, _, _, _.
  split; [do 3 right; left; reflexivity|].
  repeat (split; [reflexivity|]).
  do 2 right. left. reflexivity.
Defined.

Section ApiSlots.
Import Api.

Variable w : World.

Lemma acquired_when_free_silent (asked : Time) (q rest : list Event) :
  Forall (fun e => silent e = true) q ->
  acquired_when_free w asked rest ->
  acquired_when_free w asked (q ++ rest).
Proof.
  intros Hq Hrest. induction Hq as [|e q He _ IH]; [exact Hrest|].
  destruct e; try discriminate He; exact IH.
Qed.

Lemma deadline_after_slots_silent (held : option Time) (tt : Time)
    (q rest : list Event) :
  Forall (fun e => silent e = true) q ->
  deadline_after_slots held tt rest ->
  deadline_after_slots held tt (q ++ rest).
Proof.
  intros Hq Hrest. induction Hq as [|e q He _ IH]; [exact Hrest|].
  destruct e; try discriminate He; exact IH.
Qed.

Variable api : apiConnector.
Variable sc : Scope.
Variable now : Time.
Variable st : Store.

Let cfg := api_cfg api.
Let r := get w api sc now st.

(** The effects of a fetch, as far as the slots and the request go: none;
    the wait for a global slot that is never freed; or the acquisition of
    the global slot at the instant it is free, followed, with effects in
    between that are neither acquisitions nor requests, by nothing, by
    the request, or by the acquisition of the host slot at the instant it
    is free and the request.  The deadline of the request is the instant
    of the last acquisition plus the time limit. *)
Lemma get_shape :
  effects r = []
  \/ (sem_free (sem w) = None /\ effects r = [EWait GlobalPool ctx])
  \/ (exists tg q1 tail,
        sem_free (sem w) = Some tg
        /\ Forall (fun e => silent e = true) q1
        /\ effects r = EAcquire GlobalPool ctx (Z.max now tg) :: q1 ++ tail
        /\ (tail = []
            \/ (exists c tp rq q2,
                  Forall (fun e => silent e = true) q2
                  /\ HostLimiter w (req_Host rq) = None
                  /\ tail = EDo c tp rq
                              (WithDeadline (Z.max now tg + time_limit cfg))
                            :: q2)
            \/ (exists c tp rq q2 hl th,
                  Forall (fun e => silent e = true) q2
                  /\ HostLimiter w (req_Host rq) = Some hl
                  /\ sem_free hl = Some th
                  /\ tail = EAcquire (HostPool (req_Host rq)) ctx
                              (Z.max (Z.max now tg) th)
                            :: EDo c tp rq
                                 (WithDeadline (Z.max (Z.max now tg) th
                                                + time_limit cfg))
                            :: q2))).
Proof.
  set (P := fun e : Event => silent e = true).
  assert (Hhd : forall hs : list (string * string),
            Forall P (map (fun kv => EHeaderAdd kv.1 kv.2) hs)).
  { intros hs. apply Forall_headers. reflexivity. }
  assert (Hmid : forall mid defers,
            mid = [ECancel] \/ mid = [ECloseBody; ECancel] ->
            Forall P defers -> Forall P (mid ++ defers)).
  { intros mid defers [-> | ->] Hd; repeat (constructor; [reflexivity|]);
      exact Hd. }
  subst r cfg.
  get_split w api sc now st; try proxy_Forall P;
    try (specialize (Hpx (fun _ => eq_refl) (fun _ _ => eq_refl)
                         (fun _ => eq_refl) (fun _ _ => eq_refl)));
    try (rewrite Acquire_background in Hacq;
         destruct (sem_free (sem w)) as [tg|] eqn:Hfree;
         [injection Hacq as <-|discriminate Hacq]).
  - left. reflexivity.
  - right. right. exists tg, [ENewRequest (Method (api_cfg api))
                                (Format w (api_url api) sc)
                                (formattedBody w (api_cfg api) sc);
                              ERelease GlobalPool], [].
    split; [reflexivity|]. split; [repeat constructor|].
    split; [reflexivity|]. left. reflexivity.
  - right. right.
    exists tg, ((ENewRequest (Method (api_cfg api))
                   (Format w (api_url api) sc)
                   (formattedBody w (api_cfg api) sc)
                 :: map (fun kv => EHeaderAdd kv.1 kv.2)
                      (formattedHeaders w (api_cfg api) sc))
                ++ ptr ++ [ERelease GlobalPool]), [].
    split; [reflexivity|]. split.
    { rewrite !Forall_app. repeat split; auto; repeat constructor; auto. }
    split; [|left; reflexivity].
    unfold leave; cbn [effects]. rewrite app_nil_r, <- !app_assoc.
    reflexivity.
  - rewrite Acquire_background in Hacq2.
    destruct (sem_free hl) as [th|] eqn:Hfree2;
      [injection Hacq2 as <-|discriminate Hacq2].
    match goal with
    | |- context [send ?a ?b ?c ?d ?e ?f ?g ?h] =>
        destruct (send_effects a b c d e f g h) as (mid & Heff & Hm);
        rewrite Heff
    end.
    right. right.
    exists tg, ((ENewRequest (Method (api_cfg api))
                   (Format w (api_url api) sc)
                   (formattedBody w (api_cfg api) sc)
                 :: map (fun kv => EHeaderAdd kv.1 kv.2)
                      (formattedHeaders w (api_cfg api) sc))
                ++ ptr).
    eexists. split; [reflexivity|]. split.
    { rewrite !Forall_app. repeat split; auto; repeat constructor; auto. }
    split; [rewrite <- !app_assoc; reflexivity|].
    right. right. eexists _, _, _, _, hl, th.
    split; [|split; [exact Hhl|split; [exact Hfree2|reflexivity]]].
    apply Hmid; [exact Hm|repeat constructor].
  - right. right.
    exists tg, ((ENewRequest (Method (api_cfg api))
                   (Format w (api_url api) sc)
                   (formattedBody w (api_cfg api) sc)
                 :: map (fun kv => EHeaderAdd kv.1 kv.2)
                      (formattedHeaders w (api_cfg api) sc))
                ++ ptr
                ++ [EWait (HostPool (req_Host
                      (fold_left Header_Add
                         (formattedHeaders w (api_cfg api) sc) req))) ctx]),
           [].
    split; [reflexivity|]. split.
    { rewrite !Forall_app. repeat split; auto; repeat constructor; auto. }
    split; [|left; reflexivity].
    unfold stuck; cbn [effects]. rewrite app_nil_r, <- !app_assoc.
    reflexivity.
  - match goal with
    | |- context [send ?a ?b ?c ?d ?e ?f ?g ?h] =>
        destruct (send_effects a b c d e f g h) as (mid & Heff & Hm);
        rewrite Heff
    end.
    right. right.
    exists tg, ((ENewRequest (Method (api_cfg api))
                   (Format w (api_url api) sc)
                   (formattedBody w (api_cfg api) sc)
                 :: map (fun kv => EHeaderAdd kv.1 kv.2)
                      (formattedHeaders w (api_cfg api) sc))
                ++ ptr).
    eexists. split; [reflexivity|]. split.
    { rewrite !Forall_app. repeat split; auto; repeat constructor; auto. }
    split; [rewrite <- !app_assoc; reflexivity|].
    right. left. eexists _, _, _, _.
    split; [|split; [exact Hhl|reflexivity]].
    apply Hmid; [exact Hm|repeat constructor].
  - right. left. rewrite Acquire_background in Hacq.
    destruct (sem_free (sem w)); [discriminate Hacq|]. auto.
Qed.

(** A fetch waits only in an acquisition on a pool that never frees a
    slot, and then it does not return. *)
Lemma get_waits (p : Pool) (c : Context) :
  In (EWait p c) (effects r) ->
  outcome r = Blocks
  /\ exists s, pool_semaphore w p = Some s /\ sem_free s = None.
Proof.
  set (P := fun e : Event => match e with EWait _ _ => False | _ => True end).
  assert (Hno : forall l, Forall P l -> In (EWait p c) l -> False).
  { intros l Hl Hin. rewrite List.Forall_forall in Hl.
    exact (Hl _ Hin). }
  assert (Hhd : forall hs : list (string * string),
            Forall P (map (fun kv => EHeaderAdd kv.1 kv.2) hs)).
  { intros hs. apply Forall_headers. intros; exact I. }
  subst r cfg.
  get_split w api sc now st; try proxy_Forall P;
    try (specialize (Hpx (fun _ => I) (fun _ _ => I)
                         (fun _ => I) (fun _ _ => I))).
  - intros [].
  - intros Hin. exfalso. revert Hin. apply Hno.
    unfold leave; cbn [effects]. repeat constructor.
  - intros Hin. exfalso. revert Hin. apply Hno.
    unfold leave; cbn [effects]. rewrite !Forall_app.
    repeat split; auto; repeat constructor.
  - intros Hin. exfalso. revert Hin. apply Hno.
    apply send_Forall; try exact I.
    rewrite !Forall_app. repeat split; auto; repeat constructor.
    repeat constructor.
  - unfold stuck; cbn [effects outcome]. intros Hin.
    split; [reflexivity|].
    apply List.in_app_iff in Hin. destruct Hin as [Hin|[[= <- <-]|[]]].
    + exfalso. revert Hin. apply Hno. rewrite !Forall_app.
      repeat split; auto; repeat constructor.
    + exists hl. split; [exact Hhl|].
      rewrite Acquire_background in Hacq2.
      destruct (sem_free hl); [discriminate Hacq2|reflexivity].
  - intros Hin. exfalso. revert Hin. apply Hno.
    apply send_Forall; try exact I.
    rewrite !Forall_app. repeat split; auto; repeat constructor.
    repeat constructor.
  - unfold stuck; cbn [effects outcome]. intros [[= <- <-]|[]].
    split; [reflexivity|]. exists (sem w). split; [reflexivity|].
    rewrite Acquire_background in Hacq.
    destruct (sem_free (sem w)); [discriminate Hacq|reflexivity].
Qed.

(** A fetch sends its request when the URL is not empty, the request is
    accepted, the proxy server parses, and the pools free a slot. *)
Lemma get_sends :
  Format w (api_url api) sc <> EmptyString ->
  sem_free (sem w) <> None ->
  (forall e, request_host w (Method cfg) (Format w (api_url api) sc)
             <> inl e) ->
  (forall p e, Proxy cfg = Some p ->
               url_Parse w (Format w (Server p) sc) <> inl e) ->
  (forall host hl,
     request_host w (Method cfg) (Format w (api_url api) sc) = inr host ->
     HostLimiter w host = Some hl -> sem_free hl <> None) ->
  exists c tp rq rc, In (EDo c tp rq rc) (effects r).
Proof.
  intros Hurl Hfree Hreq Hproxy Hhost. subst r cfg. unfold get.
  apply String.eqb_neq in Hurl. rewrite Hurl.
  rewrite Acquire_background.
  destruct (sem_free (sem w)) as [tg|]; [|congruence].
  unfold NewRequest.
  destruct (request_host w _ _) as [e|host] eqn:Hrh;
    [destruct (Hreq e eq_refl)|].
  unfold get_from_headers.
  match goal with
  | |- context [proxy_setup w ?c sc ?cl st] =>
      destruct (proxy_setup_cases w api sc cl st)
        as [(_ & ->)|[(p & e & Hp & He & _)
                     |(p & u & u' & cred & _ & _ & _ & _ & ->)]]
  end; [|destruct (Hproxy p e Hp He)|];
    match goal with
    | |- context [HostLimiter w (req_Host (fold_left Header_Add ?hs ?rq))] =>
        destruct (fold_Header_Add hs rq) as (_ & _ & _ & Hh & _);
        cbn [req_Host] in Hh; rewrite Hh
    end;
    (destruct (HostLimiter w host) as [hl|] eqn:Hhl;
     [rewrite Acquire_background;
      destruct (sem_free hl) as [th|] eqn:Hth;
      [|destruct (Hhost host hl eq_refl Hhl Hth)]|]);
    match goal with
    | |- context [send ?a ?b ?c ?d ?e ?f ?g ?h] =>
        destruct (send_effects a b c d e f g h) as (mid & -> & _)
    end;
    eexists _, _, _, _; apply List.in_app_iff; right; left; reflexivity.
Qed.

End ApiSlots.

(** C5, amended.  Every acquisition of a fetch, on the global pool and on
    the host pool, is made with the background context, which has no
    deadline: none of them fails; each returns at the instant its pool
    frees a slot, however late that is, and a fetch that waits for a slot
    that is never freed does not return.  The time limit of the fetch
    bounds the request alone: the deadline of the request is the instant
    of the last acquisition before it plus the time limit, so the time
    limit starts to count when the slots are held.  And the request is
    issued however long the acquisitions took: whenever the URL is not
    empty, the request is accepted, the proxy server parses and the pools
    free a slot at some instant. *)
Theorem get_acquires_without_deadline (w : Api.World)
    (api : Api.apiConnector) (sc : Scope) (now : Time) (st : Store) :
  let r := Api.get w api sc now st in
  let cfg := Api.api_cfg api in
  let url := Api.Format w (Api.api_url api) sc in
  Forall Api.acquires_in_background (Api.effects r)
  /\ Forall (Api.deadline_from now (Api.time_limit (Api.api_cfg api)))
            (Api.effects r)
  /\ (forall t, sem_free (Api.sem w) = Some t ->
        Api.Format w (Api.api_url api) sc <> EmptyString ->
        In (EAcquire GlobalPool Background (Z.max now t)) (Api.effects r))
  /\ Api.acquired_when_free w now (Api.effects r)
  /\ Api.deadline_after_slots None (Api.time_limit cfg) (Api.effects r)
  /\ (forall p c, In (EWait p c) (Api.effects r) ->
        Api.outcome r = Api.Blocks
        /\ exists s, Api.pool_semaphore w p = Some s /\ sem_free s = None)
  /\ (url <> EmptyString ->
      sem_free (Api.sem w) <> None ->
      (forall e, Api.request_host w (Api.Method cfg) url <> inl e) ->
      (forall p e, Api.Proxy cfg = Some p ->
                   Api.url_Parse w (Api.Format w (Server p) sc) <> inl e) ->
      (forall host hl,
         Api.request_host w (Api.Method cfg) url = inr host ->
         Api.HostLimiter w host = Some hl -> sem_free hl <> None) ->
      exists c tp rq rc, In (EDo c tp rq rc) (Api.effects r)).
Proof.
  intros r cfg url. subst r cfg url.
  split; [|split; [|split; [|split; [|split; [|split]]]]].
  - get_split w api sc now st; try proxy_Forall Api.acquires_in_background;
      try (apply send_Forall);
      unfold Api.leave, Api.stuck; cbn [Api.effects];
      rewrite ?Forall_app; repeat split;
      try apply Forall_headers; try apply Hpx;
      repeat constructor; simpl; auto.
  - get_split w api sc now st;
      try proxy_Forall (Api.deadline_from now (Api.time_limit (Api.api_cfg api)));
      try (apply send_Forall);
      unfold Api.leave, Api.stuck; cbn [Api.effects];
      rewrite ?Forall_app; repeat split;
      try apply Forall_headers; try apply Hpx;
      repeat constructor; simpl; auto.
    + apply Acquire_background_later in Hacq, Hacq2.
      exists t2. split; [lia|reflexivity].
    + apply Acquire_background_later in Hacq.
      exists t1. split; [lia|reflexivity].
  - intros t Ht Hurl'.
    destruct (get_shape w api sc now st)
      as [Heff|[(Hnone & _)|(tg & q1 & tail & Hfree & _ & Heff & _)]].
    + exfalso. revert Heff. unfold Api.get.
      apply String.eqb_neq in Hurl'. rewrite Hurl'.
      rewrite Acquire_background, Ht.
      destruct (Api.NewRequest w _ _ _); [discriminate|].
      unfold Api.get_from_headers.
      match goal with
      | |- context [Api.proxy_setup w ?c sc ?cl st] =>
          destruct (Api.proxy_setup w c sc cl st)
      end; [discriminate|].
      destruct (Api.HostLimiter w _) as [hl|];
        [destruct (Acquire hl ctx _)|];
        try (match goal with
             | |- context [Api.send ?a ?b ?c ?d ?e ?f ?g ?h] =>
                 destruct (send_effects a b c d e f g h) as (mid & -> & _)
             end);
        unfold Api.leave, Api.stuck; cbn [Api.effects];
        rewrite <- ?app_assoc; discriminate.
    + congruence.
    + rewrite Heff. assert (tg = t) as -> by congruence. left. reflexivity.
  - destruct (get_shape w api sc now st)
      as [->|[(_ & ->)|(tg & q1 & tail & Hfree & Hq1 & -> & Htail)]];
      [exact I|exact I|].
    cbn [Api.acquired_when_free]. split; [reflexivity|]. split.
    { exists (Api.sem w), tg. auto. }
    apply acquired_when_free_silent; [exact Hq1|].
    destruct Htail as [->|[(c & tp & rq & q2 & Hq2 & _ & ->)
                          |(c & tp & rq & q2 & hl & th & Hq2 & Hhl & Hth & ->)]].
    + exact I.
    + cbn [Api.acquired_when_free].
      rewrite <- (app_nil_r q2). apply acquired_when_free_silent; auto.
      exact I.
    + cbn [Api.acquired_when_free]. split; [reflexivity|]. split.
      { exists hl, th. auto. }
      rewrite <- (app_nil_r q2). apply acquired_when_free_silent; auto.
      exact I.
  - destruct (get_shape w api sc now st)
      as [->|[(_ & ->)|(tg & q1 & tail & Hfree & Hq1 & -> & Htail)]];
      [exact I|exact I|].
    cbn [Api.deadline_after_slots].
    apply deadline_after_slots_silent; [exact Hq1|].
    destruct Htail as [->|[(c & tp & rq & q2 & Hq2 & _ & ->)
                          |(c & tp & rq & q2 & hl & th & Hq2 & Hhl & Hth & ->)]].
    + exact I.
    + cbn [Api.deadline_after_slots]. split; [eauto|].
      rewrite <- (app_nil_r q2). apply deadline_after_slots_silent; auto.
      exact I.
    + cbn [Api.deadline_after_slots]. split; [eauto|].
      rewrite <- (app_nil_r q2). apply deadline_after_slots_silent; auto.
      exact I.
  - intros p c. apply get_waits.
  - apply get_sends.
Qed.

(** C5, as stated, fails: with a time limit of one second and a global
    pool whose slot is free only after 100 seconds, the acquisition does
    not return an error when the second has passed; it returns at 100,
    and the request is then issued, with its own deadline at 101. *)
Lemma get_acquire_outlasts_deadline :
  let w := Examples.world 100 in
  let api := Api.NewAPI Examples.items_url
               (Examples.descriptor "GET" 1 None) None in
  let r := Api.get w api Examples.scope3 0 Examples.store0 in
  Api.time_limit (Api.api_cfg api) = 1
  /\ Api.outcome r
     = Api.Returned (Some (resp_Header Examples.ok_response)) (Some "{}") None
  /\ (exists req,
        Api.effects r
        = [EAcquire GlobalPool Background 100;
           ENewRequest "GET" "http://example.com/items/3" EmptyString;
           EHeaderAdd "X-Item" "3";
           EDo DefaultClient NoTransport req (WithDeadline 101);
           ECloseBody; ECancel; ERelease GlobalPool]).
Proof. vm_compute. repeat split. eexists. reflexivity. Qed.

(** C5, amended, in the same world with a host limiter that is free after
    500 seconds: the global slot is acquired at 100, the host slot at 500,
    and the request is issued with its deadline at 501. *)
Lemma get_acquires_without_deadline_witness :
  let w := Examples.world_limited 100 500 in
  let api := Api.NewAPI Examples.items_url
               (Examples.descriptor "GET" 1 None) None in
  let r := Api.get w api Examples.scope3 0 Examples.store0 in
  In (EAcquire GlobalPool Background 100) (Api.effects r)
  /\ Api.sync_trace (Api.effects r)
     = [Api.SAcquire GlobalPool; Api.SAcquire (HostPool "example.com");
        Api.SDo "example.com"; Api.SRelease (HostPool "example.com");
        Api.SRelease GlobalPool]
  /\ Api.acquired_when_free w 0 (Api.effects r)
  /\ Api.deadline_after_slots None 1 (Api.effects r)
  /\ (exists c tp rq,
        In (EDo c tp rq (WithDeadline 501)) (Api.effects r)).
Proof.
  intros w api r.
  destruct (get_acquires_without_deadline w api Examples.scope3 0
              Examples.store0) as (_ & _ & H & Hfree & Hdl & _ & _).
  split; [apply (H 100); [reflexivity|discriminate]|].
  split; [reflexivity|]. split; [exact Hfree|]. split; [exact Hdl|].
  eexists _, _, _. do 4 right. left. reflexivity.
Defined.

(** C6, as stated, fails: for a host without a limiter the request is
    issued with the global slot alone; no host slot is acquired. *)
Lemma get_without_host_slot :
  let w := Examples.world 0 in
  let api := Api.NewAPI Examples.items_url
               (Examples.descriptor "GET" 0 None) None in
  let r := Api.get w api Examples.scope3 0 Examples.store0 in
  Api.HostLimiter w "example.com" = None
  /\ Api.sync_trace (Api.effects r)
     = [Api.SAcquire GlobalPool; Api.SDo "example.com";
        Api.SRelease GlobalPool]
  /\ Api.outcome r
     = Api.Returned (Some (resp_Header Examples.ok_response)) (Some "{}") None.
Proof. vm_compute. auto. Qed.

Section ApiProxy.
Import Api.

Variable w : World.
Variable api : apiConnector.
Variable sc : Scope.
Variable now : Time.
Variable st : Store.

Let r := get w api sc now st.
Let client := match api_client api with
              | Some c => c
              | None => GetDefaultClient
              end.

(** A fetch that reaches the proxy lines has a URL that is not empty, the
    global slot, and a request. *)
Lemma get_reaches_proxy (s : string) :
  In (EProxyParse s) (effects r) ->
  exists t1 req0,
    r = get_from_headers w api sc st t1 req0
          [EAcquire GlobalPool ctx t1;
           ENewRequest (Method (api_cfg api)) (Format w (api_url api) sc)
             (formattedBody w (api_cfg api) sc)]
          [ERelease GlobalPool].
Proof.
  subst r. unfold get.
  destruct (String.eqb _ _); [intros []|].
  destruct (Acquire (sem w) ctx now) as [t1|e t1|];
    [|intros [[=]|[]]|intros [[=]|[]]].
  destruct (NewRequest w _ _ _) as [e|req0]; [intros [[=]|[[=]|[[=]|[]]]]|].
  intros _. exists t1, req0. reflexivity.
Qed.

(** Conversely, a fetch with a configured proxy whose URL is not empty,
    whose global slot is freed at some instant and whose request is built
    does reach them. *)
Lemma get_proxy_reached (p : ProxyConfig) (t : Time) (req0 : Request) :
  Format w (api_url api) sc <> EmptyString ->
  sem_free (sem w) = Some t ->
  NewRequest w (Method (api_cfg api)) (Format w (api_url api) sc)
    (formattedBody w (api_cfg api) sc) = inr req0 ->
  Proxy (api_cfg api) = Some p ->
  In (EProxyParse (Format w (Server p) sc)) (effects r).
Proof.
  intros Hurl Hfree Hreq Hproxy. subst r. unfold get.
  apply String.eqb_neq in Hurl. rewrite Hurl.
  rewrite Acquire_background, Hfree, Hreq.
  unfold get_from_headers.
  destruct (proxy_setup_cases w api sc client st)
    as [(Hn & _)|[(p' & e & Hp' & _ & Hps)
                 |(p' & u & u' & cred & Hp' & _ & _ & _ & Hps)]];
    [congruence| |]; rewrite Hproxy in Hp'; injection Hp' as <-;
    subst client; rewrite Hps.
  - unfold leave; cbn [effects]. rewrite !List.in_app_iff. simpl. auto.
  - destruct (HostLimiter w _) as [hl|];
      [destruct (Acquire hl ctx _)|];
      try (match goal with
           | |- context [send ?a ?b ?c ?d ?e ?f ?g ?h] =>
               destruct (send_effects a b c d e f g h) as (mid & -> & _)
           end);
      unfold leave, stuck; cbn [effects];
      rewrite ?List.in_app_iff; simpl; rewrite ?List.in_app_iff; simpl;
      auto 20.
Qed.

End ApiProxy.

(** C9.  In every fetch with a configured proxy in which the expanded
    proxy server fails to parse as a URL, [get] returns nil headers, a nil
    body and a nil error, issues no request, and leaves the clients as
    they were.  (The error returned is [err], the nil error of
    [http.NewRequest], not [errProxy].) *)
Theorem get_proxy_parse_failure (w : Api.World) (api : Api.apiConnector)
    (sc : Scope) (now : Time) (st : Store) (p : ProxyConfig) (e : error) :
  let r := Api.get w api sc now st in
  Api.Proxy (Api.api_cfg api) = Some p ->
  Api.url_Parse w (Api.Format w (Server p) sc) = inl e ->
  In (EProxyParse (Api.Format w (Server p) sc)) (Api.effects r) ->
  Api.outcome r = Api.Returned None None None
  /\ Forall (fun ev => Api.is_Do ev = false) (Api.effects r)
  /\ Api.final r = st.
Proof.
  intros r Hproxy Hparse Hin.
  destruct (get_reaches_proxy w api sc now st _ Hin) as (t1 & req0 & Hr).
  subst r. rewrite Hr. clear Hr Hin.
  unfold Api.get_from_headers, Api.proxy_setup.
  rewrite Hproxy, Hparse. unfold Api.leave. cbn [Api.outcome Api.effects Api.final].
  repeat split.
  rewrite !Forall_app. repeat split; repeat constructor.
  apply Forall_headers. reflexivity.
Qed.

(** C9, at a proxy server without a scheme. *)
Lemma get_proxy_parse_failure_witness :
  let w := Examples.world 0 in
  let proxy := mkProxyConfig "proxy.local:8080" "user" "secret" in
  let api := Api.NewAPI Examples.items_url
               (Examples.descriptor "GET" 0 (Some proxy)) None in
  let r := Api.get w api Examples.scope3 0 Examples.store0 in
  Api.url_Parse w "proxy.local:8080" = inl (Failure "missing protocol scheme")
  /\ Api.outcome r = Api.Returned None None None
  /\ Api.sync_trace (Api.effects r)
     = [Api.SAcquire GlobalPool; Api.SRelease GlobalPool].
Proof.
  intros w proxy api r. split; [reflexivity|]. split; [|reflexivity].
  apply (get_proxy_parse_failure w api Examples.scope3 0 Examples.store0
           proxy (Failure "missing protocol scheme"));
    [reflexivity|reflexivity|].
  vm_compute. auto.
Defined.

Section ApiDefaultClient.
Import Api.

(** A fetch without proxy and without a client of its own leaves the heap
    as it is and sends through the default client as it finds it. *)
Lemma get_without_proxy (w : World) (api : apiConnector) (sc : Scope)
    (now : Time) (st : Store) :
  api_client api = None -> Proxy (api_cfg api) = None ->
  final (get w api sc now st) = st
  /\ Forall (uses_transport DefaultClient (st DefaultClient))
            (effects (get w api sc now st)).
Proof.
  intros Hc Hp0.
  assert (Hps : forall cl, proxy_setup w (api_cfg api) sc cl st = ProxyDone st []).
  { intros cl. unfold proxy_setup. rewrite Hp0. reflexivity. }
  split.
  - get_split w api sc now st; rewrite ?send_final;
      unfold leave, stuck; cbn [final]; try reflexivity;
      rewrite Hps in Hp; congruence.
  - get_split w api sc now st;
      try (rewrite Hps in Hp; first [discriminate | injection Hp as <- <-]);
      rewrite ?Hc;
      try (apply send_Forall);
      unfold leave, stuck; cbn [effects];
      rewrite ?Forall_app; repeat split;
      try apply Forall_headers;
      repeat constructor; simpl; auto.
Qed.

End ApiDefaultClient.

(** C10.  In every fetch with a configured proxy and no client of its own
    that sets up its proxy (the expanded proxy server parses), [get]
    writes the proxy transport into the default client of the process;
    the write is still there after the call, whatever the call returns;
    and a later fetch without a client of its own and without a proxy
    leaves it there and sends its request through that proxy transport. *)
Theorem get_proxy_transport_persists (w : Api.World)
    (api : Api.apiConnector) (sc : Scope) (now : Time) (st : Store)
    (p : ProxyConfig) (u : URL) :
  let r := Api.get w api sc now st in
  Api.api_client api = None ->
  Api.Proxy (Api.api_cfg api) = Some p ->
  Api.url_Parse w (Api.Format w (Server p) sc) = inr u ->
  In (EProxyParse (Api.Format w (Server p) sc)) (Api.effects r) ->
  exists u',
    url_text u' = url_text u
    /\ In (ESetTransport DefaultClient (ProxyTransport u')) (Api.effects r)
    /\ Api.final r DefaultClient = ProxyTransport u'
    /\ (forall c, c <> DefaultClient -> Api.final r c = st c)
    /\ forall w2 api2 sc2 now2,
         Api.api_client api2 = None ->
         Api.Proxy (Api.api_cfg api2) = None ->
         let r2 := Api.get w2 api2 sc2 now2 (Api.final r) in
         Api.final r2 = Api.final r
         /\ Forall (Api.uses_transport DefaultClient (ProxyTransport u'))
                   (Api.effects r2).
Proof.
  intros r Hclient Hproxy Hparse Hin.
  destruct (get_reaches_proxy w api sc now st _ Hin) as (t1 & req0 & Hr).
  subst r.
  destruct (proxy_setup_cases w api sc DefaultClient st)
    as [(Hn & _)|[(p' & e & Hp' & He & _)
                 |(p' & u0 & u' & cred & Hp' & Hu0 & Htext & _ & Hps)]];
    [congruence| |].
  { rewrite Hproxy in Hp'. injection Hp' as <-. congruence. }
  rewrite Hproxy in Hp'. injection Hp' as <-.
  rewrite Hparse in Hu0. injection Hu0 as <-.
  exists u'.
  assert (Hfinal : Api.final (Api.get w api sc now st)
                   = set_Transport DefaultClient (ProxyTransport u') st
          /\ In (ESetTransport DefaultClient (ProxyTransport u'))
                (Api.effects (Api.get w api sc now st))).
  { rewrite Hr. unfold Api.get_from_headers. rewrite Hclient.
    change Api.GetDefaultClient with DefaultClient. rewrite Hps.
    destruct (Api.HostLimiter w _) as [hl|];
      [destruct (Acquire hl ctx t1)|];
      try (match goal with
           | |- context [Api.send ?a ?b ?c ?d ?e ?f ?g ?h] =>
               rewrite (send_final a b c d e f g h);
               destruct (send_effects a b c d e f g h) as (mid & -> & _)
           end);
      unfold Api.leave, Api.stuck; cbn [Api.final Api.effects];
      (split; [reflexivity|]);
      rewrite ?List.in_app_iff; simpl; rewrite ?List.in_app_iff; simpl;
      auto 20. }
  destruct Hfinal as (Hfinal & Hset).
  split; [exact Htext|]. split; [exact Hset|]. rewrite Hfinal.
  split; [unfold set_Transport; rewrite decide_True; reflexivity|].
  split.
  { intros c Hc. unfold set_Transport. rewrite decide_False; auto. }
  intros w2 api2 sc2 now2 Hc2 Hp2 r2. subst r2.
  destruct (get_without_proxy w2 api2 sc2 now2
              (set_Transport DefaultClient (ProxyTransport u') st) Hc2 Hp2)
    as (Hf2 & Hall).
  split; [exact Hf2|].
  unfold set_Transport in Hall at 1. rewrite decide_True in Hall by reflexivity.
  exact Hall.
Qed.

(** C10, at a fetch through [http://proxy.local:8080] followed by a fetch
    without proxy: the second request goes through the proxy of the
    first. *)
Lemma get_proxy_transport_persists_witness :
  let w := Examples.world 0 in
  let proxy := mkProxyConfig "http://proxy.local:8080" "user" "secret" in
  let api := Api.NewAPI Examples.items_url
               (Examples.descriptor "GET" 0 (Some proxy)) None in
  let api2 := Api.NewAPI Examples.items_url
               (Examples.descriptor "GET" 0 None) None in
  let r := Api.get w api Examples.scope3 0 Examples.store0 in
  let r2 := Api.get w api2 Examples.scope3 0 (Api.final r) in
  let t := ProxyTransport
             (mkURL "http://proxy.local:8080"
                    (Some (mkUserinfo "user" (Some "secret")))) in
  Api.final r DefaultClient = t
  /\ Api.final r2 DefaultClient = t
  /\ (exists req rc, In (EDo DefaultClient t req rc) (Api.effects r2))
  /\ exists u', Forall (Api.uses_transport DefaultClient (ProxyTransport u'))
                       (Api.effects r2).
Proof.
  intros w proxy api api2 r r2 t.
  split; [reflexivity|]. split; [reflexivity|].
  split; [eexists _, _; vm_compute; auto 10|].
  destruct (get_proxy_transport_persists w api Examples.scope3 0
              Examples.store0 proxy (mkURL "http://proxy.local:8080" None))
    as (u' & _ & _ & _ & _ & H2);
    [reflexivity|reflexivity|reflexivity|vm_compute; auto|].
  exists u'.
  exact (proj2 (H2 w api2 Examples.scope3 0 eq_refl eq_refl)).
Defined.

(** ** The browser connector *)

Section PlaywrightFacts.
Import Playwright.

Variable w : World.
Variable url : string.
Variable cfg : PlaywrightConfig.
Variable sc : Scope.

(** The error that [getFromPlaywright] returns when the goroutine wins the
    [select] is the [err] of the enclosing function, which only the
    install section writes: no failure of the browser sequence reaches
    it. *)
Lemma goroutine_err ctxT now installed :
  g_err (goroutine w url cfg sc ctxT now installed)
  = if Install cfg then i_err (install_section w ctxT now installed)
    else None.
Proof.
  unfold goroutine. destruct (Install cfg); simpl.
  - destruct (i_stop _); [reflexivity|].
    destruct (browser_sequence w url cfg sc); reflexivity.
  - destruct (browser_sequence w url cfg sc); reflexivity.
Qed.

Lemma getFromPlaywright_without_install now installed :
  Install cfg = false -> PlaywrightLimiter w = None ->
  deadline_first w = false ->
  exists tr,
    getFromPlaywright w url cfg sc now installed
    = Some (mkResult (Some (browser_sequence w url cfg sc).1) None
                     installed tr).
Proof.
  intros Hi Hl Hd. unfold getFromPlaywright, instance_acquire.
  rewrite Hl, Hd. unfold goroutine. rewrite Hi. simpl.
  destruct (browser_sequence w url cfg sc). simpl. eauto.
Qed.

(** A failing step leaves [content] empty. *)
Lemma browser_sequence_failure e :
  playwright_Run w = Some e ->
  browser_sequence w url cfg sc = (EmptyString, Some e).
Proof. unfold browser_sequence. intros ->. reflexivity. Qed.

(** When every step succeeds the content is the page markup. *)
Lemma browser_sequence_success :
  playwright_Run w = None ->
  (forall n, Browser cfg <> OtherBrowser n) ->
  Launch w (Browser cfg, launch_options w cfg sc) = None ->
  NewPage w = None ->
  (Stealth cfg = true -> stealth_Inject w = None /\ AddInitScript w = None) ->
  Goto w url = None ->
  (PreRunScript cfg <> EmptyString ->
   Evaluate w (Format w (PreRunScript cfg) sc) = None) ->
  browser_sequence w url cfg sc = Content w.
Proof.
  intros Hrun Hb Hl Hp Hs Hg He. unfold browser_sequence.
  rewrite Hrun.
  assert (Hl' : match Browser cfg with
                | OtherBrowser _ => Some errNoDriver
                | b => Launch w (b, launch_options w cfg sc)
                end = None).
  { destruct (Browser cfg) as [| | |n]; try exact Hl. destruct (Hb n eq_refl). }
  rewrite Hl', Hp.
  assert (Hs' : (if Stealth cfg
                 then match stealth_Inject w with
                      | Some e => Some e
                      | None => AddInitScript w
                      end
                 else None) = None).
  { destruct (Stealth cfg); [|reflexivity].
    destruct (Hs eq_refl) as (-> & ->). reflexivity. }
  rewrite Hs', Hg.
  destruct (String.eqb_spec (PreRunScript cfg) EmptyString) as [_|Hne]; simpl.
  - reflexivity.
  - rewrite (He Hne). reflexivity.
Qed.

End PlaywrightFacts.

(** C3.  A browser fetch whose runtime fails to start returns a nil error
    with empty content: the failure is assigned to the [err] that
    [pw, err := playwright.Run(...)] declares inside the goroutine, and the
    [err] that the caller gets is never written.  The connector without
    templates returns a nil error in so many words.  The same holds for a
    failure of any later step, here of the navigation. *)
Theorem getFromPlaywright_failure_returns_nil_error :
  let failure := Failure "could not start driver" in
  let w := Examples.browser (Some failure) None in
  let cfg := Examples.chromium false in
  Playwright.browser_sequence w "http://example.com" cfg Examples.scope3
  = (EmptyString, Some failure)
  /\ (exists tr,
        Playwright.getFromPlaywright w "http://example.com" cfg
          Examples.scope3 0 false
        = Some (Playwright.mkResult (Some EmptyString) None false tr))
  /\ (exists tr,
        Playwright.getFromPlaywright_old w "http://example.com" cfg 0
        = Some (Playwright.mkResult (Some EmptyString) None false tr))
  /\ (let w' := Playwright.mkWorld FormatIndex None
                  (mkSemaphore InstallLock (Some 0)) None None
                  (fun _ => None) None None None
                  (fun _ => Some (Failure "net::ERR_NAME_NOT_RESOLVED"))
                  (fun _ => None) ("<html></html>", None) false in
      exists tr,
        Playwright.getFromPlaywright w' "http://example.com" cfg
          Examples.scope3 0 false
        = Some (Playwright.mkResult (Some EmptyString) None false tr)).
Proof. vm_compute. repeat split; eexists; reflexivity. Qed.

(** C2, as stated, fails: a caller that arrives after the installation
    has completed (second run, flag set) acquires the install semaphore
    again before it looks at the flag; and when the installer fails
    (third run) the flag stays unset, so that every later caller finds
    the state of the third run and runs the installer again. *)
Lemma install_lock_taken_after_install :
  let cfg := Examples.chromium true in
  let ctxT := WithDeadline 60 in
  let run w installed :=
    Playwright.getFromPlaywright w "http://example.com" cfg
      Examples.scope3 0 installed in
  let ok := Examples.browser None None in
  let broken := Examples.browser None (Some (Failure "no network")) in
  run ok false
  = Some (Playwright.mkResult (Some "<html></html>") None true
            [EAcquire InstallLock ctxT 0; EInstall true; EStoreInstalled;
             ERelease InstallLock; ECancel])
  /\ run ok true
     = Some (Playwright.mkResult (Some "<html></html>") None true
               [EAcquire InstallLock ctxT 0; ERelease InstallLock; ECancel])
  /\ run broken false
     = Some (Playwright.mkResult (Some "<html></html>")
               (Some (Failure "no network")) false
               [EAcquire InstallLock ctxT 0; EInstall false;
                ERelease InstallLock; ECancel]).
Proof. vm_compute. auto. Qed.

(** ** Counting *)

Lemma total_insert {A : Type} (f : A -> nat) (l : list A) (i : nat) (x y : A) :
  l !! i = Some x ->
  (total f (<[i := y]> l) + f x = total f l + f y)%nat.
Proof.
  revert i. induction l as [|a l IH]; intros [|i] H; simpl in *;
    try discriminate.
  - injection H as ->. lia.
  - specialize (IH i H). lia.
Qed.

Lemma count_insert {A : Type} (P : A -> bool) (l : list A) (i : nat) (x y : A) :
  l !! i = Some x ->
  (count P (<[i := y]> l) + (if P x then 1 else 0)
   = count P l + (if P y then 1 else 0))%nat.
Proof. apply (total_insert (fun a => if P a then 1%nat else 0%nat)). Qed.

Lemma count_cons {A : Type} (P : A -> bool) (a : A) (l : list A) :
  count P (a :: l) = ((if P a then 1 else 0) + count P l)%nat.
Proof. reflexivity. Qed.

Lemma count_none {A : Type} (P : A -> bool) (l : list A) :
  Forall (fun a => P a = false) l -> count P l = 0%nat.
Proof.
  induction 1 as [|a l Ha _ IH]; [reflexivity|].
  unfold count in *. simpl. rewrite Ha, IH. reflexivity.
Qed.

Lemma count_pos {A : Type} (P : A -> bool) (l : list A) (i : nat) (x : A) :
  l !! i = Some x -> P x = true -> (1 <= count P l)%nat.
Proof.
  revert i. induction l as [|a l IH]; intros [|i] H Hx; simpl in *;
    try discriminate; unfold count; simpl.
  - injection H as ->. rewrite Hx. lia.
  - specialize (IH i H Hx). unfold count in IH. lia.
Qed.

Lemma count_exists {A : Type} (P : A -> bool) (l : list A) :
  (1 <= count P l)%nat -> exists i x, l !! i = Some x /\ P x = true.
Proof.
  induction l as [|a l IH]; unfold count; simpl; [lia|].
  destruct (P a) eqn:Ha.
  - intros _. exists 0%nat, a. auto.
  - intros H. destruct (IH H) as (i & x & Hi & Hx). exists (S i), x. auto.
Qed.

(** ** The install section under concurrency *)

Module InstallFacts.
Import InstallProtocol.

Lemma inside_holds_lock (l : list pc) :
  (count installing l + count storing l <= count holds_lock l)%nat.
Proof.
  induction l as [|p l IH]; unfold count in *; simpl; [lia|].
  destruct p; simpl; lia.
Qed.

Lemma install_invariant_init n : invariant (init n) [].
Proof.
  assert (H : forall P, P AtAcquire = false ->
                        count P (replicate n AtAcquire) = 0%nat).
  { intros P HP. apply count_none. apply Forall_replicate. exact HP. }
  unfold invariant. simpl. rewrite !H by reflexivity.
  repeat split; try discriminate. constructor.
Qed.

Ltac counts Hi new :=
  pose proof (count_insert holds_lock _ _ _ new Hi);
  pose proof (count_insert installing _ _ _ new Hi);
  pose proof (count_insert storing _ _ _ new Hi);
  pose proof (count_pos holds_lock _ _ _ Hi);
  pose proof (count_pos installing _ _ _ Hi);
  pose proof (count_pos storing _ _ _ Hi).

Ltac close_invariant I2 I4 Hafter :=
  split; [lia|];
  split; [let Hf := fresh "Hf" in
          intros Hf; try destruct (I2 Hf); try (split; lia); congruence|];
  split; [lia|];
  split; [reflexivity|];
  apply Hafter; first [reflexivity | congruence].

Lemma install_invariant_step s tr l s' :
  invariant s tr -> step s l s' -> invariant s' (l :: tr).
Proof.
  intros (I1 & I2 & I3 & I4 & I5) Hstep.
  pose proof (inside_holds_lock (threads s)) as I6.
  assert (Hafter : forall l0, (flag s = true -> is_install l0 = false) ->
            Forall (fun l => is_install l = false) (after_store (l0 :: tr))).
  { intros l0 Hl0. simpl. rewrite I4. destruct (flag s); [|constructor].
    constructor; auto. }
  assert (Hstored : forall l0, existsb is_store (l0 :: tr)
                               = is_store l0 || flag s).
  { intros l0. simpl. rewrite I4. reflexivity. }
  unfold invariant, installs_ok in *.
  inversion Hstep as [? i Hi Hl|? i Hi|? i Hi Hf|? i Hi Hf|? i Hi|? i Hi
                     |? i Hi|? i Hi]; subst; cbn [lock flag threads];
    rewrite Hstored, (count_cons is_install_ok); unfold move;
    cbn [is_install_ok is_store orb].
  - counts Hi AtLoad. simpl in *. rewrite Hl in *.
    close_invariant I2 I4 Hafter.
  - counts Hi Finished. simpl in *.
    close_invariant I2 I4 Hafter.
  - counts Hi AtRelease. simpl in *.
    close_invariant I2 I4 Hafter.
  - counts Hi AtInstall. simpl in *.
    close_invariant I2 I4 Hafter.
  - counts Hi AtStore. simpl in *.
    assert (Hf : flag s = false).
    { destruct (flag s) eqn:Hf; [|reflexivity]. destruct (I2 eq_refl). lia. }
    rewrite Hf in *.
    close_invariant I2 I4 Hafter.
  - counts Hi AtRelease. simpl in *.
    assert (Hf : flag s = false).
    { destruct (flag s) eqn:Hf; [|reflexivity]. destruct (I2 eq_refl). lia. }
    rewrite Hf in *.
    close_invariant I2 I4 Hafter.
  - counts Hi AtRelease. simpl in *.
    assert (Hf : flag s = false).
    { destruct (flag s) eqn:Hf; [|reflexivity]. destruct (I2 eq_refl). lia. }
    rewrite Hf in *.
    assert (Hlk : lock s = true).
    { destruct (lock s); [reflexivity|]. lia. }
    rewrite Hlk in *.
    pose proof (inside_holds_lock (<[i:=AtRelease]> (threads s))).
    split; [lia|]. split; [intros _; split; lia|]. split; [lia|].
    split; [reflexivity|]. apply Hafter. reflexivity.
  - counts Hi Finished. simpl in *.
    assert (Hlk : lock s = true).
    { destruct (lock s); [reflexivity|]. lia. }
    rewrite Hlk in *.
    close_invariant I2 I4 Hafter.
Qed.

Lemma install_reach_invariant n s tr : reach n s tr -> invariant s tr.
Proof.
  induction 1 as [|s tr l s' _ IH Hstep].
  - apply install_invariant_init.
  - eapply install_invariant_step; eauto.
Qed.

(** The history of a caller grows by its own actions. *)
Lemma history_cons (i : nat) (l : label) (tr : list label) :
  history i (l :: tr)
  = if Nat.eqb (caller_of l) i then history i tr ++ [action_of l]
    else history i tr.
Proof.
  unfold history. cbn [List.filter].
  destruct (Nat.eqb (caller_of l) i); reflexivity.
Qed.

(** An action is taken by a caller at the program point of the action,
    and reading the flag gives the flag. *)
Lemma step_from s l s' :
  step s l s' ->
  threads s !! caller_of l = Some (pc_before (action_of l))
  /\ (forall b, action_of l = DoLoad b -> flag s = b).
Proof.
  intros Hstep. inversion Hstep; subst; cbn [caller_of action_of pc_before];
    (split; [assumption|]); intros b' [=]; congruence.
Qed.

(** Every caller is where its history leads, and a run has no action of a
    caller that does not exist. *)
Lemma install_reach_history n s tr :
  reach n s tr ->
  length (threads s) = n
  /\ (forall i, match threads s !! i with
                | Some p => way_to p (history i tr)
                | None => history i tr = []
                end).
Proof.
  induction 1 as [|s tr l s' _ (Hlen & Hh) Hstep].
  - split; [apply length_replicate|]. intros i. cbn [init threads].
    destruct (replicate n AtAcquire !! i) as [p|] eqn:E; [|reflexivity].
    apply lookup_replicate in E. destruct E as (-> & _). reflexivity.
  - assert (Hother : forall i j p,
              i <> j ->
              match <[i := p]> (threads s) !! j with
              | Some q => way_to q (history j tr)
              | None => history j tr = []
              end).
    { intros i j p Hne. rewrite list_lookup_insert_ne by exact Hne.
      apply Hh. }
    inversion Hstep as [? i Hi Hl|? i Hi|? i Hi Hf|? i Hi Hf|? i Hi|? i Hi
                       |? i Hi|? i Hi]; subst; cbn [threads]; unfold move;
      (split; [rewrite length_insert; reflexivity|]);
      intros j; rewrite history_cons; cbn [caller_of action_of];
      (destruct (Nat.eqb_spec i j) as [<-|Hne]; [|apply Hother; exact Hne]);
      pose proof (Hh i) as Hi'; rewrite Hi in Hi';
      rewrite list_lookup_insert_eq by (eapply lookup_lt_Some; exact Hi);
      cbn [way_to] in Hi' |- *;
      repeat match goal with
             | H : _ \/ _ |- _ => destruct H as [H|H]
             end;
      rewrite Hi'; cbn [app]; auto.
Qed.

(** Every action of a run was a step from a reachable state. *)
Lemma reach_split n s newer l older :
  reach n s (newer ++ l :: older) ->
  exists s0 s1, reach n s0 older /\ step s0 l s1.
Proof.
  revert s. induction newer as [|l' newer IH]; intros s Hreach;
    inversion Hreach; subst; eauto.
Qed.

End InstallFacts.

(** C2, amended.  The installation is guarded lock-then-check.  In every
    run of any number of concurrent callers: the callers between the
    acquisition of the install lock and its release are as many as the
    lock says, so at most one; a caller leaves its start only by
    acquiring the lock (or by giving up at its deadline), whether or not
    the installation has completed, and looks at the flag only while it
    holds the lock; the installer succeeds at most once; and once the
    flag has been stored no caller runs the installer.  Every caller has
    done what leads to the point where it is: it acquired the lock first,
    read the flag next, ran the installer only after reading the flag
    unset, stored the flag only after its own installer run succeeded,
    and released the lock last; a caller that has finished released the
    lock, unless it gave up without it.  The flag is set exactly when it
    was stored, and then the installer has succeeded once.  And every
    action of the run was taken that way: a read of the flag gave what
    had been stored before it, and an installer run came before any
    store. *)
Theorem install_lock_then_check (n : nat) (s : InstallProtocol.State)
    (tr : list InstallProtocol.label) :
  InstallProtocol.reach n s tr ->
  (count InstallProtocol.holds_lock (InstallProtocol.threads s)
   = if InstallProtocol.lock s then 1 else 0)%nat
  /\ (InstallProtocol.installs_ok tr <= 1)%nat
  /\ Forall (fun l => InstallProtocol.is_install l = false)
            (InstallProtocol.after_store tr)
  /\ (forall i l s',
        InstallProtocol.threads s !! i = Some InstallProtocol.AtAcquire ->
        InstallProtocol.step s l s' ->
        InstallProtocol.threads s' !! i <> Some InstallProtocol.AtAcquire ->
        (l = InstallProtocol.Acq i /\ InstallProtocol.lock s = false)
        \/ l = InstallProtocol.AcqTimeout i)
  /\ (forall i b l s',
        l = InstallProtocol.Load i b -> InstallProtocol.step s l s' ->
        InstallProtocol.lock s = true
        /\ InstallProtocol.threads s !! i = Some InstallProtocol.AtLoad)
  /\ length (InstallProtocol.threads s) = n
  /\ (forall i,
        match InstallProtocol.threads s !! i with
        | Some p => InstallProtocol.way_to p (InstallProtocol.history i tr)
        | None => InstallProtocol.history i tr = []
        end)
  /\ InstallProtocol.flag s = existsb InstallProtocol.is_store tr
  /\ (InstallProtocol.flag s = true ->
      InstallProtocol.installs_ok tr = 1%nat)
  /\ (forall newer l older,
        tr = newer ++ l :: older ->
        InstallProtocol.way_to
          (InstallProtocol.pc_before (InstallProtocol.action_of l))
          (InstallProtocol.history (InstallProtocol.caller_of l) older)
        /\ (forall b, InstallProtocol.action_of l = InstallProtocol.DoLoad b ->
                      b = existsb InstallProtocol.is_store older)
        /\ (InstallProtocol.is_install l = true ->
            existsb InstallProtocol.is_store older = false)).
Proof.
  intros Hreach.
  destruct (InstallFacts.install_reach_invariant n s tr Hreach)
    as (I1 & I2 & I3 & I4 & I5).
  destruct (InstallFacts.install_reach_history n s tr Hreach) as (Hlen & Hh).
  pose proof (InstallFacts.inside_holds_lock (InstallProtocol.threads s)) as I6.
  split; [exact I1|]. split.
  { destruct (InstallProtocol.flag s).
    - destruct (I2 eq_refl). lia.
    - destruct (InstallProtocol.lock s); lia. }
  split; [exact I5|]. split; [|split].
  - intros i l s' Hi Hstep Hmoved.
    inversion Hstep as [? j Hj Hl|? j Hj|? j Hj Hf|? j Hj Hf|? j Hj|? j Hj
                       |? j Hj|? j Hj]; subst;
      cbn [InstallProtocol.threads] in Hmoved;
      unfold InstallProtocol.move in Hmoved;
      destruct (decide (j = i)) as [->|Hne];
      try (rewrite list_lookup_insert_ne in Hmoved by exact Hne;
           contradiction);
      try congruence; auto.
  - intros i b l s' -> Hstep.
    inversion Hstep as [| |? j Hj Hf|? j Hj Hf| | | |]; subst;
      (split; [|exact Hj]);
      pose proof (count_pos InstallProtocol.holds_lock _ _ _ Hj eq_refl);
      destruct (InstallProtocol.lock s); auto; lia.
  - split; [exact Hlen|]. split; [exact Hh|].
    split; [symmetry; exact I4|]. split.
    { intros Hf. rewrite Hf in I3. destruct (I2 Hf) as (_ & Hst).
      unfold InstallProtocol.installs_ok in *. lia. }
    intros newer l older ->.
    destruct (InstallFacts.reach_split n s newer l older Hreach)
      as (s0 & s1 & Hreach0 & Hstep0).
    destruct (InstallFacts.install_reach_invariant n s0 older Hreach0)
      as (_ & J2 & _ & J4 & _).
    destruct (InstallFacts.install_reach_history n s0 older Hreach0)
      as (_ & Hh0).
    destruct (InstallFacts.step_from s0 l s1 Hstep0) as (Hat & Hload).
    split; [|split].
    + specialize (Hh0 (InstallProtocol.caller_of l)).
      rewrite Hat in Hh0. exact Hh0.
    + intros b Hb. rewrite J4. symmetry. apply Hload. exact Hb.
    + intros Hinst. rewrite J4.
      destruct (InstallProtocol.flag s0) eqn:Hf; [|reflexivity].
      destruct (J2 eq_refl) as (Hcount & _).
      assert (Hpc : InstallProtocol.pc_before (InstallProtocol.action_of l)
                    = InstallProtocol.AtInstall).
      { destruct l; try discriminate Hinst; reflexivity. }
      rewrite Hpc in Hat.
      pose proof (count_pos InstallProtocol.installing _ _ _ Hat eq_refl).
      lia.
Qed.

(** One more step of a concrete run. *)
Ltac fire R ctor :=
  match type of R with
  | InstallProtocol.reach ?n ?s ?tr =>
      let Hs := fresh "Hs" in
      eassert (Hs : InstallProtocol.step s _ _)
        by (apply ctor; reflexivity);
      apply (InstallProtocol.reach_step n s tr _ _ R) in Hs;
      clear R; rename Hs into R;
      cbv [InstallProtocol.move InstallProtocol.threads
           InstallProtocol.lock InstallProtocol.flag
           InstallProtocol.init replicate list_insert insert] in R
  end.

(** C2, amended, at the run of two callers in which the first installs and
    the second arrives after the installation: the second acquires the
    lock as well and reads the flag set, the installer has run once, and
    both have released the lock. *)
Lemma install_lock_then_check_witness :
  let tr := [InstallProtocol.Rel 1; InstallProtocol.Load 1 true;
             InstallProtocol.Acq 1; InstallProtocol.Rel 0;
             InstallProtocol.Store 0; InstallProtocol.InstallOk 0;
             InstallProtocol.Load 0 false; InstallProtocol.Acq 0] in
  let s := InstallProtocol.mkState false true
             [InstallProtocol.Finished; InstallProtocol.Finished] in
  InstallProtocol.reach 2 s tr
  /\ (InstallProtocol.installs_ok tr <= 1)%nat
  /\ InstallProtocol.after_store tr
     = [InstallProtocol.Rel 1; InstallProtocol.Load 1 true;
        InstallProtocol.Acq 1; InstallProtocol.Rel 0]
  /\ InstallProtocol.way_to InstallProtocol.Finished
       (InstallProtocol.history 1 tr)
  /\ InstallProtocol.history 0 tr
     = [InstallProtocol.DoAcq; InstallProtocol.DoLoad false;
        InstallProtocol.DoInstallOk; InstallProtocol.DoStore;
        InstallProtocol.DoRel]
  /\ InstallProtocol.history 1 tr
     = [InstallProtocol.DoAcq; InstallProtocol.DoLoad true;
        InstallProtocol.DoRel].
Proof.
  intros tr s.
  assert (R : InstallProtocol.reach 2 s tr).
  { pose proof (InstallProtocol.reach_init 2) as R.
    fire R (InstallProtocol.step_acquire (InstallProtocol.init 2) 0).
    match type of R with InstallProtocol.reach _ ?s _ =>
      fire R (InstallProtocol.step_load_missing s 0) end.
    match type of R with InstallProtocol.reach _ ?s _ =>
      fire R (InstallProtocol.step_install_ok s 0) end.
    match type of R with InstallProtocol.reach _ ?s _ =>
      fire R (InstallProtocol.step_store s 0) end.
    match type of R with InstallProtocol.reach _ ?s _ =>
      fire R (InstallProtocol.step_release s 0) end.
    match type of R with InstallProtocol.reach _ ?s _ =>
      fire R (InstallProtocol.step_acquire s 1) end.
    match type of R with InstallProtocol.reach _ ?s _ =>
      fire R (InstallProtocol.step_load_installed s 1) end.
    match type of R with InstallProtocol.reach _ ?s _ =>
      fire R (InstallProtocol.step_release s 1) end.
    exact R. }
  split; [exact R|].
  destruct (install_lock_then_check 2 s tr R)
    as (_ & H & _ & _ & _ & _ & Hh & _).
  split; [exact H|]. split; [reflexivity|].
  split; [exact (Hh 1%nat)|]. split; reflexivity.
Defined.

(** ** References *)

Module ReferencesFacts.
Import References.

Lemma registry_invariant_init names : invariant (init names) [].
Proof.
  unfold invariant, init. cbn [table callers].
  split; [|split].
  - intros n. rewrite (lookup_empty (M:=gmap string)). apply count_none.
    apply Forall_forall. intros c Hc. apply list_elem_of_fmap in Hc.
    destruct Hc as (m & -> & _). reflexivity.
  - intros n. reflexivity.
  - intros i n r Hi. apply list_lookup_fmap_Some in Hi.
    destruct Hi as (m & H1 & H2); discriminate.
Qed.

Lemma registry_invariant_step s tr l s' :
  invariant s tr -> step s l s' -> invariant s' (l :: tr).
Proof.
  intros (K1 & K2 & K3) Hstep.
  unfold invariant, fetches in *.
  inversion Hstep as [? i n Hi Ht|? i n r Hi|? i n r Hi Ht]; subst;
    cbn [table callers].
  - (* start *)
    split; [|split].
    + intros m. pose proof (count_insert (is_running m) _ _ _ (Running n) Hi) as H.
      specialize (K1 m). cbn [is_running] in H.
      destruct (decide (n = m)) as [->|Hne].
      * rewrite lookup_insert_eq, bool_decide_eq_true_2 in * by reflexivity.
        rewrite Ht in K1. lia.
      * rewrite lookup_insert_ne, bool_decide_eq_false_2 in * by exact Hne.
        lia.
    + intros m. rewrite count_cons. cbn [is_fetch]. specialize (K2 m).
      destruct (decide (n = m)) as [->|Hne].
      * rewrite lookup_insert_eq. rewrite Ht in K2. lia.
      * rewrite lookup_insert_ne by exact Hne. lia.
    + intros j m r Hj.
      destruct (decide (i = j)) as [->|Hij].
      * rewrite list_lookup_insert_eq in Hj
          by (eapply lookup_lt_Some; exact Hi). discriminate.
      * rewrite list_lookup_insert_ne in Hj by exact Hij.
        specialize (K3 j m r Hj).
        destruct (decide (n = m)) as [->|Hne]; [congruence|].
        rewrite lookup_insert_ne by exact Hne. exact K3.
  - (* fetch *)
    assert (Hres : table s !! n = Some Resolving).
    { pose proof (count_pos (is_running n) _ _ _ Hi) as Hpos.
      cbn [is_running] in Hpos.
      rewrite bool_decide_eq_true_2 in Hpos by reflexivity.
      specialize (Hpos eq_refl). specialize (K1 n).
      destruct (table s !! n) as [[|?]|]; try lia. reflexivity. }
    split; [|split].
    + intros m. pose proof (count_insert (is_running m) _ _ _ (Got n r) Hi) as H.
      specialize (K1 m). cbn [is_running] in H.
      destruct (decide (n = m)) as [->|Hne].
      * rewrite lookup_insert_eq, bool_decide_eq_true_2 in * by reflexivity.
        rewrite Hres in K1. lia.
      * rewrite lookup_insert_ne, bool_decide_eq_false_2 in * by exact Hne.
        lia.
    + intros m. rewrite count_cons. cbn [is_fetch]. specialize (K2 m).
      destruct (decide (n = m)) as [->|Hne].
      * rewrite lookup_insert_eq, bool_decide_eq_true_2 by reflexivity.
        rewrite Hres in K2. lia.
      * rewrite lookup_insert_ne, bool_decide_eq_false_2 by exact Hne. lia.
    + intros j m r' Hj.
      destruct (decide (i = j)) as [->|Hij].
      * rewrite list_lookup_insert_eq in Hj
          by (eapply lookup_lt_Some; exact Hi).
        injection Hj as <- <-. apply lookup_insert_eq.
      * rewrite list_lookup_insert_ne in Hj by exact Hij.
        specialize (K3 j m r' Hj).
        destruct (decide (n = m)) as [->|Hne]; [congruence|].
        rewrite lookup_insert_ne by exact Hne. exact K3.
  - (* read *)
    split; [|split].
    + intros m. pose proof (count_insert (is_running m) _ _ _ (Got n r) Hi) as H.
      specialize (K1 m). cbn [is_running] in H. lia.
    + intros m. rewrite count_cons. cbn [is_fetch]. specialize (K2 m). lia.
    + intros j m r' Hj.
      destruct (decide (i = j)) as [->|Hij].
      * rewrite list_lookup_insert_eq in Hj
          by (eapply lookup_lt_Some; exact Hi).
        injection Hj as <- <-. exact Ht.
      * rewrite list_lookup_insert_ne in Hj by exact Hij.
        exact (K3 j m r' Hj).
Qed.

Lemma registry_reach_invariant names s tr : reach names s tr -> invariant s tr.
Proof.
  induction 1 as [|s tr l s' _ IH Hstep].
  - apply registry_invariant_init.
  - eapply registry_invariant_step; eauto.
Qed.

(** Every step takes work away. *)
Lemma step_work s l s' : step s l s' -> (work_left s' < work_left s)%nat.
Proof.
  unfold work_left.
  inversion 1 as [? i n Hi Ht|? i n r Hi|? i n r Hi Ht]; subst;
    cbn [callers].
  - pose proof (total_insert work _ _ _ (Running n) Hi). simpl in *. lia.
  - pose proof (total_insert work _ _ _ (Got n r) Hi). simpl in *. lia.
  - pose proof (total_insert work _ _ _ (Got n r) Hi). simpl in *. lia.
Qed.

(** A caller that has not returned can move, or the caller it waits for
    can. *)
Lemma progress s tr :
  invariant s tr ->
  Forall (fun c => returned c = true) (callers s)
  \/ exists l s', step s l s'.
Proof.
  intros (K1 & _ & _).
  destruct (decide (Forall (fun c => returned c = true) (callers s)))
    as [Hall|Hex]; [left; exact Hall|right].
  apply not_Forall_Exists in Hex; [|apply _].
  apply Exists_exists in Hex. destruct Hex as (c & Hc & Hnot).
  apply list_elem_of_lookup in Hc. destruct Hc as (i & Hi).
  destruct c as [n|n|n r]; [| |simpl in Hnot; congruence].
  - destruct (table s !! n) as [[|r]|] eqn:Ht.
    + specialize (K1 n). rewrite Ht in K1.
      destruct (count_exists (is_running n) (callers s)) as (j & c & Hj & Hr);
        [lia|].
      destruct c as [m|m|m r]; try discriminate Hr.
      apply bool_decide_eq_true_1 in Hr. subst m.
      eexists _, _. apply (step_fetch s j n (inl EmptyString) Hj).
    + eexists _, _. apply (step_read s i n r Hi Ht).
    + eexists _, _. apply (step_start s i n Hi Ht).
  - eexists _, _. apply (step_fetch s i n (inl EmptyString) Hi).
Qed.

End ReferencesFacts.

(** C1.  In every run of any number of concurrent callers of [resolve],
    from a state in which no name is resolved: the fetch+extract of a
    name is executed at most once; when a caller has returned for a name
    it has been executed exactly once, and the caller holds the outcome
    stored for the name, so that any two callers that returned for the
    same name hold the same outcome, a value or an error; the outcome
    stored for a name is never replaced; and the callers do return: while
    one has not, a step can be taken, and every step takes away from the
    finite work that is left. *)
Theorem resolve_single_flight (names : list string) (s : References.State)
    (tr : list References.label) :
  References.reach names s tr ->
  (forall n, (References.fetches n tr <= 1)%nat)
  /\ (forall i n r,
        References.callers s !! i = Some (References.Got n r) ->
        References.fetches n tr = 1%nat
        /\ References.table s !! n = Some (References.Resolved r))
  /\ (forall i j n r1 r2,
        References.callers s !! i = Some (References.Got n r1) ->
        References.callers s !! j = Some (References.Got n r2) ->
        r1 = r2)
  /\ (forall n r l s',
        References.table s !! n = Some (References.Resolved r) ->
        References.step s l s' ->
        References.table s' !! n = Some (References.Resolved r))
  /\ (Forall (fun c => References.returned c = true) (References.callers s)
      \/ exists l s', References.step s l s')
  /\ (forall l s', References.step s l s' ->
        (References.work_left s' < References.work_left s)%nat).
Proof.
  intros Hreach.
  pose proof (ReferencesFacts.registry_reach_invariant names s tr Hreach) as Hinv.
  pose proof Hinv as (K1 & K2 & K3).
  split.
  { intros n. specialize (K2 n). unfold References.fetches in *.
    destruct (References.table s !! n) as [[|?]|]; lia. }
  split.
  { intros i n r Hi. specialize (K3 i n r Hi). specialize (K2 n).
    rewrite K3 in K2. auto. }
  split.
  { intros i j n r1 r2 Hi Hj.
    pose proof (K3 i n r1 Hi) as H1. pose proof (K3 j n r2 Hj) as H2.
    congruence. }
  split.
  { intros n r l s' Ht Hstep.
    inversion Hstep as [? i m Hi Hm|? i m r' Hi|? i m r' Hi Hm]; subst;
      cbn [References.table]; [| |exact Ht].
    - destruct (decide (m = n)) as [->|Hne]; [congruence|].
      rewrite lookup_insert_ne by exact Hne. exact Ht.
    - destruct (decide (m = n)) as [->|Hne].
      + exfalso.
        pose proof (count_pos (References.is_running n) _ _ _ Hi) as Hpos.
        cbn [References.is_running] in Hpos.
        rewrite bool_decide_eq_true_2 in Hpos by reflexivity.
        specialize (Hpos eq_refl). specialize (K1 n). rewrite Ht in K1. lia.
      + rewrite lookup_insert_ne by exact Hne. exact Ht. }
  split; [exact (ReferencesFacts.progress s tr Hinv)|].
  intros l s'. apply ReferencesFacts.step_work.
Qed.

(** One more step of a concrete run of callers. *)
Ltac fire_ref R ctor :=
  match type of R with
  | References.reach ?ns ?s ?tr =>
      let Hs := fresh "Hs" in
      eassert (Hs : References.step s _ _)
        by (apply ctor; vm_compute; reflexivity);
      apply (References.reach_step ns s tr _ _ R) in Hs;
      clear R; rename Hs into R
  end.

(** C1, at three concurrent callers of [resolve("X")] whose fetch fails:
    the first executes the resolver, the others wait and read; all three
    return the same error after one fetch. *)
Lemma resolve_single_flight_witness :
  let r : References.Outcome := inl "fetch failed" in
  let tr := [References.Read 2 "X" r; References.Read 1 "X" r;
             References.Fetch 0 "X" r; References.Start 0 "X"] in
  exists s,
    References.reach ["X"; "X"; "X"] s tr
    /\ References.callers s
       = [References.Got "X" r; References.Got "X" r; References.Got "X" r]
    /\ References.fetches "X" tr = 1%nat.
Proof.
  intros r tr.
  pose proof (References.reach_init ["X"; "X"; "X"]) as R.
  fire_ref R (References.step_start (References.init ["X"; "X"; "X"]) 0 "X").
  match type of R with References.reach _ ?s _ =>
    fire_ref R (References.step_fetch s 0 "X" r) end.
  match type of R with References.reach _ ?s _ =>
    fire_ref R (References.step_read s 1 "X" r) end.
  match type of R with References.reach _ ?s _ =>
    fire_ref R (References.step_read s 2 "X" r) end.
  eexists. split; [exact R|]. split; [reflexivity|].
  destruct (resolve_single_flight _ _ _ R) as (_ & H & _).
  apply (H 1%nat "X" r). reflexivity.
Defined.

(** * More of the code *)

(** ** The array node *)

(** X1.  [ToJson()] of an array is an opening bracket, the texts of the
    elements in order with one comma between two neighbours and none after
    the last, and a closing bracket; a nil element gives the text of
    [Null()]. *)
Theorem arrayField_ToJson_commas (Null : Builder.Jsonable)
    (s : Builder.arrayField) :
  Builder.arrayField_ToJson Null s
  = "[" +:+ Json.join (map (Builder.item_json Null) (Builder.values s)) +:+ "]"
  /\ (forall x, Builder.arrayField_ToJson Null (Builder.Array [x])
                = "[" +:+ Builder.item_json Null x +:+ "]")
  /\ (forall x y rest,
        Builder.arrayField_ToJson Null (Builder.Array (x :: y :: rest))
        = "[" +:+ Builder.item_json Null x +:+ ","
          +:+ Json.join (map (Builder.item_json Null) (y :: rest)) +:+ "]").
Proof.
  split; [apply arrayField_ToJson_join|]. split.
  - intros x. rewrite arrayField_ToJson_join. reflexivity.
  - intros x y rest. rewrite arrayField_ToJson_join.
    cbn [Builder.values Builder.Array].
    change (Json.join (map (Builder.item_json Null) (x :: y :: rest)))
      with (Builder.item_json Null x +:+ "," +:+
            Json.join (map (Builder.item_json Null) (y :: rest))).
    rewrite !append_assoc. reflexivity.
Qed.

(** X2.  For an array without nil elements whose elements' [IsEmpty()]
    return, [IsEmpty()] returns, and it returns true exactly when every
    element is empty; so it returns true for the array without
    elements. *)
Theorem arrayField_IsEmpty_iff (s : Builder.arrayField) :
  Forall (fun item => exists j b, item = Some j /\ Builder.IsEmpty j = Ok b)
         (Builder.values s) ->
  exists b,
    Builder.arrayField_IsEmpty s = Ok b
    /\ (b = true <->
        Forall (fun item => exists j, item = Some j
                                      /\ Builder.IsEmpty j = Ok true)
               (Builder.values s)).
Proof.
  intros H.
  assert (Hbs : exists bs,
    Forall2 (fun item b => exists j, item = Some j /\ Builder.IsEmpty j = Ok b)
            (Builder.values s) bs).
  { induction H as [|item rest (j & b & Hj & Hb) _ (bs & IH)].
    - exists []. constructor.
    - exists (b :: bs). constructor; eauto. }
  destruct Hbs as (bs & Hbs).
  exists (forallb id bs). split; [apply arrayField_IsEmpty_all, Hbs|].
  clear H. induction Hbs as [|item b rest bs (j & -> & Hb) _ IH]; simpl.
  - split; [constructor|reflexivity].
  - rewrite andb_true_iff, IH. unfold id. split.
    + intros (-> & Hrest). constructor; eauto.
    + intros Hall. inversion Hall as [|? ? (j' & Hj1 & Hj') Hrest]; subst.
      injection Hj1 as <-. split; [congruence|exact Hrest].
Qed.

(** X2, at an array of two empty arrays. *)
Lemma arrayField_IsEmpty_iff_witness :
  let empty := Builder.arrayField_Jsonable Builder.NullNode (Builder.Array []) in
  Builder.arrayField_IsEmpty (Builder.Array [Some empty; Some empty])
  = Ok true.
Proof.
  intros empty.
  destruct (arrayField_IsEmpty_iff (Builder.Array [Some empty; Some empty]))
    as (b & Hb & Hiff).
  - repeat constructor; exists empty, true; split; reflexivity.
  - rewrite Hb. f_equal. apply Hiff.
    repeat constructor; exists empty; split; reflexivity.
Defined.

(** X3.  [IsEmpty()] looks at the elements in order and stops at the first
    that is not an empty node: after empty elements, an element that is
    not empty gives false whatever follows it (also a nil element), and a
    nil element or an element whose [IsEmpty()] panics gives a panic. *)
Theorem arrayField_IsEmpty_first (pre post : list (option Builder.Jsonable)) :
  Forall (fun item => exists j, item = Some j /\ Builder.IsEmpty j = Ok true)
         pre ->
  (forall j, Builder.IsEmpty j = Ok false ->
     Builder.arrayField_IsEmpty (Builder.Array (pre ++ Some j :: post))
     = Ok false)
  /\ Builder.arrayField_IsEmpty (Builder.Array (pre ++ None :: post)) = Panic
  /\ (forall j, Builder.IsEmpty j = Panic ->
        Builder.arrayField_IsEmpty (Builder.Array (pre ++ Some j :: post))
        = Panic).
Proof.
  intros Hpre.
  assert (Hskip : forall x,
    Builder.IsEmpty_loop (pre ++ x :: post) = Builder.IsEmpty_loop (x :: post)).
  { intros x. induction Hpre as [|item pre (j & -> & Hj) _ IH];
      [reflexivity|]. cbn [app].
    change (Builder.IsEmpty_loop (Some j :: pre ++ x :: post))
      with (match Builder.IsEmpty j with
            | Panic => Panic
            | Ok false => Ok false
            | Ok true => Builder.IsEmpty_loop (pre ++ x :: post)
            end).
    rewrite Hj. exact IH. }
  assert (Hloop : forall x,
    Builder.arrayField_IsEmpty (Builder.Array (pre ++ x :: post))
    = Builder.IsEmpty_loop (pre ++ x :: post)).
  { intros x. unfold Builder.arrayField_IsEmpty. cbn [Builder.values Builder.Array].
    destruct (pre ++ x :: post) eqn:E; [|reflexivity].
    destruct pre; discriminate. }
  split; [|split].
  - intros j Hj. rewrite Hloop, Hskip. simpl. rewrite Hj. reflexivity.
  - rewrite Hloop, Hskip. reflexivity.
  - intros j Hj. rewrite Hloop, Hskip. simpl. rewrite Hj. reflexivity.
Qed.

(** X3, at [Null, "a", nil]: false, although a nil element follows. *)
Lemma arrayField_IsEmpty_first_witness :
  let a := Builder.mkJsonable (Ok false) "a" (VString "a") in
  Builder.arrayField_IsEmpty
    (Builder.Array [Some Builder.NullNode; Some a; None]) = Ok false.
Proof.
  intros a.
  destruct (arrayField_IsEmpty_first [Some Builder.NullNode] [None])
    as (H & _ & _).
  - repeat constructor. exists Builder.NullNode. split; reflexivity.
  - apply (H a). reflexivity.
Defined.

(** X4.  [ToJson()] and [Raw()] do not tell a nil element from the node
    [Null()]: putting [Null()] in the place of every nil element changes
    neither. *)
Theorem arrayField_nil_as_Null (Null : Builder.Jsonable)
    (items : list (option Builder.Jsonable)) :
  let items' := map (fun item => Some (default Null item)) items in
  Builder.arrayField_ToJson Null (Builder.Array items')
  = Builder.arrayField_ToJson Null (Builder.Array items)
  /\ Builder.arrayField_Raw Null (Builder.Array items')
     = Builder.arrayField_Raw Null (Builder.Array items).
Proof.
  intros items'. subst items'. rewrite !arrayField_ToJson_join.
  unfold Builder.arrayField_Raw. cbn [Builder.values Builder.Array].
  rewrite !List.map_map. split; f_equal; [f_equal; f_equal|];
    apply List.map_ext; intros [j|]; reflexivity.
Qed.

(** ** The capacity of the global pool *)

Section InitFacts.
Import ApiPool.

Lemma ParseInt_range (s : string) (v : Z) :
  ParseInt s = inr v -> - 2147483648 <= v <= 2147483647.
Proof.
  unfold ParseInt. destruct s as [|c s]; [discriminate|].
  destruct (if Ascii.eqb c "+" || Ascii.eqb c "-" then s else String c s);
    [discriminate|].
  destruct (digits_value _ 0) as [n|]; [|discriminate].
  destruct (_ && _) eqn:E; [|discriminate].
  intros [= <-]. apply andb_true_iff in E. lia.
Qed.

Lemma pretty_N_char_digit (d : N) :
  (d < 10)%N ->
  Json.is_digit (pretty_N_char d) = true
  /\ Json.digit_val (pretty_N_char d) = Z.of_N d.
Proof.
  intros Hd.
  assert (H : (d = 0 \/ d = 1 \/ d = 2 \/ d = 3 \/ d = 4 \/ d = 5 \/ d = 6
               \/ d = 7 \/ d = 8 \/ d = 9)%N) by lia.
  repeat (destruct H as [->|H]; [split; reflexivity|]).
  subst. split; reflexivity.
Qed.

(** The digits that [pretty] writes in front of [s] have the value of the
    number. *)
Lemma digits_value_pretty_go (x : N) : forall s acc,
  exists k, 0 <= k
    /\ digits_value (pretty_N_go x s) acc
       = digits_value s (acc * 10 ^ k + Z.of_N x).
Proof.
  induction (N.lt_wf_0 x) as [x _ IH]. intros s acc.
  destruct (decide (x = 0%N)) as [->|Hx].
  - exists 0. rewrite pretty_N_go_0. split; [lia|]. f_equal. lia.
  - rewrite pretty_N_go_step by lia.
    assert (Hlt : (x `div` 10 < x)%N) by (apply N.div_lt; lia).
    destruct (IH (x `div` 10)%N Hlt
                (String (pretty_N_char (x `mod` 10)) s) acc)
      as (k & Hk & ->).
    exists (k + 1). split; [lia|].
    destruct (pretty_N_char_digit (x `mod` 10)%N) as (Hd & Hv).
    { apply N.mod_lt. lia. }
    cbn [digits_value]. rewrite Hd, Hv. f_equal.
    rewrite Z.pow_add_r, Z.pow_1_r by lia.
    rewrite N2Z.inj_div, N2Z.inj_mod.
    pose proof (Z.div_mod (Z.of_N x) 10). change (Z.of_N 10) with 10. lia.
Qed.

Lemma digits_value_pretty (n : N) :
  digits_value (pretty n) 0 = Some (Z.of_N n).
Proof.
  unfold pretty, pretty_N. destruct (decide (n = 0%N)) as [->|Hn].
  - reflexivity.
  - destruct (digits_value_pretty_go n EmptyString 0) as (k & _ & ->).
    reflexivity.
Qed.

Lemma digit_not_sign (c : ascii) :
  Json.is_digit c = true -> Ascii.eqb c "+" || Ascii.eqb c "-" = false.
Proof.
  intros H.
  destruct (Ascii.eqb_spec c "+") as [->|_]; [discriminate H|].
  destruct (Ascii.eqb_spec c "-") as [->|_]; [discriminate H|].
  reflexivity.
Qed.

Lemma ParseInt_pretty (n : N) :
  (n <= 2147483647)%N -> ParseInt (pretty n) = inr (Z.of_N n).
Proof.
  intros Hn. pose proof (digits_value_pretty n) as Hv.
  unfold ParseInt. destruct (pretty n) as [|c s] eqn:E.
  - destruct (decide (n = 0%N)) as [->|Hne]; [discriminate E|].
    simpl in Hv. injection Hv as Hv. lia.
  - assert (Hc : Json.is_digit c = true).
    { simpl in Hv. destruct (Json.is_digit c); [reflexivity|discriminate]. }
    rewrite (digit_not_sign c Hc).
    assert (Hm : Ascii.eqb c "-" = false).
    { destruct (Ascii.eqb_spec c "-") as [->|_]; [discriminate Hc|reflexivity]. }
    rewrite Hm, Hv.
    destruct (_ && _) eqn:Hr; [reflexivity|].
    apply andb_false_iff in Hr. lia.
Qed.

End InitFacts.

(** X5.  The capacity that [init] gives to the global pool is always a
    positive 32-bit integer, and it is the default of 1000 unless
    FITTER_HTTP_WORKER is set to a text that parses to a positive 32-bit
    integer, which is then the capacity: an unset variable, a text that is
    no number, zero, a negative number and a number beyond 32 bits all
    give 1000. *)
Theorem init_capacity (LookupEnv : string -> option string) :
  1 <= ApiPool.init LookupEnv <= 2147483647
  /\ (ApiPool.init LookupEnv <> Connectors.defaultConcurrentWorker ->
      exists value,
        LookupEnv "FITTER_HTTP_WORKER" = Some value
        /\ ApiPool.ParseInt value = inr (ApiPool.init LookupEnv))
  /\ (forall value n,
        LookupEnv "FITTER_HTTP_WORKER" = Some value ->
        ApiPool.ParseInt value = inr n -> 0 < n ->
        ApiPool.init LookupEnv = n).
Proof.
  unfold ApiPool.init, Connectors.defaultConcurrentWorker.
  destruct (LookupEnv "FITTER_HTTP_WORKER") as [value|].
  - destruct (ApiPool.ParseInt value) as [e|n] eqn:Hp.
    + split; [lia|]. split; [congruence|]. intros ? ? [= <-] Hn. congruence.
    + pose proof (ParseInt_range value n Hp) as Hr.
      destruct (Z.ltb_spec 0 n) as [Hpos|Hneg].
      * split; [lia|]. split; [eauto|].
        intros ? ? [= <-] Hn _. congruence.
      * split; [lia|]. split; [congruence|].
        intros ? ? [= <-] Hn ?. assert (n0 = n) by congruence. lia.
  - split; [lia|]. split; [congruence|]. intros ? ? [=].
Qed.

(** X5, at the settings 64, 0, -3, 5000000000 and 1_000. *)
Lemma init_capacity_witness :
  let env (v : string) : string -> option string :=
    fun k => if String.eqb k "FITTER_HTTP_WORKER" then Some v else None in
  ApiPool.init (env "64") = 64
  /\ ApiPool.init (env "0") = 1000
  /\ ApiPool.init (env "-3") = 1000
  /\ ApiPool.init (env "5000000000") = 1000
  /\ ApiPool.init (env "1_000") = 1000
  /\ ApiPool.init (fun _ => None) = 1000.
Proof.
  intros env. split.
  - destruct (init_capacity (env "64")) as (_ & _ & H).
    apply (H "64"); [reflexivity|reflexivity|lia].
  - repeat split.
Defined.

(** X6.  Setting FITTER_HTTP_WORKER to the decimal text of a number from 1
    to 2147483647 makes that number the capacity of the global pool. *)
Theorem init_decimal_round_trip (n : N) (LookupEnv : string -> option string) :
  (1 <= n <= 2147483647)%N ->
  LookupEnv "FITTER_HTTP_WORKER" = Some (pretty n) ->
  ApiPool.init LookupEnv = Z.of_N n.
Proof.
  intros Hn Henv. unfold ApiPool.init. rewrite Henv.
  rewrite ParseInt_pretty by lia.
  destruct (Z.ltb_spec 0 (Z.of_N n)); [reflexivity|lia].
Qed.

(** X6, at 250. *)
Lemma init_decimal_round_trip_witness :
  ApiPool.init (fun k => if String.eqb k "FITTER_HTTP_WORKER"
                         then Some (pretty 250%N) else None) = 250.
Proof.
  apply (init_decimal_round_trip 250%N); [lia|reflexivity].
Defined.

(** ** The HTTP connector *)

(** X7.  A fetch whose expanded URL is empty returns [errEmpty] at once:
    it has no effect at all (no slot is acquired, no request is built) and
    leaves the clients as they are.  It is the only fetch without any
    effect. *)
Theorem get_empty_URL (w : Api.World) (api : Api.apiConnector) (sc : Scope)
    (now : Time) (st : Store) :
  let r := Api.get w api sc now st in
  (Api.Format w (Api.api_url api) sc = EmptyString ->
   Api.outcome r = Api.Returned None None (Some errEmpty)
   /\ Api.effects r = [] /\ Api.final r = st)
  /\ (Api.effects r = [] ->
      Api.Format w (Api.api_url api) sc = EmptyString).
Proof.
  intros r. subst r. split.
  - intros Hurl. unfold Api.get. rewrite Hurl. repeat split.
  - get_split w api sc now st;
      try (intros _; apply String.eqb_eq, Hurl);
      try (match goal with
           | |- context [Api.send ?a ?b ?c ?d ?e ?f ?g ?h] =>
               destruct (send_effects a b c d e f g h) as (mid & -> & _)
           end);
      unfold Api.leave, Api.stuck; cbn [Api.effects];
      intros Hnil; try discriminate Hnil;
      apply (f_equal (@length Event)) in Hnil;
      rewrite ?length_app in Hnil; simpl in Hnil; lia.
Qed.

(** X7, at a URL that is the index token alone, outside of an iteration:
    the token expands to nothing. *)
Lemma get_empty_URL_witness :
  let w := Examples.world 0 in
  let api := Api.NewAPI "{INDEX}" (Examples.descriptor "GET" 0 None) None in
  let sc := mkScope None None None in
  Api.outcome (Api.get w api sc 0 Examples.store0)
  = Api.Returned None None (Some errEmpty)
  /\ Api.effects (Api.get w api sc 0 Examples.store0) = [].
Proof.
  intros w api sc.
  destruct (get_empty_URL w api sc 0 Examples.store0) as (H & _).
  destruct (H eq_refl) as (Ho & He & _). auto.
Defined.

(** X8.  What [get] returns has one of two shapes: nil headers and a nil
    body, or the headers and the body of the response that the client gave
    to the request of this fetch, with a nil error.  Data never comes with
    an error; and nil data comes with a nil error only when the proxy
    server did not parse. *)
Theorem get_result_shape (w : Api.World) (api : Api.apiConnector) (sc : Scope)
    (now : Time) (st : Store) :
  let r := Api.get w api sc now st in
  forall header body err,
    Api.outcome r = Api.Returned header body err ->
    (header = None /\ body = None
     /\ (err = None ->
         exists p e, Api.Proxy (Api.api_cfg api) = Some p
           /\ Api.url_Parse w (Api.Format w (Server p) sc) = inl e))
    \/ (exists c t req rc now' resp bytes,
          In (EDo c t req rc) (Api.effects r)
          /\ Api.client_Do w c t req rc now' = inr resp
          /\ resp_Body resp = inr bytes
          /\ header = Some (resp_Header resp)
          /\ body = Some bytes /\ err = None).
Proof.
  intros r header body err. subst r.
  assert (Hsend : forall cfg client st' req t tr defers,
    Api.outcome (Api.send w cfg client st' req t tr defers)
    = Api.Returned header body err ->
    (header = None /\ body = None /\ err <> None)
    \/ (exists c t0 req0 rc now' resp bytes,
          In (EDo c t0 req0 rc)
             (Api.effects (Api.send w cfg client st' req t tr defers))
          /\ Api.client_Do w c t0 req0 rc now' = inr resp
          /\ resp_Body resp = inr bytes
          /\ header = Some (resp_Header resp)
          /\ body = Some bytes /\ err = None)).
  { intros cfg client st' req t tr defers. unfold Api.send.
    destruct (Api.client_Do w _ _ _ _ _) as [e|resp] eqn:Hdo;
      [|destruct (resp_Body resp) as [e|bytes] eqn:Hb];
      unfold Api.leave; cbn [Api.outcome Api.effects]; intros [= <- <- <-].
    - left. repeat split. discriminate.
    - left. repeat split. discriminate.
    - right. eexists _, _, _, _, _, resp, bytes.
      split; [|split; [exact Hdo|repeat split; exact Hb]].
      rewrite !List.in_app_iff. simpl. auto. }
  get_split w api sc now st;
    try (intros Hout; destruct (Hsend _ _ _ _ _ _ _ Hout)
           as [(-> & -> & Hne)|Hdata];
         [left; repeat split; intros ->; congruence|right; exact Hdata]);
    unfold Api.leave, Api.stuck; cbn [Api.outcome];
    try discriminate; intros [= <- <- <-]; left; repeat split;
    try discriminate.
  intros _.
  destruct (proxy_setup_cases w api sc
              match Api.api_client api with
              | Some c => c
              | None => Api.GetDefaultClient
              end st)
    as [(_ & Hps)|[(p & e & Hp' & He & _)|(p & u & u' & cred & _ & _ & _ & _ & Hps)]];
    [congruence|eauto|congruence].
Qed.

(** X8, at the fetch of the items URL: the body [{}] of the response. *)
Lemma get_result_shape_witness :
  let w := Examples.world 0 in
  let api := Api.NewAPI Examples.items_url
               (Examples.descriptor "GET" 0 None) None in
  exists c t req rc,
    In (EDo c t req rc)
       (Api.effects (Api.get w api Examples.scope3 0 Examples.store0)).
Proof.
  intros w api.
  destruct (get_result_shape w api Examples.scope3 0 Examples.store0
              (Some (resp_Header Examples.ok_response)) (Some "{}") None
              eq_refl)
    as [(H & _)|(c & t & req & rc & _ & _ & _ & Hin & _)];
    [discriminate H|eauto].
Defined.

(** X9.  A fetch returns whenever the slot of the global pool and the slot
    of every host limiter are free at some instant; and a fetch with a URL
    whose global pool never frees a slot never returns, whatever its time
    limit: the limit does not bound the wait for a slot. *)
Theorem get_returns (w : Api.World) (api : Api.apiConnector) (sc : Scope)
    (now : Time) (st : Store) :
  let r := Api.get w api sc now st in
  (sem_free (Api.sem w) <> None ->
   (forall h hl, Api.HostLimiter w h = Some hl -> sem_free hl <> None) ->
   exists header body err, Api.outcome r = Api.Returned header body err)
  /\ (Api.Format w (Api.api_url api) sc <> EmptyString ->
      sem_free (Api.sem w) = None ->
      Api.outcome r = Api.Blocks /\ Api.effects r = [EWait GlobalPool ctx]).
Proof.
  intros r. subst r. split.
  - intros Hg Hh.
    get_split w api sc now st;
      try (send_split w); unfold Api.leave, Api.stuck; cbn [Api.outcome];
      eauto; exfalso.
    + rewrite Acquire_background in Hacq2.
      destruct (sem_free hl) eqn:Hf; [discriminate|].
      exact (Hh _ _ Hhl Hf).
    + rewrite Acquire_background in Hacq.
      destruct (sem_free (Api.sem w)); [discriminate|]. congruence.
  - intros Hurl Hfree. unfold Api.get.
    apply String.eqb_neq in Hurl. rewrite Hurl.
    rewrite Acquire_background, Hfree. split; reflexivity.
Qed.

(** X9, at a pool that frees a slot after 100 seconds and at a pool that
    never does, with a time limit of one second. *)
Lemma get_returns_witness :
  let api := Api.NewAPI Examples.items_url
               (Examples.descriptor "GET" 1 None) None in
  let never := Api.mkWorld FormatIndex (mkSemaphore GlobalPool None)
                 (fun _ => None) (Api.request_host (Examples.world 0))
                 (Api.url_Parse (Examples.world 0))
                 (Api.client_Do (Examples.world 0)) in
  (exists header body err,
     Api.outcome (Api.get (Examples.world 100) api Examples.scope3 0
                    Examples.store0)
     = Api.Returned header body err)
  /\ Api.outcome (Api.get never api Examples.scope3 0 Examples.store0)
     = Api.Blocks.
Proof.
  intros api never. split.
  - apply (proj1 (get_returns (Examples.world 100) api Examples.scope3 0
                    Examples.store0)); [discriminate|discriminate].
  - apply (proj2 (get_returns never api Examples.scope3 0 Examples.store0));
      [discriminate|reflexivity].
Defined.

(** X10.  A fetch writes to no client but its own (the one it was given,
    or else the default client), and without a configured proxy it writes
    to none; the request of the fetch is sent through that client, with
    the transport that the client holds when the call is over, so that a
    proxy set by the fetch is the proxy of its own request. *)
Theorem get_writes_own_client (w : Api.World) (api : Api.apiConnector)
    (sc : Scope) (now : Time) (st : Store) :
  let r := Api.get w api sc now st in
  let client := ApiMore.client_of api in
  (forall c, c <> client -> Api.final r c = st c)
  /\ (Api.Proxy (Api.api_cfg api) = None -> Api.final r = st)
  /\ Forall (ApiMore.through_client client (Api.final r)) (Api.effects r).
Proof.
  intros r client. subst r client. unfold ApiMore.client_of.
  assert (Hps : forall st' ptr,
    Api.proxy_setup w (Api.api_cfg api) sc
      match Api.api_client api with
      | Some c => c
      | None => Api.GetDefaultClient
      end st = Api.ProxyDone st' ptr ->
    (forall c, c <> match Api.api_client api with
                    | Some c => c
                    | None => Api.GetDefaultClient
                    end -> st' c = st c)
    /\ (Api.Proxy (Api.api_cfg api) = None -> st' = st)
    /\ Forall (ApiMore.through_client
                 match Api.api_client api with
                 | Some c => c
                 | None => Api.GetDefaultClient
                 end st') ptr).
  { intros st' ptr.
    destruct (proxy_setup_cases w api sc
                match Api.api_client api with
                | Some c => c
                | None => Api.GetDefaultClient
                end st)
      as [(_ & ->)|[(p & e & _ & _ & ->)
                   |(p & u & u' & cred & Hp' & _ & _ & Hc & ->)]];
      intros [= <- <-].
    - repeat split. constructor.
    - split; [|split].
      + intros c Hc'. unfold set_Transport. rewrite decide_False; auto.
      + congruence.
      + constructor; [exact I|]. apply Forall_app. split.
        * destruct Hc as [->|[->| ->]]; repeat constructor.
        * repeat constructor. unfold set_Transport.
          rewrite decide_True; reflexivity. }
  get_split w api sc now st;
    try (specialize (Hps _ _ eq_refl); destruct Hps as (F1 & F2 & F3));
    rewrite ?send_final; unfold Api.leave, Api.stuck; cbn [Api.final];
    (split; [auto|split; [auto|]]);
    try (apply send_Forall); cbn [Api.effects];
    rewrite ?Forall_app; repeat split;
    try apply Forall_headers; try exact F3;
    repeat constructor; simpl; auto.
  destruct (proxy_setup_cases w api sc
              match Api.api_client api with
              | Some c => c
              | None => Api.GetDefaultClient
              end st)
    as [(_ & E)|[(p & e & _ & _ & E)|(p & u & u' & cred & _ & _ & _ & _ & E)]];
    rewrite E in Hp; try discriminate Hp.
  injection Hp as <-. repeat constructor.
Qed.

(** X10, at a connector with a client of its own and a proxy: the default
    client is left alone, the own client gets the proxy. *)
Lemma get_writes_own_client_witness :
  let w := Examples.world 0 in
  let proxy := mkProxyConfig "http://proxy.local:8080" EmptyString "secret" in
  let api := Api.NewAPI Examples.items_url
               (Examples.descriptor "GET" 0 (Some proxy))
               (Some (OwnClient 7)) in
  let r := Api.get w api Examples.scope3 0 Examples.store0 in
  Api.final r DefaultClient = NoTransport
  /\ Api.final r (OwnClient 7)
     = ProxyTransport (mkURL "http://proxy.local:8080" None).
Proof.
  intros w proxy api r. split; [|reflexivity].
  destruct (get_writes_own_client w api Examples.scope3 0 Examples.store0)
    as (H & _ & _).
  apply (H DefaultClient). discriminate.
Defined.

(** X11.  The credentials of the proxy: when the configured user name is
    empty the proxy URL keeps the user information that parsing the server
    gave it, and a configured password is ignored; with a user name and
    no password the URL gets the expanded user name alone; with both it
    gets the expanded user name and the expanded password.  The test for
    emptiness is made on the configured text, not on its expansion. *)
Theorem proxy_setup_credentials (w : Api.World)
    (cfg : Api.ServerConnectorConfig) (sc : Scope) (client : ClientRef)
    (st : Store) (p : ProxyConfig) (u : URL) :
  Api.Proxy cfg = Some p ->
  Api.url_Parse w (Api.Format w (Server p) sc) = inr u ->
  exists tr,
    Api.proxy_setup w cfg sc client st
    = Api.ProxyDone
        (set_Transport client
           (ProxyTransport
              (mkURL (url_text u) (ApiMore.proxy_user w p sc (url_User u))))
           st) tr
    /\ (Username p = EmptyString ->
        ApiMore.proxy_user w p sc (url_User u) = url_User u)
    /\ (Username p <> EmptyString -> Password p = EmptyString ->
        ApiMore.proxy_user w p sc (url_User u)
        = Some (mkUserinfo (Api.Format w (Username p) sc) None)).
Proof.
  intros Hp Hu. unfold Api.proxy_setup, ApiMore.proxy_user. rewrite Hp, Hu.
  destruct (String.eqb_spec (Username p) EmptyString) as [Hn|Hn];
    [|destruct (String.eqb_spec (Password p) EmptyString) as [Hw|Hw]];
    cbn [negb]; eexists; (split; [|split]); try congruence;
    try reflexivity.
  destruct u; reflexivity.
Qed.

(** X11, at a proxy with a password and no user name. *)
Lemma proxy_setup_credentials_witness :
  let w := Examples.world 0 in
  let p := mkProxyConfig "http://proxy.local:8080" EmptyString "secret" in
  ApiMore.proxy_user w p Examples.scope3 None = None.
Proof.
  intros w p.
  destruct (proxy_setup_credentials w (Examples.descriptor "GET" 0 (Some p))
              Examples.scope3 DefaultClient Examples.store0 p
              (mkURL "http://proxy.local:8080" None) eq_refl eq_refl)
    as (tr & _ & H & _).
  apply H. reflexivity.
Defined.

(** ** The browser connector *)

(** The browser sequence, read as a list of steps. *)
Lemma browser_sequence_steps (w : Playwright.World) (url : string)
    (cfg : Playwright.PlaywrightConfig) (sc : Scope) :
  Playwright.browser_sequence w url cfg sc
  = match PlaywrightMore.first_failure (PlaywrightMore.steps w url cfg sc) with
    | Some e => (EmptyString, Some e)
    | None => Playwright.Content w
    end.
Proof.
  unfold Playwright.browser_sequence, PlaywrightMore.steps.
  destruct (Playwright.playwright_Run w); [reflexivity|].
  cbn [app PlaywrightMore.first_failure].
  destruct (match Playwright.Browser cfg with
            | Playwright.OtherBrowser _ => Some errNoDriver
            | b => Playwright.Launch w (b, Playwright.launch_options w cfg sc)
            end); [reflexivity|].
  destruct (Playwright.NewPage w); [reflexivity|].
  destruct (Playwright.Stealth cfg); cbn [app PlaywrightMore.first_failure].
  - destruct (Playwright.stealth_Inject w); [reflexivity|].
    destruct (Playwright.AddInitScript w); [reflexivity|].
    destruct (Playwright.Goto w url); [reflexivity|].
    destruct (String.eqb (Playwright.PreRunScript cfg) EmptyString);
      cbn [negb app PlaywrightMore.first_failure]; [reflexivity|].
    destruct (Playwright.Evaluate w _); reflexivity.
  - destruct (Playwright.Goto w url); [reflexivity|].
    destruct (String.eqb (Playwright.PreRunScript cfg) EmptyString);
      cbn [negb app PlaywrightMore.first_failure]; [reflexivity|].
    destruct (Playwright.Evaluate w _); reflexivity.
Qed.

(** No step fails when there is no first failure. *)
Lemma first_failure_None (l : list (option error)) :
  PlaywrightMore.first_failure l = None <-> Forall (fun s => s = None) l.
Proof.
  induction l as [|[e|] l IH]; cbn [PlaywrightMore.first_failure].
  - split; [constructor|reflexivity].
  - split; [discriminate|]. intros H. inversion H; subst. discriminate.
  - rewrite IH. split.
    + intros H. constructor; [reflexivity|exact H].
    + intros H. inversion H; subst. assumption.
Qed.

(** X12.  The browser sequence stops at its first failing step: it gives
    the page content (with the error of [page.Content()]) when every step
    before succeeds, and an empty content with the error of the first
    failing step otherwise.  The steps are, in order: start of the
    runtime, launch of the configured browser (no launch and
    [errNoDriver] for a browser that is none of the three), new page, the
    two stealth injections when stealth is on, navigation, and the script
    when one is configured.  So a nil error, and likewise a content that
    is not empty, tell that every step succeeded and that the content is
    the one of [page.Content()]. *)
Theorem browser_sequence_first_failure (w : Playwright.World) (url : string)
    (cfg : Playwright.PlaywrightConfig) (sc : Scope) :
  let out := Playwright.browser_sequence w url cfg sc in
  let steps := PlaywrightMore.steps w url cfg sc in
  out = match PlaywrightMore.first_failure steps with
        | Some e => (EmptyString, Some e)
        | None => Playwright.Content w
        end
  /\ (snd out = None \/ fst out <> EmptyString ->
      Forall (fun s => s = None) steps /\ out = Playwright.Content w).
Proof.
  intros out steps. subst out steps.
  rewrite browser_sequence_steps. split; [reflexivity|].
  destruct (PlaywrightMore.first_failure (PlaywrightMore.steps w url cfg sc))
    as [e|] eqn:Hf.
  - cbn [fst snd]. intros [H|H]; [discriminate|]. destruct (H eq_refl).
  - intros _. split; [|reflexivity]. apply first_failure_None. exact Hf.
Qed.

Section InstallSection.
Import Playwright PlaywrightMore.

Variable w : World.
Variable ctxT : Context.
Variable now : Time.

Lemma install_section_cases (installed : bool) :
  let i := install_section w ctxT now installed in
  (exists e t, Acquire (installPlaywrightSem w) ctxT now = AcquireErr e t
     /\ i = mkInstalled (Some e) true installed [EAcquireErr InstallLock ctxT])
  \/ (Acquire (installPlaywrightSem w) ctxT now = AcquireBlocks
      /\ i = mkInstalled None true installed [EWait InstallLock ctxT])
  \/ (exists t, Acquire (installPlaywrightSem w) ctxT now = Acquired t
      /\ ((installed = true
           /\ i = mkInstalled None false true
                    [EAcquire InstallLock ctxT t; ERelease InstallLock])
          \/ (exists e, installed = false /\ playwright_Install w = Some e
              /\ i = mkInstalled (Some e) false false
                       [EAcquire InstallLock ctxT t; EInstall false;
                        ERelease InstallLock])
          \/ (installed = false /\ playwright_Install w = None
              /\ i = mkInstalled None false true
                       [EAcquire InstallLock ctxT t; EInstall true;
                        EStoreInstalled; ERelease InstallLock]))).
Proof.
  unfold install_section.
  destruct (Acquire (installPlaywrightSem w) ctxT now) as [t|e t|];
    [|left; eauto|right; left; auto].
  right; right. exists t. split; [reflexivity|].
  destruct installed; [left; auto|right].
  destruct (playwright_Install w) as [e|]; [left; eauto|right; auto].
Qed.

End InstallSection.

(** X13.  The install section never clears the flag and never runs the
    installer when the flag is set; it sets the flag only after an
    installer run without error; and an installer run with an error leaves
    the flag unset and gives the error to the caller's [err] without
    stopping the goroutine, which goes on to start the browser. *)
Theorem install_section_flag (w : Playwright.World) (ctxT : Context)
    (now : Time) (installed : bool) :
  let i := Playwright.install_section w ctxT now installed in
  (installed = true ->
   Playwright.i_installed i = true
   /\ Forall (fun e => PlaywrightMore.is_installer e = false)
             (Playwright.i_effects i))
  /\ (Playwright.i_installed i = true ->
      installed = true
      \/ (Playwright.playwright_Install w = None
          /\ In (EInstall true) (Playwright.i_effects i)))
  /\ (forall e t, installed = false ->
        Acquire (Playwright.installPlaywrightSem w) ctxT now = Acquired t ->
        Playwright.playwright_Install w = Some e ->
        Playwright.i_installed i = false
        /\ Playwright.i_err i = Some e /\ Playwright.i_stop i = false).
Proof.
  intros i. subst i.
  destruct (install_section_cases w ctxT now installed)
    as [(e & t & Ha & ->)|[(Ha & ->)|(t & Ha & [(Hi & ->)|[(e & Hi & Hp & ->)
                                                         |(Hi & Hp & ->)]])]];
    cbn [Playwright.i_installed Playwright.i_effects Playwright.i_err
         Playwright.i_stop].
  - split; [intros ->; split; [reflexivity|repeat constructor]|].
    split; [auto|]. intros e' t' _ Ha'. congruence.
  - split; [intros ->; split; [reflexivity|repeat constructor]|].
    split; [auto|]. intros e' t' _ Ha'. congruence.
  - split; [intros _; split; [reflexivity|repeat constructor]|].
    split; [auto|]. intros e' t' Hf. congruence.
  - split; [intros Hf; congruence|].
    split; [intros Hf; discriminate Hf|].
    intros e' t' _ _ Hp'. rewrite Hp in Hp'. injection Hp' as <-. auto.
  - split; [intros Hf; congruence|].
    split; [intros _; right; split; [exact Hp|simpl; auto]|].
    intros e' t' _ _ Hp'. congruence.
Qed.

(** X13, at a first run that installs and a second run after it. *)
Lemma install_section_flag_witness :
  let w := Examples.browser None None in
  let first := Playwright.install_section w (WithDeadline 60) 0 false in
  let second := Playwright.install_section w (WithDeadline 60) 0
                  (Playwright.i_installed first) in
  Playwright.i_installed second = true
  /\ Forall (fun e => PlaywrightMore.is_installer e = false)
            (Playwright.i_effects second).
Proof.
  intros w first second.
  apply (proj1 (install_section_flag w (WithDeadline 60) 0
                  (Playwright.i_installed first))).
  reflexivity.
Defined.

(** X14.  The install section releases the install lock exactly once when
    it has acquired it, on every way out (flag found set, installer
    failed, installer succeeded), as its last effect, and touches the lock
    no further when the acquisition fails. *)
Theorem install_section_lock (w : Playwright.World) (ctxT : Context)
    (now : Time) (installed : bool) :
  let tr := Playwright.i_effects
              (Playwright.install_section w ctxT now installed) in
  match Acquire (Playwright.installPlaywrightSem w) ctxT now with
  | Acquired t =>
      exists mid,
        tr = EAcquire InstallLock ctxT t :: mid ++ [ERelease InstallLock]
        /\ Forall (fun e => PlaywrightMore.on_pool InstallLock e = false) mid
  | AcquireErr _ _ => tr = [EAcquireErr InstallLock ctxT]
  | AcquireBlocks => tr = [EWait InstallLock ctxT]
  end.
Proof.
  intros tr. subst tr.
  destruct (install_section_cases w ctxT now installed)
    as [(e & t & Ha & ->)|[(Ha & ->)|(t & Ha & [(Hi & ->)|[(e & Hi & Hp & ->)
                                                         |(Hi & Hp & ->)]])]];
    rewrite Ha; cbn [Playwright.i_effects]; try reflexivity.
  - exists []. split; [reflexivity|constructor].
  - exists [EInstall false]. split; [reflexivity|repeat constructor].
  - exists [EInstall true; EStoreInstalled].
    split; [reflexivity|repeat constructor].
Qed.

Section GetFromPlaywright.
Import Playwright PlaywrightMore.

Variable w : World.
Variable url : string.
Variable cfg : PlaywrightConfig.
Variable sc : Scope.
Variable now : Time.
Variable installed : bool.

(** The slot of the instance pool: no limiter, a limiter that frees a
    slot, or a limiter that never does. *)
Lemma instance_acquire_cases :
  (PlaywrightLimiter w = None /\ instance_acquire w now = SlotOk now [] [])
  \/ (exists l t, PlaywrightLimiter w = Some l /\ sem_free l = Some t
        /\ instance_acquire w now
           = SlotOk (Z.max now t) [EAcquire InstancePool ctx (Z.max now t)]
                    [ERelease InstancePool])
  \/ (exists l, PlaywrightLimiter w = Some l /\ sem_free l = None
        /\ instance_acquire w now = SlotBlocks).
Proof.
  unfold instance_acquire. destruct (PlaywrightLimiter w) as [l|]; [|auto].
  right. rewrite Acquire_background.
  destruct (sem_free l) as [t|] eqn:E; [left|right]; eauto.
Qed.

Lemma goroutine_effects_pool ctxT t0 :
  List.filter (on_pool InstancePool)
    (g_effects (goroutine w url cfg sc ctxT t0 installed)) = [].
Proof.
  unfold goroutine. destruct (Install cfg).
  - destruct (install_section_cases w ctxT t0 installed)
      as [(e & t & _ & ->)|[(_ & ->)|(t & _ & [(_ & ->)|[(e & _ & _ & ->)
                                                      |(_ & _ & ->)]])]];
      cbn [i_stop i_effects]; try (destruct (browser_sequence w url cfg sc));
      reflexivity.
  - cbn [i_stop i_effects]. destruct (browser_sequence w url cfg sc).
    reflexivity.
Qed.

End GetFromPlaywright.

(** X15.  [getFromPlaywright] returns unless the instance limiter never
    frees a slot, for which it waits without any limit of time; when it
    returns, nil bytes come exactly when the deadline wins the [select],
    and then with the deadline error: it never returns nil bytes with a
    nil error. *)
Theorem getFromPlaywright_returns (w : Playwright.World) (url : string)
    (cfg : Playwright.PlaywrightConfig) (sc : Scope) (now : Time)
    (installed : bool) :
  let call := Playwright.getFromPlaywright w url cfg sc now installed in
  (call = None <->
   exists l, Playwright.PlaywrightLimiter w = Some l /\ sem_free l = None)
  /\ (forall r, call = Some r ->
        (Playwright.r_bytes r = None <-> Playwright.deadline_first w = true)
        /\ (Playwright.r_bytes r = None ->
            Playwright.r_err r = Some DeadlineExceeded)).
Proof.
  intros call. subst call. unfold Playwright.getFromPlaywright.
  destruct (instance_acquire_cases w now)
    as [(Hl & ->)|[(l & t & Hl & Hf & ->)|(l & Hl & Hf & ->)]].
  - split.
    + split; [|intros (l & Hl' & _); congruence].
      destruct (Playwright.deadline_first w); discriminate.
    + intros r. destruct (Playwright.deadline_first w); intros [= <-];
        cbn [Playwright.r_bytes Playwright.r_err]; split;
        try split; try discriminate; auto.
  - split.
    + split; [|intros (l' & Hl' & Hf'); congruence].
      destruct (Playwright.deadline_first w); discriminate.
    + intros r. destruct (Playwright.deadline_first w); intros [= <-];
        cbn [Playwright.r_bytes Playwright.r_err]; split;
        try split; try discriminate; auto.
  - split; [|discriminate]. split; eauto.
Qed.

(** X15, at a runtime that does not start, before the deadline: the bytes
    are not nil. *)
Lemma getFromPlaywright_returns_witness :
  let w := Examples.browser (Some (Failure "no driver")) None in
  exists r,
    Playwright.getFromPlaywright w "http://example.com"
      (Examples.chromium false) Examples.scope3 0 false = Some r
    /\ Playwright.r_bytes r <> None.
Proof.
  intros w. eexists. split; [reflexivity|].
  intros Hnil.
  destruct (getFromPlaywright_returns w "http://example.com"
              (Examples.chromium false) Examples.scope3 0 false)
    as (_ & H).
  destruct (H _ eq_refl) as (Hiff & _).
  apply Hiff in Hnil. discriminate Hnil.
Defined.

(** X16.  [getFromPlaywright] releases the slot of the instance pool
    exactly once on every return, also when the deadline wins, and
    acquires none when there is no limiter; the slot is acquired with the
    background context, before the deadline of the fetch starts. *)
Theorem getFromPlaywright_instance_slot (w : Playwright.World) (url : string)
    (cfg : Playwright.PlaywrightConfig) (sc : Scope) (now : Time)
    (installed : bool) (r : Playwright.Result) :
  Playwright.getFromPlaywright w url cfg sc now installed = Some r ->
  List.filter (PlaywrightMore.on_pool InstancePool) (Playwright.r_effects r)
  = match Playwright.PlaywrightLimiter w with
    | None => []
    | Some l =>
        match sem_free l with
        | Some t => [EAcquire InstancePool Background (Z.max now t);
                     ERelease InstancePool]
        | None => []
        end
    end.
Proof.
  unfold Playwright.getFromPlaywright.
  destruct (instance_acquire_cases w now)
    as [(Hl & ->)|[(l & t & Hl & Hf & ->)|(l & Hl & Hf & ->)]];
    [| |discriminate]; rewrite Hl; try rewrite Hf;
    destruct (Playwright.deadline_first w); intros [= <-];
    cbn [Playwright.r_effects].
  all: cbn [List.filter PlaywrightMore.on_pool];
    rewrite ?bool_decide_eq_true_2 by reflexivity;
    rewrite List.filter_app, goroutine_effects_pool; reflexivity.
Qed.

(** X16, at a limiter that frees a slot after 5 seconds, with a deadline
    that wins. *)
Lemma getFromPlaywright_instance_slot_witness :
  let w := Playwright.mkWorld FormatIndex
             (Some (mkSemaphore InstancePool (Some 5)))
             (mkSemaphore InstallLock (Some 0)) None None
             (fun _ => None) None None None (fun _ => None) (fun _ => None)
             ("<html></html>", None) true in
  exists r,
    Playwright.getFromPlaywright w "http://example.com"
      (Examples.chromium false) Examples.scope3 0 false = Some r
    /\ List.filter (PlaywrightMore.on_pool InstancePool)
         (Playwright.r_effects r)
       = [EAcquire InstancePool Background 5; ERelease InstancePool].
Proof.
  intros w. eexists. split; [reflexivity|].
  apply (getFromPlaywright_instance_slot w "http://example.com"
           (Examples.chromium false) Examples.scope3 0 false).
  reflexivity.
Defined.

(** X17.  Without a limiter and without installation, when every step of
    the browser sequence and [page.Content()] succeed and the goroutine
    finishes before the deadline, [getFromPlaywright] returns the page
    markup with a nil error and leaves the install flag as it is. *)
Theorem getFromPlaywright_success (w : Playwright.World) (url : string)
    (cfg : Playwright.PlaywrightConfig) (sc : Scope) (now : Time)
    (installed : bool) (markup : string) :
  Playwright.PlaywrightLimiter w = None ->
  Playwright.Install cfg = false ->
  Playwright.deadline_first w = false ->
  PlaywrightMore.first_failure (PlaywrightMore.steps w url cfg sc) = None ->
  Playwright.Content w = (markup, None) ->
  exists tr,
    Playwright.getFromPlaywright w url cfg sc now installed
    = Some (Playwright.mkResult (Some markup) None installed tr).
Proof.
  intros Hl Hi Hd Hsteps Hc.
  destruct (getFromPlaywright_without_install w url cfg sc now installed
              Hi Hl Hd) as (tr & ->).
  exists tr. rewrite browser_sequence_steps, Hsteps, Hc. reflexivity.
Qed.

(** X17, at the runtime in which every step succeeds. *)
Lemma getFromPlaywright_success_witness :
  exists tr,
    Playwright.getFromPlaywright (Examples.browser None None)
      "http://example.com" (Examples.chromium false) Examples.scope3 0 false
    = Some (Playwright.mkResult (Some "<html></html>") None false tr).
Proof.
  apply getFromPlaywright_success; reflexivity.
Defined.

(** X18.  When installation is asked for, the instance limiter, if there
    is one, frees a slot, and the install lock stays taken, the goroutine
    gives up at the deadline of the fetch: the installer and the browser
    are not started, the flag is left as it is, and the caller gets the
    deadline error whichever case of the [select] fires, with empty bytes
    when the goroutine is first. *)
Theorem getFromPlaywright_install_lock_timeout (w : Playwright.World)
    (url : string) (cfg : Playwright.PlaywrightConfig) (sc : Scope)
    (now : Time) (installed : bool) :
  (forall l, Playwright.PlaywrightLimiter w = Some l -> sem_free l <> None) ->
  Playwright.Install cfg = true ->
  sem_free (Playwright.installPlaywrightSem w) = None ->
  exists tr,
    Playwright.getFromPlaywright w url cfg sc now installed
    = Some (Playwright.mkResult
              (if Playwright.deadline_first w then None
               else Some EmptyString)
              (Some DeadlineExceeded) installed tr)
    /\ Forall (fun e => PlaywrightMore.is_installer e = false) tr.
Proof.
  intros Hl Hi Hf.
  unfold Playwright.getFromPlaywright.
  destruct (instance_acquire_cases w now)
    as [(_ & ->)|[(l & t & _ & _ & ->)|(l & Hl1 & Hl2 & _)]];
    [| |destruct (Hl l Hl1 Hl2)];
    unfold Playwright.goroutine, Playwright.install_section;
    rewrite Hi; unfold Acquire, WithTimeout; rewrite Hf;
    cbn [Playwright.i_stop Playwright.i_err Playwright.i_installed
         Playwright.i_effects Playwright.g_effects Playwright.g_content
         Playwright.g_err Playwright.g_installed];
    destruct (Playwright.deadline_first w); eexists;
    (split; [reflexivity|repeat constructor]).
Qed.

(** X18, at a lock that is never released, behind an instance limiter
    that frees its slot after 5 seconds. *)
Lemma getFromPlaywright_install_lock_timeout_witness :
  let w := Playwright.mkWorld FormatIndex
             (Some (mkSemaphore InstancePool (Some 5)))
             (mkSemaphore InstallLock None) None None
             (fun _ => None) None None None (fun _ => None) (fun _ => None)
             ("<html></html>", None) false in
  exists tr,
    Playwright.getFromPlaywright w "http://example.com"
      (Examples.chromium true) Examples.scope3 0 false
    = Some (Playwright.mkResult (Some EmptyString) (Some DeadlineExceeded)
              false tr)
    /\ Forall (fun e => PlaywrightMore.is_installer e = false) tr.
Proof.
  intros w.
  apply (getFromPlaywright_install_lock_timeout w "http://example.com"
           (Examples.chromium true) Examples.scope3 0 false);
    [intros l [= <-]; discriminate|reflexivity|reflexivity].
Defined.

(** X19.  For a descriptor without installation, proxy, stealth and
    script, and an install flag that is unset, the connector with
    templates and the connector of pkg/connectors/playwright.go return the
    same bytes, the same (nil or deadline) error and have the same
    effects: both launch the browser without options.  With a proxy the
    connector with templates launches the browser with one option, which
    holds the proxy, and the other connector still launches it with
    none. *)
Theorem getFromPlaywright_old_agrees (w : Playwright.World) (url : string)
    (cfg : Playwright.PlaywrightConfig) (sc : Scope) (now : Time) :
  (Playwright.Install cfg = false ->
   Playwright.Proxy cfg = None ->
   Playwright.Stealth cfg = false ->
   Playwright.PreRunScript cfg = EmptyString ->
   Playwright.getFromPlaywright w url cfg sc now false
   = Playwright.getFromPlaywright_old w url cfg now)
  /\ (Playwright.Proxy cfg = None <-> Playwright.launch_options w cfg sc = [])
  /\ (forall p, Playwright.Proxy cfg = Some p ->
        exists proxy,
          Playwright.launch_options w cfg sc
          = [Playwright.mkLaunchOptions (Some proxy)]
          /\ (Server p <> EmptyString ->
              Playwright.proxy_Server proxy
              = Playwright.Format w (Server p) sc)
          /\ (Username p <> EmptyString ->
              Playwright.proxy_Username proxy
              = Some (Playwright.Format w (Username p) sc))
          /\ (Password p <> EmptyString ->
              Playwright.proxy_Password proxy
              = Some (Playwright.Format w (Password p) sc))
          /\ (Username p = EmptyString ->
              Playwright.proxy_Username proxy = None)
          /\ (Password p = EmptyString ->
              Playwright.proxy_Password proxy = None)).
Proof.
  split; [|split].
  - intros Hi Hx Hs Hp.
    assert (Hseq : Playwright.browser_sequence w url cfg sc
                   = Playwright.browser_sequence_old w url cfg).
    { unfold Playwright.browser_sequence, Playwright.browser_sequence_old,
        Playwright.launch_options.
      rewrite Hx, Hs, Hp. cbn [String.eqb negb].
      destruct (Playwright.playwright_Run w); [reflexivity|].
      destruct (match Playwright.Browser cfg with
                | Playwright.OtherBrowser _ => Some errNoDriver
                | b => Playwright.Launch w (b, [])
                end); [reflexivity|].
      destruct (Playwright.NewPage w); [reflexivity|].
      destruct (Playwright.Goto w url); reflexivity. }
    unfold Playwright.getFromPlaywright, Playwright.getFromPlaywright_old,
      Playwright.goroutine.
    rewrite Hi, Hseq. cbn [Playwright.i_stop fst snd].
    destruct (Playwright.instance_acquire w now); try reflexivity.
    destruct (Playwright.browser_sequence_old w url cfg) as [content e].
    reflexivity.
  - unfold Playwright.launch_options.
    destruct (Playwright.Proxy cfg); split; congruence.
  - intros p Hp. unfold Playwright.launch_options. rewrite Hp.
    eexists. split; [reflexivity|]. cbn [Playwright.proxy_Server
      Playwright.proxy_Username Playwright.proxy_Password].
    split; [|split; [|split; [|split]]]; intros H.
    + apply String.eqb_neq in H. rewrite H. reflexivity.
    + apply String.eqb_neq in H. rewrite H. reflexivity.
    + apply String.eqb_neq in H. rewrite H. reflexivity.
    + rewrite H. reflexivity.
    + rewrite H. reflexivity.
Qed.

(** X19, at the runtime in which every step succeeds; and, at a runtime
    that refuses a launch with options, a descriptor with a proxy for
    which the two connectors differ. *)
Lemma getFromPlaywright_old_agrees_witness :
  let refuses := Playwright.mkWorld FormatIndex None
                   (mkSemaphore InstallLock (Some 0)) None None
                   (fun call => match call.2 with
                                | [] => None
                                | _ => Some (Failure "proxy refused")
                                end)
                   None None None (fun _ => None) (fun _ => None)
                   ("<html></html>", None) false in
  let proxied := {| Playwright.Install := false;
                    Playwright.Timeout := 0;
                    Playwright.Wait := 0;
                    Playwright.Browser := Playwright.Chromium;
                    Playwright.Proxy :=
                      Some (mkProxyConfig "http://proxy.local:8080"
                              EmptyString EmptyString);
                    Playwright.Stealth := false;
                    Playwright.PreRunScript := EmptyString |} in
  Playwright.getFromPlaywright_old (Examples.browser None None)
    "http://example.com" (Examples.chromium false) 0
  = Some (Playwright.mkResult (Some "<html></html>") None false [ECancel])
  /\ Playwright.getFromPlaywright refuses "http://example.com" proxied
       Examples.scope3 0 false
     = Some (Playwright.mkResult (Some EmptyString) None false [ECancel])
  /\ Playwright.getFromPlaywright_old refuses "http://example.com" proxied 0
     = Some (Playwright.mkResult (Some "<html></html>") None false
               [ECancel]).
Proof.
  intros refuses proxied. split; [|split; reflexivity].
  rewrite <- (proj1 (getFromPlaywright_old_agrees (Examples.browser None None)
                       "http://example.com" (Examples.chromium false)
                       Examples.scope3 0) eq_refl eq_refl eq_refl eq_refl).
  reflexivity.
Defined.

(** ** The install section under concurrency, continued *)

Section InstallProgressFacts.
Import InstallProtocol InstallProgress.

Lemma holder_steps (s : State) (i : nat) (p : pc) :
  threads s !! i = Some p -> holds_lock p = true ->
  exists l s', step s l s' /\ is_timeout l = false.
Proof.
  intros Hi Hp. destruct p; try discriminate Hp.
  - destruct (flag s) eqn:Hf.
    + eexists _, _. split; [apply (step_load_installed s i Hi Hf)|reflexivity].
    + eexists _, _. split; [apply (step_load_missing s i Hi Hf)|reflexivity].
  - eexists _, _. split; [apply (step_install_ok s i Hi)|reflexivity].
  - eexists _, _. split; [apply (step_store s i Hi)|reflexivity].
  - eexists _, _. split; [apply (step_release s i Hi)|reflexivity].
Qed.

Lemma step_takes_work (s : State) (l : label) (s' : State) :
  step s l s' -> (work_left s' < work_left s)%nat.
Proof.
  unfold work_left.
  inversion 1 as [? i Hi Hl|? i Hi|? i Hi Hf|? i Hi Hf|? i Hi|? i Hi
                 |? i Hi|? i Hi]; subst; cbn [threads]; unfold move;
    match goal with
    | |- context [<[i := ?q]> (threads s)] =>
        pose proof (total_insert work _ _ _ q Hi) as Ht
    end; simpl in Ht; lia.
Qed.

End InstallProgressFacts.

(** X20.  The callers of the install section cannot deadlock and cannot
    run for ever: in every reachable state in which some caller has not
    finished, a caller can take a step that is not giving up at its
    deadline (the holder of the lock goes on, or, when nobody holds it, a
    waiting caller acquires it), and every step takes away from the
    finite work that is left. *)
Theorem install_no_deadlock (n : nat) (s : InstallProtocol.State)
    (tr : list InstallProtocol.label) :
  InstallProtocol.reach n s tr ->
  (Forall (fun p => InstallProgress.is_finished p = true)
          (InstallProtocol.threads s)
   \/ exists l s', InstallProtocol.step s l s'
                   /\ InstallProgress.is_timeout l = false)
  /\ (forall l s', InstallProtocol.step s l s' ->
        (InstallProgress.work_left s' < InstallProgress.work_left s)%nat).
Proof.
  intros Hreach. split; [|intros l s'; apply step_takes_work].
  destruct (InstallFacts.install_reach_invariant n s tr Hreach) as (I1 & _).
  destruct (decide (Forall (fun p => InstallProgress.is_finished p = true)
                           (InstallProtocol.threads s)))
    as [Hall|Hex]; [left; exact Hall|right].
  apply not_Forall_Exists in Hex; [|apply _].
  apply Exists_exists in Hex. destruct Hex as (p & Hp & Hnot).
  apply list_elem_of_lookup in Hp. destruct Hp as (i & Hi).
  destruct (InstallProtocol.holds_lock p) eqn:Hh.
  - exact (holder_steps s i p Hi Hh).
  - destruct p; try discriminate Hh; [|simpl in Hnot; congruence].
    destruct (InstallProtocol.lock s) eqn:Hl.
    + destruct (count_exists InstallProtocol.holds_lock
                  (InstallProtocol.threads s)) as (j & q & Hj & Hq); [lia|].
      exact (holder_steps s j q Hj Hq).
    + eexists _, _.
      split; [apply (InstallProtocol.step_acquire s i Hi Hl)|reflexivity].
Qed.

(** X20, at the state in which the first of two callers has stored the
    flag and holds the lock while the second waits: the first can
    release. *)
Lemma install_no_deadlock_witness :
  let s := InstallProtocol.mkState true true
             [InstallProtocol.AtRelease; InstallProtocol.AtAcquire] in
  exists l s', InstallProtocol.step s l s'
               /\ InstallProgress.is_timeout l = false.
Proof.
  intros s.
  assert (R : InstallProtocol.reach 2 s
                [InstallProtocol.Store 0; InstallProtocol.InstallOk 0;
                 InstallProtocol.Load 0 false; InstallProtocol.Acq 0]).
  { pose proof (InstallProtocol.reach_init 2) as R.
    fire R (InstallProtocol.step_acquire (InstallProtocol.init 2) 0).
    match type of R with InstallProtocol.reach _ ?s _ =>
      fire R (InstallProtocol.step_load_missing s 0) end.
    match type of R with InstallProtocol.reach _ ?s _ =>
      fire R (InstallProtocol.step_install_ok s 0) end.
    match type of R with InstallProtocol.reach _ ?s _ =>
      fire R (InstallProtocol.step_store s 0) end.
    exact R. }
  destruct (install_no_deadlock 2 s _ R) as ([Hall|Hstep] & _);
    [|exact Hstep].
  inversion Hall as [|? ? Hf _]. discriminate Hf.
Defined.

(** X21.  When all callers of the install section have finished the lock
    is free, and the flag is set exactly when an installer run succeeded;
    no step ever clears the flag. *)
Theorem install_quiescent (n : nat) (s : InstallProtocol.State)
    (tr : list InstallProtocol.label) :
  InstallProtocol.reach n s tr ->
  (Forall (fun p => InstallProgress.is_finished p = true)
          (InstallProtocol.threads s) ->
   InstallProtocol.lock s = false
   /\ (InstallProtocol.flag s = true <->
       InstallProtocol.installs_ok tr = 1%nat))
  /\ (forall l s', InstallProtocol.step s l s' ->
        InstallProtocol.flag s = true -> InstallProtocol.flag s' = true).
Proof.
  intros Hreach. split.
  - intros Hall.
    destruct (InstallFacts.install_reach_invariant n s tr Hreach)
      as (I1 & _ & I3 & _).
    assert (H0 : forall P, (forall p, InstallProgress.is_finished p = true ->
                                      P p = false) ->
                 count P (InstallProtocol.threads s) = 0%nat).
    { intros P HP. apply count_none.
      eapply Forall_impl; [exact Hall|]. exact HP. }
    rewrite H0 in I1 by (intros []; simpl; congruence).
    rewrite H0 in I3 by (intros []; simpl; congruence).
    split.
    + destruct (InstallProtocol.lock s); [discriminate I1|reflexivity].
    + rewrite I3. destruct (InstallProtocol.flag s); simpl; split;
        congruence.
  - intros l s' Hstep Hf.
    inversion Hstep; subst; cbn [InstallProtocol.flag]; auto.
Qed.

(** X21, at the end of the run of two callers in which the first
    installs. *)
Lemma install_quiescent_witness :
  let tr := [InstallProtocol.Rel 1; InstallProtocol.Load 1 true;
             InstallProtocol.Acq 1; InstallProtocol.Rel 0;
             InstallProtocol.Store 0; InstallProtocol.InstallOk 0;
             InstallProtocol.Load 0 false; InstallProtocol.Acq 0] in
  let s := InstallProtocol.mkState false true
             [InstallProtocol.Finished; InstallProtocol.Finished] in
  InstallProtocol.reach 2 s tr
  /\ (InstallProtocol.flag s = true <->
      InstallProtocol.installs_ok tr = 1%nat).
Proof.
  intros tr s.
  assert (R : InstallProtocol.reach 2 s tr).
  { pose proof (InstallProtocol.reach_init 2) as R.
    fire R (InstallProtocol.step_acquire (InstallProtocol.init 2) 0).
    match type of R with InstallProtocol.reach _ ?s _ =>
      fire R (InstallProtocol.step_load_missing s 0) end.
    match type of R with InstallProtocol.reach _ ?s _ =>
      fire R (InstallProtocol.step_install_ok s 0) end.
    match type of R with InstallProtocol.reach _ ?s _ =>
      fire R (InstallProtocol.step_store s 0) end.
    match type of R with InstallProtocol.reach _ ?s _ =>
      fire R (InstallProtocol.step_release s 0) end.
    match type of R with InstallProtocol.reach _ ?s _ =>
      fire R (InstallProtocol.step_acquire s 1) end.
    match type of R with InstallProtocol.reach _ ?s _ =>
      fire R (InstallProtocol.step_load_installed s 1) end.
    match type of R with InstallProtocol.reach _ ?s _ =>
      fire R (InstallProtocol.step_release s 1) end.
    exact R. }
  split; [exact R|].
  destruct (install_quiescent 2 s tr R) as (H & _).
  apply H. repeat constructor.
Defined.

(** ** Expressions *)

Section ExpressionFacts.
Import Utils.

(** The loop of [extendEnv] makes a copy of the environment. *)
Lemma env_copy (env : Env) :
  map_fold (fun k v (kv : Env) => <[k := v]> kv) ∅ env = env.
Proof.
  apply (map_fold_weak_ind (fun (r : Env) (m : Env) => r = m)).
  - reflexivity.
  - intros i x m r _ ->. reflexivity.
Qed.

End ExpressionFacts.

(** X22.  [extendEnv] panics on a nil result; otherwise it gives an
    environment in which [fRes] is the raw value of the result, whatever
    the given environment had there, [fIndex] is the iteration index when
    there is one and is what the given environment had when there is none,
    and every other name is as in the given environment. *)
Theorem extendEnv_lookup (env : gmap string GoValue)
    (index : option N) :
  Utils.extendEnv env None index = Panic
  /\ forall r, exists kv,
       Utils.extendEnv env (Some r) index = Ok kv
       /\ kv !! Utils.fitterResultRef = Some (Builder.Raw r)
       /\ kv !! Utils.fitterIndexRef
          = match index with
            | Some i => Some (VNumber (Z.of_N i))
            | None => env !! Utils.fitterIndexRef
            end
       /\ (forall k, k <> Utils.fitterResultRef ->
                     k <> Utils.fitterIndexRef -> kv !! k = env !! k).
Proof.
  split; [reflexivity|]. intros r. unfold Utils.extendEnv.
  rewrite env_copy. eexists. split; [reflexivity|].
  unfold Utils.fitterResultRef, Utils.fitterIndexRef.
  destruct index as [i|].
  - split; [|split].
    + rewrite lookup_insert_ne by discriminate. apply lookup_insert_eq.
    + apply lookup_insert_eq.
    + intros k H1 H2. rewrite !lookup_insert_ne by congruence. reflexivity.
  - split; [|split].
    + apply lookup_insert_eq.
    + rewrite lookup_insert_ne by discriminate. reflexivity.
    + intros k H1 H2. rewrite lookup_insert_ne by congruence. reflexivity.
Qed.

(** X23.  [ProcessExpression] panics on a nil result before anything is
    compiled.  Otherwise it compiles the expanded text of the expression
    and runs the program against one and the same environment, which holds
    [fRes], the raw value of the result, [fIndex] when there is an
    iteration index, and nothing else.  It returns the value of the run
    with a nil error when both succeed, and the boolean false (not nil)
    with the error when compiling or running fails; the program is not run
    when compiling fails. *)
Theorem ProcessExpression_outcome (w : Utils.World) (expression : string)
    (index : option N) :
  Utils.ProcessExpression w expression None index = Panic
  /\ forall r,
       let env : gmap string GoValue :=
         match index with
         | Some i => <[Utils.fitterIndexRef := VNumber (Z.of_N i)]>
                       {[Utils.fitterResultRef := Builder.Raw r]}
         | None => {[Utils.fitterResultRef := Builder.Raw r]}
         end in
       let text := Utils.Format w expression (mkScope (Some r) index None) in
       Utils.ProcessExpression w expression (Some r) index
       = Ok match Utils.Compile w text env with
            | inl err => (VBool false, Some err)
            | inr program =>
                match Utils.Run w program env with
                | inl err => (VBool false, Some err)
                | inr out => (out, None)
                end
            end.
Proof.
  split; [reflexivity|]. intros r env text. subst env text.
  unfold Utils.ProcessExpression, Utils.extendEnv, Utils.defEnv.
  rewrite env_copy.
  change (<[Utils.fitterResultRef:=Builder.Raw r]> (∅ : gmap string GoValue))
    with ({[Utils.fitterResultRef := Builder.Raw r]} : gmap string GoValue).
  destruct index as [i|];
    destruct (Utils.Compile w _ _) as [e|p]; try reflexivity;
    destruct (Utils.Run w p _); reflexivity.
Qed.
